(** * The Filecoin blockchain engine of ganache (src/chains/filecoin/filecoin/src/blockchain.ts)

    A shallow embedding of the [Blockchain] class: the message pool and its
    nonce projection ([push], [pushSigned]), the mining engine
    ([mineTipset]), the storage-deal engine ([startDeal]) and retrieval
    ([retrieve], [downloadFile]).

    Conventions of the embedding.
    - JavaScript [number]s that hold integers (nonces, heights, gas limits)
      and [bigint]s are both [Z]; no value is taken beyond the safe integer
      range.
    - The class is used once [waitForReady] has resolved: every manager is
      initialised and the genesis tipset is stored.
    - An [async] method is a computation in the monad [M]: it threads the
      whole object state and finishes by returning, by throwing, or by
      never settling (a semaphore that is never released).  A [throw] does
      not roll the state back.
    - The collaborators that live in other files of the package (address
      parsing, gas rules, the account manager, signing, content
      identifiers, the deal status table, the object store, [path.dirname])
      are the fields of the class [Env]; every definition and theorem is
      parametric in them.
    - The field [trace] is ghost state: the calls made on the account
      manager, the console, the logger, the file system and the event
      emitter, in the order in which they happen. *)

From stdpp Require Import gmap strings list pretty.
From Stdlib Require Import ZArith Lia Ascii.

Local Open Scope string_scope.
Local Open Scope list_scope.
Local Open Scope Z_scope.

(** ** Data model *)

(** Modelled from the spec: the enumeration of address protocols
    (things/address.ts is not part of the sources at hand). *)
Inductive AddressProtocol := ID | SECP256K1 | Actor | BLS | Unknown.

#[global] Instance AddressProtocol_eq_dec : EqDecision AddressProtocol.
Proof. solve_decision. Defined.

(** Modelled from the spec: the signature types (things/sig-type.ts). *)
Inductive SigType := SigTypeSecp256k1 | SigTypeBLS.

#[global] Instance SigType_eq_dec : EqDecision SigType.
Proof. solve_decision. Defined.

Module CID.
Record t := mk { value : string }.
End CID.

Module RootCID.
Record t := mk { root : CID.t }.
End RootCID.

(** [privateKey] is [None] when the engine does not hold the key (the
    field is then falsy in the source). *)
Module Address.
Record t := mk { value : string; privateKey : option string }.
End Address.

Module Account.
Record t := mk { address : Address.t; balance : Z; nonce : Z }.
End Account.

Module Message.
Record t := mk {
  to : string;
  from : string;
  nonce : Z;
  value : Z;
  gasLimit : Z;
  gasFeeCap : Z;
  gasPremium : Z;
  method : Z
}.

(** [message.nonce = n] *)
Definition setNonce (n : Z) (m : t) : t :=
  mk (to m) (from m) n (value m) (gasLimit m) (gasFeeCap m) (gasPremium m)
     (method m).
End Message.

Module MessageSendSpec.
Record t := mk { maxFee : Z }.
End MessageSendSpec.

Module Signature.
Record t := mk { type : SigType; data : string }.
End Signature.

Module SignedMessage.
Record t := mk { message : Message.t; signature : Signature.t }.
End SignedMessage.

Module ElectionProof.
Record t := mk { winCount : Z }.
End ElectionProof.

Module BlockHeader.
Record t := mk {
  miner : string;
  parents : list RootCID.t;
  height : Z;
  parentWeight : Z;
  electionProof : ElectionProof.t
}.

(** Modelled from the spec: the constructor of things/block-header.ts
    fills the fields that the caller leaves out; the only default that is
    read back by the engine is [electionProof.winCount], which is 1. *)
Definition new (miner : string) (parents : list RootCID.t) (height : Z)
    (parentWeight : Z) : t :=
  mk miner parents height parentWeight (ElectionProof.mk 1).
End BlockHeader.

Module Tipset.
Record t := mk { blocks : list BlockHeader.t; height : Z }.
End Tipset.

Module DealInfo.
Record t (Status : Type) := mk {
  proposalCid : RootCID.t;
  state : Status;
  message : string;
  provider : string;
  pieceCid : option RootCID.t;
  size : Z;
  pricePerEpoch : Z;
  duration : Z;
  dealId : Z
}.
Arguments mk {Status}.
Arguments proposalCid {Status}.
Arguments state {Status}.
Arguments message {Status}.
Arguments provider {Status}.
Arguments pieceCid {Status}.
Arguments size {Status}.
Arguments pricePerEpoch {Status}.
Arguments duration {Status}.
Arguments dealId {Status}.

(** [deal.state = s] *)
Definition setState {Status} (s : Status) (d : t Status) : t Status :=
  mk (proposalCid d) s (message d) (provider d) (pieceCid d) (size d)
     (pricePerEpoch d) (duration d) (dealId d).
End DealInfo.

Module StorageMarketDataRef.
Record t := mk { root : RootCID.t; pieceCid : option RootCID.t; pieceSize : Z }.
End StorageMarketDataRef.

Module StartDealParams.
Record t := mk {
  data : StorageMarketDataRef.t;
  wallet : option Address.t;
  miner : string;
  epochPrice : Z;
  minBlocksDuration : Z
}.
End StartDealParams.

Module RetrievalOrder.
Record t := mk { root : RootCID.t; total : Z; client : string; miner : string }.
End RetrievalOrder.

Module FileRef.
Record t := mk { path : string }.
End FileRef.

(** The [Error]s that the engine throws, one constructor per [throw]
    statement (named after the error kinds of the specification), and the
    errors that come out of the collaborators. *)
Inductive Error :=
| UnsupportedMethod (method : Z)
| InvalidNonce (nonce : Z)
| InvalidProtocol (field : string)
| InsufficientFunds (available required : Z)
| MissingWallet
| UnknownPrivateKey (address : string)
| ObjectNotFound (cid : string)
| IPFSNotRunning
| StatFailed (cid : string)
| ReadFailed (cid : string)
| TypeError (what : string)
| External (message : string).

(** The three [console.warn] calls of [mineTipset]. *)
Inductive Warning :=
| CouldNotBurnBaseFee (baseFee : Z) (from : string) (available : Z)
| CouldNotTransferMiningFees (fee : Z) (from : string) (available : Z)
| CouldNotTransfer (value : Z) (from to : string) (available : Z).

(** Ghost trace of the effects on the collaborators. *)
Inductive Event :=
| TransferFunds (from to : string) (amount : Z) (successful : bool)
| IncrementNonce (address : string)
| ConsoleWarn (w : Warning)
| LoggerLog (cid : string) (height : Z)
| EmitTipset (t : Tipset.t)
| Mkdir (dir : string)
| CreateWriteStream (path : string)
| WriteChunk (path : string) (chunk : string)
| Rename (oldPath newPath : string).

Inductive Lock := MiningLock | MessagePoolLock.

(** How an [async] method finishes. [OutOfFuel] is the only outcome that
    belongs to the model and not to the program: the [while] loop of
    [startDeal] is unrolled a bounded number of times. *)
Inductive Outcome (A : Type) :=
| Return (a : A)
| Throw (e : Error)
| Pending
| OutOfFuel.
Arguments Return {A}.
Arguments Throw {A}.
Arguments Pending {A}.
Arguments OutOfFuel {A}.

(** Reference implementation: https://git.io/JtEVW *)
Definition BurntFundsAddress : string := "t099".

(** [this.miner = "t01000"], set once by the constructor. *)
Definition miner : string := "t01000".

(** ** The collaborators *)

Class Env := {
  (** data-managers/account-manager.ts *)
  AccountManager : Type;
  getAccount : AccountManager → string → Account.t * AccountManager;
  transferFunds : AccountManager → string → string → Z → bool * AccountManager;
  incrementNonce : AccountManager → string → AccountManager;
  (** things/address.ts *)
  parseProtocol : string → AddressProtocol;
  signMessage : Address.t → Message.t → Error + string;
  signProposal : Address.t → StartDealParams.t → Error + string;
  (** gas.ts *)
  fillGasInformation : Message.t → MessageSendSpec.t → Message.t;
  getBaseFee : Z;
  getMinerFee : Message.t → Z;
  (** message.ts *)
  checkMessage : SignedMessage.t → option Error;
  (** content identifiers *)
  signedMessageCid : SignedMessage.t → CID.t;
  blockCid : BlockHeader.t → CID.t;
  dagCborCid : string → string;
  (** types/storage-deal-status.ts and [DealInfo.advanceState] *)
  StorageDealStatus : Type;
  StorageDealStatus_eq_dec :: EqDecision StorageDealStatus;
  Validating : StorageDealStatus;
  Active : StorageDealStatus;
  nextSuccessfulState : StorageDealStatus → StorageDealStatus;
  (** the object store behind [ipfsServer.node]: [object.stat] gives the
      cumulative size and [files.read] the chunks; [None] is a failed
      call (the 500 ms timeout of an absent object) *)
  objectStat : string → option Z;
  filesRead : string → option (list string);
  (** [path.dirname] *)
  dirname : string → string
}.

(** ** The state of a [Blockchain] object and the monad of its methods *)

Section Engine.
Context {E : Env}.

Record Blockchain := mkBlockchain {
  (** [options.miner.blockTime] *)
  blockTime : Z;
  (** whether [ipfsServer.node] is set *)
  ipfsNode : bool;
  accountManager : AccountManager;
  (** [tipsetManager.latest] and the tipsets stored by height *)
  latest : Tipset.t;
  tipsets : gmap Z Tipset.t;
  (** the key "latest-tipset" of the database *)
  latestTipsetKey : Z;
  (** [blockMessagesManager]: block CID to signed messages *)
  blockMessages : gmap string (list SignedMessage.t);
  (** free slots of the two [Sema(1)] semaphores *)
  miningLock : nat;
  messagePoolLock : nat;
  messagePool : list SignedMessage.t;
  (** [deals] owns the [DealInfo] objects; [dealsByCid] and
      [inProcessDeals] hold references to them (indices into [deals]) *)
  deals : list (DealInfo.t StorageDealStatus);
  dealsByCid : gmap string nat;
  inProcessDeals : list nat;
  (** the file system seen through [fs] *)
  files : gmap string (list string);
  dirs : gset string;
  (** [mineTipset()] calls started by [pushSigned] and not awaited *)
  scheduledMines : nat;
  trace : list Event
}.

Definition setAccountManager (x : AccountManager) (b : Blockchain) : Blockchain :=
  mkBlockchain (blockTime b) (ipfsNode b) x (latest b) (tipsets b)
    (latestTipsetKey b) (blockMessages b) (miningLock b) (messagePoolLock b)
    (messagePool b) (deals b) (dealsByCid b) (inProcessDeals b) (files b)
    (dirs b) (scheduledMines b) (trace b).

Definition setLatest (x : Tipset.t) (b : Blockchain) : Blockchain :=
  mkBlockchain (blockTime b) (ipfsNode b) (accountManager b) x (tipsets b)
    (latestTipsetKey b) (blockMessages b) (miningLock b) (messagePoolLock b)
    (messagePool b) (deals b) (dealsByCid b) (inProcessDeals b) (files b)
    (dirs b) (scheduledMines b) (trace b).

Definition setTipsets (x : gmap Z Tipset.t) (b : Blockchain) : Blockchain :=
  mkBlockchain (blockTime b) (ipfsNode b) (accountManager b) (latest b) x
    (latestTipsetKey b) (blockMessages b) (miningLock b) (messagePoolLock b)
    (messagePool b) (deals b) (dealsByCid b) (inProcessDeals b) (files b)
    (dirs b) (scheduledMines b) (trace b).

Definition setLatestTipsetKey (x : Z) (b : Blockchain) : Blockchain :=
  mkBlockchain (blockTime b) (ipfsNode b) (accountManager b) (latest b)
    (tipsets b) x (blockMessages b) (miningLock b) (messagePoolLock b)
    (messagePool b) (deals b) (dealsByCid b) (inProcessDeals b) (files b)
    (dirs b) (scheduledMines b) (trace b).

Definition setBlockMessages (x : gmap string (list SignedMessage.t))
    (b : Blockchain) : Blockchain :=
  mkBlockchain (blockTime b) (ipfsNode b) (accountManager b) (latest b)
    (tipsets b) (latestTipsetKey b) x (miningLock b) (messagePoolLock b)
    (messagePool b) (deals b) (dealsByCid b) (inProcessDeals b) (files b)
    (dirs b) (scheduledMines b) (trace b).

Definition setLock (l : Lock) (x : nat) (b : Blockchain) : Blockchain :=
  match l with
  | MiningLock =>
    mkBlockchain (blockTime b) (ipfsNode b) (accountManager b) (latest b)
      (tipsets b) (latestTipsetKey b) (blockMessages b) x (messagePoolLock b)
      (messagePool b) (deals b) (dealsByCid b) (inProcessDeals b) (files b)
      (dirs b) (scheduledMines b) (trace b)
  | MessagePoolLock =>
    mkBlockchain (blockTime b) (ipfsNode b) (accountManager b) (latest b)
      (tipsets b) (latestTipsetKey b) (blockMessages b) (miningLock b) x
      (messagePool b) (deals b) (dealsByCid b) (inProcessDeals b) (files b)
      (dirs b) (scheduledMines b) (trace b)
  end.

Definition getLock (l : Lock) (b : Blockchain) : nat :=
  match l with
  | MiningLock => miningLock b
  | MessagePoolLock => messagePoolLock b
  end.

Definition setMessagePool (x : list SignedMessage.t) (b : Blockchain) : Blockchain :=
  mkBlockchain (blockTime b) (ipfsNode b) (accountManager b) (latest b)
    (tipsets b) (latestTipsetKey b) (blockMessages b) (miningLock b)
    (messagePoolLock b) x (deals b) (dealsByCid b) (inProcessDeals b)
    (files b) (dirs b) (scheduledMines b) (trace b).

Definition setDeals (x : list (DealInfo.t StorageDealStatus)) (b : Blockchain)
    : Blockchain :=
  mkBlockchain (blockTime b) (ipfsNode b) (accountManager b) (latest b)
    (tipsets b) (latestTipsetKey b) (blockMessages b) (miningLock b)
    (messagePoolLock b) (messagePool b) x (dealsByCid b) (inProcessDeals b)
    (files b) (dirs b) (scheduledMines b) (trace b).

Definition setDealsByCid (x : gmap string nat) (b : Blockchain) : Blockchain :=
  mkBlockchain (blockTime b) (ipfsNode b) (accountManager b) (latest b)
    (tipsets b) (latestTipsetKey b) (blockMessages b) (miningLock b)
    (messagePoolLock b) (messagePool b) (deals b) x (inProcessDeals b)
    (files b) (dirs b) (scheduledMines b) (trace b).

Definition setInProcessDeals (x : list nat) (b : Blockchain) : Blockchain :=
  mkBlockchain (blockTime b) (ipfsNode b) (accountManager b) (latest b)
    (tipsets b) (latestTipsetKey b) (blockMessages b) (miningLock b)
    (messagePoolLock b) (messagePool b) (deals b) (dealsByCid b) x
    (files b) (dirs b) (scheduledMines b) (trace b).

Definition setFiles (x : gmap string (list string)) (b : Blockchain) : Blockchain :=
  mkBlockchain (blockTime b) (ipfsNode b) (accountManager b) (latest b)
    (tipsets b) (latestTipsetKey b) (blockMessages b) (miningLock b)
    (messagePoolLock b) (messagePool b) (deals b) (dealsByCid b)
    (inProcessDeals b) x (dirs b) (scheduledMines b) (trace b).

Definition setDirs (x : gset string) (b : Blockchain) : Blockchain :=
  mkBlockchain (blockTime b) (ipfsNode b) (accountManager b) (latest b)
    (tipsets b) (latestTipsetKey b) (blockMessages b) (miningLock b)
    (messagePoolLock b) (messagePool b) (deals b) (dealsByCid b)
    (inProcessDeals b) (files b) x (scheduledMines b) (trace b).

Definition setScheduledMines (x : nat) (b : Blockchain) : Blockchain :=
  mkBlockchain (blockTime b) (ipfsNode b) (accountManager b) (latest b)
    (tipsets b) (latestTipsetKey b) (blockMessages b) (miningLock b)
    (messagePoolLock b) (messagePool b) (deals b) (dealsByCid b)
    (inProcessDeals b) (files b) (dirs b) x (trace b).

Definition setTrace (x : list Event) (b : Blockchain) : Blockchain :=
  mkBlockchain (blockTime b) (ipfsNode b) (accountManager b) (latest b)
    (tipsets b) (latestTipsetKey b) (blockMessages b) (miningLock b)
    (messagePoolLock b) (messagePool b) (deals b) (dealsByCid b)
    (inProcessDeals b) (files b) (dirs b) (scheduledMines b) x.

(** The monad of the methods: state that survives a [throw]. *)
Definition M (A : Type) : Type := Blockchain → Blockchain * Outcome A.

Definition ret {A} (a : A) : M A := λ b, (b, Return a).

Definition bind {A B} (m : M A) (k : A → M B) : M B :=
  λ b, match m b with
       | (b', Return a) => k a b'
       | (b', Throw e) => (b', Throw e)
       | (b', Pending) => (b', Pending)
       | (b', OutOfFuel) => (b', OutOfFuel)
       end.

Definition throw {A} (e : Error) : M A := λ b, (b, Throw e).

(** [try { m } catch (e) { h e }] *)
Definition tryCatch {A} (m : M A) (h : Error → M A) : M A :=
  λ b, match m b with
       | (b', Throw e) => h e b'
       | r => r
       end.

Definition gets {A} (f : Blockchain → A) : M A := λ b, (b, Return (f b)).

Definition modify (f : Blockchain → Blockchain) : M unit := λ b, (f b, Return tt).

(** A result of a collaborator that may be an exception. *)
Definition liftSum {A} (r : Error + A) : M A :=
  match r with inl e => throw e | inr a => ret a end.

Definition emit (e : Event) : M unit :=
  modify (λ b, setTrace (trace b ++ [e]) b).

End Engine.

Notation "'let!' x ':=' m 'in' k" := (bind m (λ x, k))
  (at level 10, x name, m at level 100, k at level 200).
Notation "m ';;;' k" := (bind m (λ _, k))
  (at level 100, k at level 200, right associativity).

(** ** JavaScript numbers that hold integers

    A nonce is a [number], an IEEE-754 double.  An integer [z] stands for
    the double of that value; [round z] is the double nearest to the
    integer [z], ties going to the even significand (53 bits), and
    [add x y] is the [+] of the language on two such doubles: the exact
    sum, rounded.  Sums stay far below 2^1024, where [+] gives
    [Infinity]. *)
Module JSNumber.

(** [Number.MAX_SAFE_INTEGER] *)
Definition MAX_SAFE_INTEGER : Z := 2 ^ 53 - 1.

(** [Number.isSafeInteger(x)] for an integer [x] *)
Definition isSafeInteger (x : Z) : Prop :=
  (- MAX_SAFE_INTEGER <= x)%Z ∧ (x <= MAX_SAFE_INTEGER)%Z.

Definition round (z : Z) : Z :=
  let a := Z.abs z in
  let shift := Z.log2 a - 52 in
  if shift <=? 0 then z
  else
    let q := Z.shiftr a shift in
    let r := Z.land a (Z.ones shift) in
    let half := Z.shiftl 1 (shift - 1) in
    let q' := if (half <? r) || ((r =? half) && Z.odd q) then q + 1 else q in
    Z.sgn z * Z.shiftl q' shift.

Definition add (x y : Z) : Z := round (x + y).

End JSNumber.

Section Methods.
Context {E : Env}.

(** ** Calls on the collaborators *)

(** [await lock.acquire()]: takes a free slot, or never settles. *)
Definition acquire (l : Lock) : M unit :=
  λ b, match getLock l b with
       | O => (b, Pending)
       | S n => (setLock l n b, Return tt)
       end.

(** [lock.release()] *)
Definition release (l : Lock) : M unit :=
  modify (λ b, setLock l (S (getLock l b)) b).

(** [await this.accountManager!.getAccount(address)] *)
Definition getAccountM (address : string) : M Account.t :=
  λ b, let '(account, am) := getAccount (accountManager b) address in
       (setAccountManager am b, Return account).

(** [await this.accountManager!.transferFunds(from, to, amount)] *)
Definition transferFundsM (from to : string) (amount : Z) : M bool :=
  λ b, let '(successful, am) := transferFunds (accountManager b) from to amount in
       (setTrace (trace b ++ [TransferFunds from to amount successful])
          (setAccountManager am b), Return successful).

(** [this.accountManager!.incrementNonce(address)]; the source does not
    await the call, the model lets it take effect at once. *)
Definition incrementNonceM (address : string) : M unit :=
  modify (λ b, setTrace (trace b ++ [IncrementNonce address])
                 (setAccountManager (incrementNonce (accountManager b) address) b)).

(** Modelled from the spec: [tipset.cids] (things/tipset.ts) is derived
    from the blocks of the tipset, one root CID per block. *)
Definition cids (t : Tipset.t) : list RootCID.t :=
  (λ block, RootCID.mk (blockCid block)) <$> Tipset.blocks t.

Definition invalidProtocol (p : AddressProtocol) : bool :=
  bool_decide (p = ID) || bool_decide (p = Unknown).

(** ** Message pool *)

(** The messages of the pool that come from [from]:
    [this.messagePool.filter(queuedMessage => queuedMessage.message.from === message.from)] *)
Definition pendingMessagesFor (from : string) (pool : list SignedMessage.t)
    : list SignedMessage.t :=
  filter (λ queuedMessage,
            Message.from (SignedMessage.message queuedMessage) = from) pool.

(** The nonce that [push] writes into the message (lines 304-320), before
    the funds check: [Math.max] is exact, [+ 1] is the addition of
    numbers. *)
Definition assignedNonce (account : Account.t)
    (pendingMessagesForAccount : list SignedMessage.t) : Z :=
  if (length pendingMessagesForAccount =? 0)%nat then
    Account.nonce account
  else
    let nonceFromPendingMessages :=
      fold_left (λ nonce m, Z.max nonce (Message.nonce (SignedMessage.message m)))
                pendingMessagesForAccount (Account.nonce account) in
    JSNumber.add nonceFromPendingMessages 1.

Definition messageBalanceRequired (message : Message.t) : Z :=
  Message.gasFeeCap message * Message.gasLimit message + Message.value message.

Definition pendingBalanceRequired
    (pendingMessagesForAccount : list SignedMessage.t) : Z :=
  fold_left
    (λ balanceSpent m,
       balanceSpent
       + Message.gasFeeCap (SignedMessage.message m)
         * Message.gasLimit (SignedMessage.message m)
       + Message.value (SignedMessage.message m))
    pendingMessagesForAccount 0.

(** [pushSigned(signedMessage, acquireLock)].  With a block time of zero
    the method starts [mineTipset()] and does not await it: the call is
    counted in [scheduledMines] and runs after the caller has let go of the
    pool lock. *)
Definition pushSigned (signedMessage : SignedMessage.t) (acquireLock : bool)
    : M RootCID.t :=
  match checkMessage signedMessage with
  | Some error => throw error
  | None =>
    tryCatch
      ((if acquireLock then acquire MessagePoolLock else ret tt);;;
       modify (λ b, setMessagePool (messagePool b ++ [signedMessage]) b);;;
       (if acquireLock then release MessagePoolLock else ret tt);;;
       let! blockTime := gets blockTime in
       (if blockTime =? 0
        then modify (λ b, setScheduledMines (S (scheduledMines b)) b)
        else ret tt);;;
       ret (RootCID.mk (signedMessageCid signedMessage)))
      (λ e,
       (if acquireLock then release MessagePoolLock else ret tt);;;
       throw e)
  end.

(** The body of the [try] block of [push], entered after
    [fillGasInformation]. *)
Definition pushLocked (message : Message.t) : M SignedMessage.t :=
  acquire MessagePoolLock;;;
  let! account := getAccountM (Message.from message) in
  let! pool := gets messagePool in
  let pendingMessagesForAccount := pendingMessagesFor (Message.from message) pool in
  let message :=
    Message.setNonce (assignedNonce account pendingMessagesForAccount) message in
  (* check if enough funds *)
  let totalRequired :=
    messageBalanceRequired message
    + pendingBalanceRequired pendingMessagesForAccount in
  if Account.balance account <? totalRequired then
    throw (InsufficientFunds
             (Account.balance account
              - pendingBalanceRequired pendingMessagesForAccount)
             (messageBalanceRequired message))
  else
    (* sign the message *)
    let! signature := liftSum (signMessage (Account.address account) message) in
    let signedMessage :=
      SignedMessage.mk message (Signature.mk SigTypeBLS signature) in
    (* add to pool *)
    pushSigned signedMessage false;;;
    release MessagePoolLock;;;
    ret signedMessage.

(** [push(message, spec)] *)
Definition push (message : Message.t) (spec : MessageSendSpec.t)
    : M SignedMessage.t :=
  if negb (Message.method message =? 0) then
    throw (UnsupportedMethod (Message.method message))
  else if negb (Message.nonce message =? 0) then
    throw (InvalidNonce (Message.nonce message))
  else if invalidProtocol (parseProtocol (Message.from message)) then
    throw (InvalidProtocol "From")
  else if invalidProtocol (parseProtocol (Message.to message)) then
    throw (InvalidProtocol "To")
  else
    let message := fillGasInformation message spec in
    tryCatch (pushLocked message)
             (λ e, release MessagePoolLock;;; throw e).

(** ** Mining engine *)

(** The [console.warn] of a failed transfer: it reads the sender's
    account again to print the balance. *)
Definition warnLackOfFunds (from : string) (w : Z → Warning) : M unit :=
  let! fromAccount := getAccountM from in
  emit (ConsoleWarn (w (Account.balance fromAccount))).

(** The body of [for (const signedMessage of nextMessagePool)]; a
    [continue] returns [successfulMessages] as it stands. *)
Definition applyMessage (successfulMessages : list SignedMessage.t)
    (signedMessage : SignedMessage.t) : M (list SignedMessage.t) :=
  let from := Message.from (SignedMessage.message signedMessage) in
  let to := Message.to (SignedMessage.message signedMessage) in
  let value := Message.value (SignedMessage.message signedMessage) in
  let baseFee := getBaseFee in
  let afterBaseFee : M (list SignedMessage.t) :=
    (* send mining funds *)
    let! successful :=
      transferFundsM from miner (getMinerFee (SignedMessage.message signedMessage)) in
    if negb successful then
      warnLackOfFunds from
        (CouldNotTransferMiningFees
           (getMinerFee (SignedMessage.message signedMessage)) from);;;
      ret successfulMessages
    else
      let! successful := transferFundsM from to value in
      if negb successful then
        warnLackOfFunds from (CouldNotTransfer value from to);;;
        (* do not revert miner transfer as the miner attempted to mine *)
        ret successfulMessages
      else
        incrementNonceM from;;;
        ret (successfulMessages ++ [signedMessage]) in
  if negb (baseFee =? 0) then
    let! successful :=
      transferFundsM from BurntFundsAddress
        (getMinerFee (SignedMessage.message signedMessage)) in
    if negb successful then
      warnLackOfFunds from (CouldNotBurnBaseFee baseFee from);;;
      ret successfulMessages
    else afterBaseFee
  else afterBaseFee.

Fixpoint applyMessages (nextMessagePool : list SignedMessage.t)
    (successfulMessages : list SignedMessage.t) : M (list SignedMessage.t) :=
  match nextMessagePool with
  | [] => ret successfulMessages
  | signedMessage :: rest =>
    let! successfulMessages := applyMessage successfulMessages signedMessage in
    applyMessages rest successfulMessages
  end.

(** [for (let i = 0; i < numNewBlocks; i++) newBlocks.push(new BlockHeader(...))].
    Reading [previousTipset.blocks[0].electionProof] throws a [TypeError]
    when the previous tipset has no block. *)
Fixpoint newBlockHeaders (numNewBlocks : nat) (previousTipset : Tipset.t)
    (newTipsetHeight : Z) (newBlocks : list BlockHeader.t)
    : M (list BlockHeader.t) :=
  match numNewBlocks with
  | O => ret newBlocks
  | S n =>
    match Tipset.blocks previousTipset !! 0%nat, cids previousTipset !! 0%nat with
    | Some block0, Some cid0 =>
      newBlockHeaders n previousTipset newTipsetHeight
        (newBlocks ++
         [BlockHeader.new miner [cid0] newTipsetHeight
            (ElectionProof.winCount (BlockHeader.electionProof block0)
             + BlockHeader.parentWeight block0)])
    | _, _ => throw (TypeError "previousTipset.blocks[0] is undefined")
    end
  end.

(** [blockMessagesManager.putBlockMessages(newBlocks[0].cid, ...)].
    Modelled from the spec: the manager (section 4.1) is a write-through
    map from the block CID to the messages. *)
Definition putBlockMessages (newBlocks : list BlockHeader.t)
    (successfulMessages : list SignedMessage.t) : M unit :=
  match newBlocks !! 0%nat with
  | None => throw (TypeError "newBlocks[0] is undefined")
  | Some block0 =>
    modify (λ b, setBlockMessages
                   (<[CID.value (blockCid block0) := successfulMessages]>
                      (blockMessages b)) b)
  end.

(** [tipsetManager.putTipset(newTipset)].  Modelled from the spec: the
    manager (section 4.1) stores the tipset under its height and tracks
    it as [latest] (the constructor's comment: "sets latest").  The
    writes of the managers and of the key latest-tipset are taken to
    succeed; a store that fails (section 7) is not modelled, so what is
    stated of the store below is stated of calls that return, or holds
    whatever becomes of a write. *)
Definition putTipset (newTipset : Tipset.t) : M unit :=
  modify (λ b, setLatest newTipset
                 (setTipsets (<[Tipset.height newTipset := newTipset]> (tipsets b)) b)).

(** [deal.advanceState()] *)
Definition advanceState (deal : DealInfo.t StorageDealStatus)
    : DealInfo.t StorageDealStatus :=
  DealInfo.setState (nextSuccessfulState (DealInfo.state deal)) deal.

(** [array.indexOf(deal)], [None] standing for -1. *)
Fixpoint indexOf (deal : nat) (l : list nat) : option nat :=
  match l with
  | [] => None
  | d :: l' => if decide (d = deal) then Some 0%nat else S <$> indexOf deal l'
  end.

(** [array.splice(start, 1)]; a start of -1 counts from the end. *)
Definition splice1 (start : option nat) (l : list nat) : list nat :=
  match start with
  | Some i => delete i l
  | None => take (length l - 1) l
  end.

(** [for (const deal of this.inProcessDeals) { ... }]: the array iterator
    keeps an index [i], reads the current length of the array at every
    step and yields [inProcessDeals[i]]; the body removes elements from
    the array that is being iterated. *)
Fixpoint advanceDealsFrom (fuel i : nat)
    (deals : list (DealInfo.t StorageDealStatus)) (inProcessDeals : list nat)
    : list (DealInfo.t StorageDealStatus) * list nat :=
  match fuel with
  | O => (deals, inProcessDeals)
  | S fuel' =>
    match inProcessDeals !! i with
    | None => (deals, inProcessDeals)
    | Some deal =>
      let deals := alter advanceState deal deals in
      let inProcessDeals :=
        match deals !! deal with
        | Some d =>
          if decide (DealInfo.state d = Active)
          then splice1 (indexOf deal inProcessDeals) inProcessDeals
          else inProcessDeals
        | None => inProcessDeals
        end in
      advanceDealsFrom fuel' (S i) deals inProcessDeals
    end
  end.

(** The loop visits at most [length inProcessDeals] elements. *)
Definition advanceDeals : M unit :=
  modify (λ b,
    let '(deals', inProcess') :=
      advanceDealsFrom (length (inProcessDeals b)) 0 (deals b) (inProcessDeals b) in
    setInProcessDeals inProcess' (setDeals deals' b)).

(** [logLatestTipset()]: reads [tipset.cids[0].root.value]. *)
Definition logLatestTipset : M unit :=
  let! tipset := gets latest in
  match cids tipset !! 0%nat with
  | None => throw (TypeError "tipset.cids[0] is undefined")
  | Some cid0 =>
    emit (LoggerLog (CID.value (RootCID.root cid0)) (Tipset.height tipset))
  end.

(** [mineTipset(numNewBlocks)] *)
Definition mineTipset (numNewBlocks : nat) : M unit :=
  tryCatch
    (acquire MiningLock;;;
     (* grab the messages going into the next tipset and clear the pool *)
     let! nextMessagePool :=
       tryCatch
         (acquire MessagePoolLock;;;
          let! pool := gets messagePool in
          modify (setMessagePool []);;;
          release MessagePoolLock;;;
          ret pool)
         (λ e, release MessagePoolLock;;; throw e) in
     let! previousTipset := gets latest in
     let newTipsetHeight := Tipset.height previousTipset + 1 in
     let! newBlocks :=
       newBlockHeaders numNewBlocks previousTipset newTipsetHeight [] in
     (if (0 <? length nextMessagePool)%nat then
        let! successfulMessages := applyMessages nextMessagePool [] in
        putBlockMessages newBlocks successfulMessages
      else ret tt);;;
     let newTipset := Tipset.mk newBlocks newTipsetHeight in
     putTipset newTipset;;;
     modify (setLatestTipsetKey newTipsetHeight);;;
     (* Advance the state of all deals in process. *)
     advanceDeals;;;
     logLatestTipset;;;
     emit (EmitTipset newTipset);;;
     release MiningLock)
    (λ e, release MiningLock;;; throw e).

(** ** Object store and files *)

(** [hasLocal(cid)] *)
Definition hasLocal (cid : string) : M bool :=
  let! node := gets ipfsNode in
  if negb node then ret false
  else ret (bool_decide (is_Some (objectStat cid))).

(** [getIPFSObjectSize(cid)] *)
Definition getIPFSObjectSize (cid : string) : M Z :=
  let! node := gets ipfsNode in
  if negb node then ret 0
  else match objectStat cid with
       | None => throw (StatFailed cid)
       | Some cumulativeSize => ret cumulativeSize
       end.

Fixpoint writeChunks (path : string) (chunks : list string) : M unit :=
  match chunks with
  | [] => ret tt
  | chunk :: rest =>
    modify (λ b, setTrace (trace b ++ [WriteChunk path chunk])
                   (setFiles (<[path := default [] (files b !! path) ++ [chunk]]>
                                (files b)) b));;;
    writeChunks path rest
  end.

(** [downloadFile(cid, ref)].  The file system itself never fails here:
    the only failure after the stream is opened is the read of the
    object, and a read that fails yields no chunk first.  The two
    [catch] blocks of the source (a file that cannot be created, a chunk
    that cannot be saved) and a failing [rename] are left out; all of
    them throw before [retrieve] pays. *)
Definition downloadFile (cid : string) (ref : FileRef.t) : M unit :=
  let! node := gets ipfsNode in
  if negb node then throw IPFSNotRunning
  else
    let dir := dirname (FileRef.path ref) in
    let partial := FileRef.path ref +:+ ".partial" in
    let! dirExists :=
      gets (λ b, bool_decide (dir ∈ dirs b)
                 || bool_decide (is_Some (files b !! dir))) in
    (if negb dirExists
     then modify (λ b, setTrace (trace b ++ [Mkdir dir])
                         (setDirs ({[dir]} ∪ dirs b) b))
     else ret tt);;;
    modify (λ b, setTrace (trace b ++ [CreateWriteStream partial])
                   (setFiles (<[partial := []]> (files b)) b));;;
    match filesRead cid with
    | None => throw (ReadFailed cid)
    | Some chunks =>
      writeChunks partial chunks;;;
      modify (λ b, setTrace (trace b ++ [Rename partial (FileRef.path ref)])
                     (setFiles (<[FileRef.path ref :=
                                    default [] (files b !! partial)]>
                                  (delete partial (files b))) b))
    end.

(** ** Deal engine *)

(** [while (deal.state !== StorageDealStatus.Active) await this.mineTipset()] *)
Fixpoint mineUntilActive (fuel : nat) (deal : nat) : M unit :=
  let! d := gets (λ b, deals b !! deal) in
  match d with
  | None => throw (TypeError "deal is undefined")
  | Some d =>
    if decide (DealInfo.state d = Active) then ret tt
    else match fuel with
         | O => λ b, (b, OutOfFuel)
         | S fuel' => mineTipset 1;;; mineUntilActive fuel' deal
         end
  end.

(** [startDeal(proposal)]; [fuel] bounds the iterations of the
    instamine loop. *)
Definition startDeal (fuel : nat) (proposal : StartDealParams.t) : M RootCID.t :=
  match StartDealParams.wallet proposal with
  | None => throw MissingWallet
  | Some wallet =>
    let rootCid :=
      CID.value (RootCID.root
                   (StorageMarketDataRef.root (StartDealParams.data proposal))) in
    (* Get size of IPFS object represented by the proposal *)
    let! size := getIPFSObjectSize rootCid in
    let! account := getAccountM (Address.value wallet) in
    match Address.privateKey (Account.address account) with
    | None => throw (UnknownPrivateKey (Address.value wallet))
    | Some _ =>
      let! signature := liftSum (signProposal (Account.address account) proposal) in
      let proposalCid := CID.mk (dagCborCid signature) in
      let pieceSize := StorageMarketDataRef.pieceSize (StartDealParams.data proposal) in
      let! dealSize :=
        (if pieceSize =? 0 then getIPFSObjectSize rootCid else ret pieceSize) in
      let! dealsLength := gets (λ b, length (deals b)) in
      let deal :=
        DealInfo.mk (RootCID.mk proposalCid) Validating "" miner
          (StorageMarketDataRef.pieceCid (StartDealParams.data proposal))
          dealSize (StartDealParams.epochPrice proposal)
          (StartDealParams.minBlocksDuration proposal)
          (Z.of_nat dealsLength + 1) in
      (* the new object sits at index [dealsLength] of [deals] *)
      modify (λ b, setDealsByCid
                     (<[CID.value proposalCid := dealsLength]> (dealsByCid b)) b);;;
      modify (λ b, setDeals (deals b ++ [deal]) b);;;
      modify (λ b, setInProcessDeals (inProcessDeals b ++ [dealsLength]) b);;;
      let! blockTime := gets blockTime in
      (if blockTime =? 0 then mineUntilActive fuel dealsLength else ret tt);;;
      (* Subtract the cost from our current balance *)
      let! d := gets (λ b, deals b !! dealsLength) in
      match d with
      | None => throw (TypeError "deal is undefined")
      | Some deal =>
        let totalPrice := DealInfo.pricePerEpoch deal * DealInfo.duration deal in
        transferFundsM (Address.value wallet) (StartDealParams.miner proposal)
          totalPrice;;;
        ret (DealInfo.proposalCid deal)
      end
    end
  end.

(** [retrieve(retrievalOrder, ref)] *)
Definition retrieve (retrievalOrder : RetrievalOrder.t) (ref : FileRef.t)
    : M unit :=
  let rootCid := CID.value (RootCID.root (RetrievalOrder.root retrievalOrder)) in
  let! hasLocal := hasLocal rootCid in
  let! account := getAccountM (RetrievalOrder.client retrievalOrder) in
  match Address.privateKey (Account.address account) with
  | None => throw (UnknownPrivateKey (RetrievalOrder.client retrievalOrder))
  | Some _ =>
    if negb hasLocal then throw (ObjectNotFound rootCid)
    else
      downloadFile rootCid ref;;;
      transferFundsM (RetrievalOrder.client retrievalOrder)
        (RetrievalOrder.miner retrievalOrder)
        (RetrievalOrder.total retrievalOrder);;;
      ret tt
  end.

End Methods.

(** ** Vocabulary of the statements *)

Section Vocabulary.
Context {E : Env}.

(** The four checks that [push] makes before it touches the pool. *)
Definition validated (message : Message.t) : Prop :=
  Message.method message = 0 ∧ Message.nonce message = 0 ∧
  invalidProtocol (parseProtocol (Message.from message)) = false ∧
  invalidProtocol (parseProtocol (Message.to message)) = false.

(** The sum of [f] over a list. *)
Definition sumOver {A} (f : A → Z) (l : list A) : Z :=
  foldr (λ x acc, f x + acc) 0 l.

(** The largest nonce of a list of pending messages. *)
Definition maxNonce (l : list SignedMessage.t) : option Z :=
  match l with
  | [] => None
  | p :: l' =>
    Some (foldr (λ q acc, Z.max (Message.nonce (SignedMessage.message q)) acc)
                (Message.nonce (SignedMessage.message p)) l')
  end.

(** The nonce in the words of the specification: [account.nonce] when
    nothing is pending, otherwise the largest pending nonce plus one. *)
Definition specNonce (account : Account.t) (pending : list SignedMessage.t) : Z :=
  match maxNonce pending with
  | None => Account.nonce account
  | Some largest => largest + 1
  end.

#[global] Instance validated_dec message : Decision (validated message).
Proof. unfold validated. apply _. Defined.

(** An engine on which [mineTipset] can run: both semaphores have a free
    slot (nobody called [stop]) and the latest tipset has a first block. *)
Definition ready (b : Blockchain) : Prop :=
  miningLock b ≠ 0%nat ∧ messagePoolLock b ≠ 0%nat ∧
  Tipset.blocks (latest b) ≠ [].

(** Successive calls [mineTipset(n1); mineTipset(n2); ...], each awaited. *)
Fixpoint mineTipsets (rounds : list nat) : M unit :=
  match rounds with
  | [] => ret tt
  | n :: rest => mineTipset n;;; mineTipsets rest
  end.

Definition isWarning (e : Event) : bool :=
  match e with ConsoleWarn _ => true | _ => false end.

(** The number of [console.warn] calls in a trace. *)
Definition warnings (events : list Event) : nat :=
  length (List.filter isWarning events).

(** The heights of the tipsets handed to [emit("tipset", ...)], in order. *)
Definition emittedHeights (events : list Event) : list Z :=
  List.flat_map
    (λ e, match e with EmitTipset t => [Tipset.height t] | _ => [] end) events.

(** The transfers that [mineTipset] makes for a message, as recipients
    and amounts in the order of the attempts: the burn when the base fee
    is not zero, the miner fee, the value. *)
Definition transferSteps (m : SignedMessage.t) : list (string * Z) :=
  let message := SignedMessage.message m in
  (if getBaseFee =? 0 then []
   else [(BurntFundsAddress, getMinerFee message)])
  ++ [(miner, getMinerFee message); (Message.to message, Message.value message)].

(** Transfers made one after the other from [from] until one fails: the
    ledger that results, the calls made, and whether all succeeded. *)
Fixpoint attempt (from : string) (steps : list (string * Z))
    (am : AccountManager) : AccountManager * list Event * bool :=
  match steps with
  | [] => (am, [], true)
  | (to, amount) :: rest =>
    let '(successful, am') := transferFunds am from to amount in
    if successful then
      let '(am'', events, all) := attempt from rest am' in
      (am'', TransferFunds from to amount true :: events, all)
    else (am', [TransferFunds from to amount false], false)
  end.

(** What a deal was agreed on; [advanceState] does not touch it. *)
Definition dealTerms (d : DealInfo.t StorageDealStatus) : RootCID.t * Z * Z :=
  (DealInfo.proposalCid d, DealInfo.pricePerEpoch d, DealInfo.duration d).

(** The engine as [startDeal] leaves it after it has registered the deal
    ([account] and [am] come from [getAccount], [signature] from
    [signProposal], [dealSize] from the piece size or the object store). *)
Definition registered (proposal : StartDealParams.t) (am : AccountManager)
    (signature : string) (dealSize : Z) (b : Blockchain) : Blockchain :=
  let deal :=
    DealInfo.mk (RootCID.mk (CID.mk (dagCborCid signature))) Validating "" miner
      (StorageMarketDataRef.pieceCid (StartDealParams.data proposal))
      dealSize (StartDealParams.epochPrice proposal)
      (StartDealParams.minBlocksDuration proposal)
      (Z.of_nat (length (deals b)) + 1) in
  setInProcessDeals (inProcessDeals b ++ [length (deals b)])
    (setDeals (deals b ++ [deal])
       (setDealsByCid
          (<[dagCborCid signature := length (deals b)]> (dealsByCid b))
          (setAccountManager am b))).

(** The [transferFunds] calls of a trace, in order. *)
Definition transfers (events : list Event) : list Event :=
  List.filter
    (λ e, match e with TransferFunds _ _ _ _ => true | _ => false end) events.

End Vocabulary.

Ltac run :=
  unfold tryCatch, bind, ret, throw, gets, modify, emit, release, acquire,
    getAccountM, transferFundsM, incrementNonceM, liftSum; simpl.

(** Reduction of the projections and setters of the state only. *)
Ltac fields :=
  cbn [blockTime ipfsNode accountManager latest tipsets latestTipsetKey
       blockMessages miningLock messagePoolLock messagePool deals dealsByCid
       inProcessDeals files dirs scheduledMines trace
       setAccountManager setLatest setTipsets setLatestTipsetKey
       setBlockMessages setLock getLock setMessagePool setDeals setDealsByCid
       setInProcessDeals setFiles setDirs setScheduledMines setTrace
       fst snd negb].

Tactic Notation "fields" "in" hyp(H) :=
  cbn [blockTime ipfsNode accountManager latest tipsets latestTipsetKey
       blockMessages miningLock messagePoolLock messagePool deals dealsByCid
       inProcessDeals files dirs scheduledMines trace
       setAccountManager setLatest setTipsets setLatestTipsetKey
       setBlockMessages setLock getLock setMessagePool setDeals setDealsByCid
       setInProcessDeals setFiles setDirs setScheduledMines setTrace
       fst snd negb] in H.

(** Runs the monadic operations that are at the head of the goal. *)
Ltac step :=
  repeat (progress
            (unfold tryCatch, bind, ret, throw, gets, emit, release, acquire,
               modify, getAccountM, transferFundsM, incrementNonceM, liftSum;
             fields)).

(** ** A concrete instance of the collaborators

    The theorems below hold for every [Env].  To run the engine on
    concrete inputs the module [Sim] fixes one instance. *)

Module Sim.

(** Modelled from the spec: data-managers/account-manager.ts is not part
    of the sources at hand.  Section 4.5 gives the account ledger:
    [getAccount] creates a zero-balance record lazily for an unknown
    address, [transferFunds] returns [false] iff the balance of [from] is
    below the amount and then changes nothing, otherwise it debits and
    then credits, and [incrementNonce] adds one to the nonce. *)
Definition get_account (am : gmap string Account.t) (address : string)
    : Account.t * gmap string Account.t :=
  match am !! address with
  | Some account => (account, am)
  | None =>
    let account := Account.mk (Address.mk address None) 0 0 in
    (account, <[address := account]> am)
  end.

Definition setBalance (x : Z) (a : Account.t) : Account.t :=
  Account.mk (Account.address a) x (Account.nonce a).

Definition transfer_funds (am : gmap string Account.t) (from to : string)
    (amount : Z) : bool * gmap string Account.t :=
  let '(fromAccount, am1) := get_account am from in
  if Account.balance fromAccount <? amount then (false, am)
  else
    let am2 :=
      <[from := setBalance (Account.balance fromAccount - amount) fromAccount]> am1 in
    let '(toAccount, am3) := get_account am2 to in
    (true, <[to := setBalance (Account.balance toAccount + amount) toAccount]> am3).

Definition increment_nonce (am : gmap string Account.t) (address : string)
    : gmap string Account.t :=
  let '(account, am1) := get_account am address in
  <[address := Account.mk (Account.address account) (Account.balance account)
                 (Account.nonce account + 1)]> am1.

(** Modelled from the spec: the protocol is the tag that follows the
    network prefix of the address string (section 3): 0 for ID, 1 for
    SECP256K1, 2 for Actor and 3 for BLS. *)
Definition parse_protocol (address : string) : AddressProtocol :=
  match address with
  | String _ (String c _) =>
    if Ascii.eqb c "0"%char then ID
    else if Ascii.eqb c "1"%char then SECP256K1
    else if Ascii.eqb c "2"%char then Actor
    else if Ascii.eqb c "3"%char then BLS
    else Unknown
  | _ => Unknown
  end.

Definition sign (address : Address.t) : Error + string :=
  match Address.privateKey address with
  | Some key => inr ("signed:" +:+ key)
  | None => inl (External "no private key")
  end.

(** Modelled from the spec: the linear table of deal states (section 3,
    [Validating → Staged → … → Active → Expired]); the states that the
    specification leaves out are stood for by [Sealing]. *)
Inductive Status := SValidating | SStaged | SSealing | SActive | SExpired.

#[global] Instance Status_eq_dec : EqDecision Status.
Proof. solve_decision. Defined.

Definition next (s : Status) : Status :=
  match s with
  | SValidating => SStaged
  | SStaged => SSealing
  | SSealing => SActive
  | SActive => SExpired
  | SExpired => SExpired
  end.

(** The instance: gas information is taken as the caller gives it, the
    miner fee is [gasFeeCap × gasLimit] (the amount that scenario S1 of
    the specification charges), and the object store holds one object. *)
Definition env (baseFee : Z) : Env := {|
  AccountManager := gmap string Account.t;
  getAccount := get_account;
  transferFunds := transfer_funds;
  incrementNonce := increment_nonce;
  parseProtocol := parse_protocol;
  signMessage := λ address _, sign address;
  signProposal := λ address _, sign address;
  fillGasInformation := λ message _, message;
  getBaseFee := baseFee;
  getMinerFee := λ m, Message.gasFeeCap m * Message.gasLimit m;
  checkMessage := λ _, None;
  signedMessageCid := λ sm,
    CID.mk ("msg:" +:+ Message.from (SignedMessage.message sm) +:+ ":"
            +:+ pretty (Message.nonce (SignedMessage.message sm)));
  blockCid := λ h, CID.mk ("block:" +:+ pretty (BlockHeader.height h));
  dagCborCid := λ signature, "deal:" +:+ signature;
  StorageDealStatus := Status;
  Validating := SValidating;
  Active := SActive;
  nextSuccessfulState := next;
  objectStat := λ cid, if String.eqb cid "QmData" then Some 42 else None;
  filesRead := λ cid,
    if String.eqb cid "QmData" then Some ["chunk1"; "chunk2"] else None;
  dirname := λ _, "/downloads"
|}.

Definition genesisBlock : BlockHeader.t :=
  BlockHeader.new "" [RootCID.mk (CID.mk "bafyreiaqpwbbyjo4a42saasj36kkrpv4tsherf2e7bvezkert2a7dhonoi")] 0 0.

Definition genesisTipset : Tipset.t := Tipset.mk [genesisBlock] 0.

Definition account (address : string) (balance nonce : Z) : Account.t :=
  Account.mk (Address.mk address (Some ("key:" +:+ address))) balance nonce.

(** A ready engine at genesis with the given block time, accounts and pool. *)
Definition genesis (baseFee blockTime : Z) (accounts : list Account.t)
    (pool : list SignedMessage.t) : @Blockchain (env baseFee) :=
  @mkBlockchain (env baseFee) blockTime true
    (list_to_map ((λ a, (Address.value (Account.address a), a)) <$> accounts))
    genesisTipset {[0 := genesisTipset]} 0 ∅ 1%nat 1%nat pool [] ∅ [] ∅ ∅ 0%nat [].

Definition transfer (from to : string) (value nonce : Z) : Message.t :=
  Message.mk to from nonce value 1 1 0 0.

Definition signed (m : Message.t) : SignedMessage.t :=
  SignedMessage.mk m (Signature.mk SigTypeBLS ("signed:key:" +:+ Message.from m)).

Definition noSpec : MessageSendSpec.t := MessageSendSpec.mk 0.

(** Two funded accounts, block time 5 s, empty pool. *)
Definition twoAccounts : @Blockchain (env 0) :=
  genesis 0 5 [account "t3a" 100 0; account "t3b" 0 0] [].

(** The sender has committed nonce 2 and the pool holds a message of the
    same sender that was signed outside with nonce 0 and handed to
    [pushSigned]. *)
Definition staleNonce : @Blockchain (env 0) :=
  genesis 0 5 [account "t3a" 100 2; account "t3b" 0 0]
    [signed (transfer "t3a" "t3b" 1 0)].

(** A sender with a SECP256K1 address. *)
Definition secpSender : @Blockchain (env 0) :=
  genesis 0 5 [account "t1a" 100 0; account "t3b" 0 0] [].

(** The sender owns 5 attoFIL and one message is pending. *)
Definition poorSender : @Blockchain (env 0) :=
  genesis 0 5 [account "t3a" 5 0; account "t3b" 0 0]
    [signed (transfer "t3a" "t3b" 1 0)].

(** One message waits in the pool. *)
Definition onePending : @Blockchain (env 0) :=
  genesis 0 5 [account "t3a" 100 0; account "t3b" 0 0]
    [signed (transfer "t3a" "t3b" 10 0)].

(** The same with a base fee of 100 attoFIL. *)
Definition onePendingWithBaseFee : @Blockchain (env 100) :=
  genesis 100 5 [account "t3a" 100 0; account "t3b" 0 0]
    [signed (transfer "t3a" "t3b" 10 0)].

(** Scenario S1 of the specification: one transfer of 10, then a tipset. *)
Definition scenarioS1 : @Blockchain (env 0) :=
  ((push (transfer "t3a" "t3b" 10 0) noSpec;;; mineTipset 1) twoAccounts).1.

(** Scenario S2: three transfers of 1 from the same sender, not yet mined. *)
Definition scenarioS2 : @Blockchain (env 0) :=
  ((push (transfer "t3a" "t3b" 1 0) noSpec;;;
    push (transfer "t3a" "t3b" 1 0) noSpec;;;
    push (transfer "t3a" "t3b" 1 0) noSpec) twoAccounts).1.

(** A proposal of [wallet] for the stored object: 2 attoFIL per epoch
    over 10 epochs. *)
Definition proposal (wallet : string) : StartDealParams.t :=
  StartDealParams.mk
    (StorageMarketDataRef.mk (RootCID.mk (CID.mk "QmData")) None 0)
    (Some (Address.mk wallet None)) "t01000" 2 10.

(** Interval mining: [t3a] starts a deal, two tipsets are mined, [t3c]
    starts a deal.  Both deals are then in process. *)
Definition twoDeals : @Blockchain (env 0) :=
  ((startDeal 0 (proposal "t3a");;; mineTipset 1;;; mineTipset 1;;;
    startDeal 0 (proposal "t3c");;; ret tt)
     (genesis 0 5 [account "t3a" 100 0; account "t3c" 100 0] [])).1.

(** Instamine with a wallet that owns nothing. *)
Definition instamine : @Blockchain (env 0) :=
  genesis 0 0 [account "t3a" 0 0] [].

(** An order of a client whose key the engine does not hold. *)
Definition foreignOrder : RetrievalOrder.t :=
  RetrievalOrder.mk (RootCID.mk (CID.mk "QmData")) 7 "t3zzz" "t01000".

End Sim.

(** * The rest of the class, and the invariants of the engine *)

Module QueryOffer.
Record t := mk { root : RootCID.t; size : Z; miner : string; minPrice : Z }.
End QueryOffer.

Section MoreMethods.
Context {E : Env}.

(** [createQueryOffer(rootCid)]; [minPrice] is [BigInt(size * 2)]. *)
Definition createQueryOffer (rootCid : RootCID.t) : M QueryOffer.t :=
  let! size := getIPFSObjectSize (CID.value (RootCID.root rootCid)) in
  ret (QueryOffer.mk rootCid size miner (size * 2)).

Definition setIpfsNode (x : bool) (b : Blockchain) : Blockchain :=
  mkBlockchain (blockTime b) x (accountManager b) (latest b) (tipsets b)
    (latestTipsetKey b) (blockMessages b) (miningLock b) (messagePoolLock b)
    (messagePool b) (deals b) (dealsByCid b) (inProcessDeals b) (files b)
    (dirs b) (scheduledMines b) (trace b).

(** [stop()]: takes both semaphores and keeps them.  The mining timer and
    the database handle are not part of the state; ipfs-server.ts is not
    part of the sources at hand, so what [ipfsServer.stop()] does to
    [ipfsServer.node] is the parameter [ipfsServerStop]. *)
Definition stop (ipfsServerStop : bool → bool) : M unit :=
  acquire MiningLock;;;
  acquire MessagePoolLock;;;
  modify (λ b, setIpfsNode (ipfsServerStop (ipfsNode b)) b).

(** The chain as it is stored: the key "latest-tipset" holds the height of
    the latest tipset, the latest tipset is stored under its height, and
    every stored tipset sits under its own height, none above the latest. *)
Definition chainStored (b : Blockchain) : Prop :=
  latestTipsetKey b = Tipset.height (latest b) ∧
  tipsets b !! Tipset.height (latest b) = Some (latest b) ∧
  ∀ h t, tipsets b !! h = Some t →
         Tipset.height t = h ∧ h ≤ Tipset.height (latest b).

(** The deal at index [i] of [deals] has the id [i + 1]. *)
Definition dealIdsInOrder (b : Blockchain) : Prop :=
  ∀ i d, deals b !! i = Some d → DealInfo.dealId d = Z.of_nat i + 1.

(** [inProcessDeals] holds distinct references to deals that are not
    Active. *)
Definition inProcessSound (b : Blockchain) : Prop :=
  NoDup (inProcessDeals b) ∧
  ∀ r, r ∈ inProcessDeals b →
       ∃ d, deals b !! r = Some d ∧ DealInfo.state d ≠ Active.

(** What [downloadFile] has done to the file system once the write
    stream is open: the directory exists and the partial file is empty. *)
Definition opened (ref : FileRef.t) (b : Blockchain) : Blockchain :=
  let dir := dirname (FileRef.path ref) in
  let partial := FileRef.path ref +:+ ".partial" in
  let exists_ :=
    bool_decide (dir ∈ dirs b) || bool_decide (is_Some (files b !! dir)) in
  setTrace (trace b ++ (if exists_ then [] else [Mkdir dir])
              ++ [CreateWriteStream partial])
    (setFiles (<[partial := []]> (files b))
       (setDirs (if exists_ then dirs b else {[dir]} ∪ dirs b) b)).

End MoreMethods.

(** * Access lists of EIP-2930 transactions

    chains/ethereum/transaction/src/access-lists.ts *)

Module AccessLists.

(** [AccessListItem] of @ethereumjs/tx: an address and storage keys as
    hex strings. *)
Record AccessListItem := mkItem { address : string; storageKeys : list string }.

(** What the module imports: [Buffer] with [toBuffer] and [bufferToHex]
    of ethereumjs-util ([toBuffer] throws on a string that it cannot
    convert: [None]), the type guard [isAccessList] of @ethereumjs/tx over
    the two array shapes, and the two gas costs of params.ts. *)
Class Imports := {
  Buffer : Type;
  toBuffer : string → option Buffer;
  bufferToHex : Buffer → string;
  isAccessList : list AccessListItem + list (Buffer * list Buffer) → bool;
  ACCESS_LIST_STORAGE_KEY_GAS : Z;
  ACCESS_LIST_ADDRESS_GAS : Z
}.

Section GetAccessListData.
Context {I : Imports}.

(** The argument [accessList: AccessListBuffer | AccessList], an array
    of [AccessListItem]s or of pairs [[address, storageKeys]] of buffers;
    callers also pass [undefined]. *)
Inductive Input :=
| Undefined
| Json (accessList : list AccessListItem)
| Buffers (accessList : list (Buffer * list Buffer)).

(** The object that [getAccessListData] returns. *)
Record Data := mkData {
  AccessListJSON : list AccessListItem;
  accessList : list (Buffer * list Buffer);
  dataFeeEIP2930 : Z
}.

(** [for (let index = 0; index < storageKeysLength; index++)
       storageItems.push(toBuffer(item.storageKeys[index]))] *)
Fixpoint pushStorageItems (storageKeys : list string) (storageItems : list Buffer)
    : option (list Buffer) :=
  match storageKeys with
  | [] => Some storageItems
  | key :: rest =>
    buffer ← toBuffer key;
    pushStorageItems rest (storageItems ++ [buffer])
  end.

(** The loop of the first branch over the items that are left, with the
    variables [slots] and [newAccessList]. *)
Fixpoint pushBufferItems (items : list AccessListItem) (slots : Z)
    (newAccessList : list (Buffer * list Buffer))
    : option (Z * list (Buffer * list Buffer)) :=
  match items with
  | [] => Some (slots, newAccessList)
  | item :: rest =>
    addressBuffer ← toBuffer (address item);
    let storageKeysLength := Z.of_nat (length (storageKeys item)) in
    let slots := slots + storageKeysLength in
    storageItems ← pushStorageItems (storageKeys item) [];
    pushBufferItems rest slots (newAccessList ++ [(addressBuffer, storageItems)])
  end.

(** [for (let item = 0; item < storageKeysLength; item++)
       storageKeys.push(bufferToHex(data[1][item]))] *)
Fixpoint pushStorageKeys (data1 : list Buffer) (storageKeys : list string)
    : list string :=
  match data1 with
  | [] => storageKeys
  | buffer :: rest => pushStorageKeys rest (storageKeys ++ [bufferToHex buffer])
  end.

(** The loop of the second branch, with the variables [slots] and
    [json]. *)
Fixpoint pushJsonItems (bufferAccessList : list (Buffer * list Buffer))
    (slots : Z) (json : list AccessListItem) : Z * list AccessListItem :=
  match bufferAccessList with
  | [] => (slots, json)
  | data :: rest =>
    let address := bufferToHex data.1 in
    let storageKeysLength := Z.of_nat (length data.2) in
    let slots := slots + storageKeysLength in
    let storageKeys := pushStorageKeys data.2 [] in
    let jsonItem := mkItem address storageKeys in
    pushJsonItems rest slots (json ++ [jsonItem])
  end.

(** [AccessLists.getAccessListData(accessList)]; [None] is a thrown
    exception.  The lengths and costs are JavaScript numbers, exact below
    2^53, taken here as integers.  [first] is the branch of
    [accessList && isAccessList(accessList)] and [second] the other one.
    An array of the shape that its branch does not expect is read as the
    source reads it: an empty one runs no iteration, and on the first item
    of any other the property access [item.storageKeys.length] (or
    [data[1].length]) is made on [undefined] and throws. *)
Definition getAccessListData (accessList : Input) : option Data :=
  let accessListStorageKeyCost := ACCESS_LIST_STORAGE_KEY_GAS in
  let accessListAddressCost := ACCESS_LIST_ADDRESS_GAS in
  let dataFee (bufferAccessList : list (Buffer * list Buffer)) (slots : Z) :=
    Z.of_nat (length bufferAccessList) * accessListAddressCost
    + slots * accessListStorageKeyCost in
  let first (items : list AccessListItem) :=
    '(slots, newAccessList) ← pushBufferItems items 0 [];
    Some (mkData items newAccessList (dataFee newAccessList slots)) in
  let second (bufferAccessList : list (Buffer * list Buffer)) :=
    let '(slots, json) := pushJsonItems bufferAccessList 0 [] in
    Some (mkData json bufferAccessList (dataFee bufferAccessList slots)) in
  match accessList with
  | Undefined => second []
  | Json items =>
    if isAccessList (inl items) then first items
    else match items with [] => second [] | _ :: _ => None end
  | Buffers bufferAccessList =>
    if isAccessList (inr bufferAccessList)
    then match bufferAccessList with [] => first [] | _ :: _ => None end
    else second bufferAccessList
  end.

(** The data fee of an access list whose items have the given numbers
    of storage keys: one address cost per item and one key cost per key. *)
Definition totalFee (storageKeys : list nat) : Z :=
  foldr (λ n fee, ACCESS_LIST_ADDRESS_GAS
                  + Z.of_nat n * ACCESS_LIST_STORAGE_KEY_GAS + fee) 0 storageKeys.

(** The JSON item of a pair of buffers. *)
Definition jsonItem (data : Buffer * list Buffer) : AccessListItem :=
  mkItem (bufferToHex data.1) (bufferToHex <$> data.2).

(** The pair of buffers of a JSON item, if all its strings convert. *)
Definition bufferItem (item : AccessListItem) : option (Buffer * list Buffer) :=
  addressBuffer ← toBuffer (address item);
  storageItems ← mapM toBuffer (storageKeys item);
  Some (addressBuffer, storageItems).

(** [data] is what [toBuffer] makes of the strings of [item]. *)
Definition converts (item : AccessListItem) (data : Buffer * list Buffer) : Prop :=
  toBuffer (address item) = Some data.1 ∧
  Forall2 (λ key buffer, toBuffer key = Some buffer) (storageKeys item) data.2.

End GetAccessListData.

(** An instance to run the function on: a buffer is kept as its hex
    digits, [toBuffer] wants the prefix [0x], the type guard is the one of
    @ethereumjs/tx (an empty array and an array of arrays are not an
    [AccessList]) and the costs are those of EIP-2930. *)
Module Example.

Definition to_buffer (s : string) : option string :=
  match s with
  | String "0" (String "x" digits) => Some digits
  | _ => None
  end.

Definition imports : Imports := {|
  Buffer := string;
  toBuffer := to_buffer;
  bufferToHex := λ digits, "0x" +:+ digits;
  isAccessList := λ input,
    match input with inl (_ :: _) => true | _ => false end;
  ACCESS_LIST_STORAGE_KEY_GAS := 1900;
  ACCESS_LIST_ADDRESS_GAS := 2400
|}.

(** One address with two storage keys and one address without. *)
Definition twoItems
    : list (Buffer (Imports := imports) * list (Buffer (Imports := imports))) :=
  [("aa", ["01"; "02"]); ("bb", [])].

(** The same as JSON, and a list whose second address is not hex. *)
Definition twoJsonItems : list AccessListItem :=
  [mkItem "0xaa" ["0x01"; "0x02"]; mkItem "0xbb" []].

Definition notHex : list AccessListItem :=
  [mkItem "0xaa" ["0x01"]; mkItem "bb" []].

End Example.

End AccessLists.

(** * Properties of [push] *)

Section PushProperties.
Context {E : Env}.

(** A call of [push] that returns has passed the four checks, found the
    pool lock free and the funds sufficient, and has appended to the pool
    the message it returns. *)
Lemma push_inv message spec b b' sm :
  push message spec b = (b', Return sm) →
  validated message ∧
  ∃ n account am signature,
    messagePoolLock b = S n ∧
    getAccount (accountManager b) (Message.from (fillGasInformation message spec))
      = (account, am) ∧
    let message' := fillGasInformation message spec in
    let pending := pendingMessagesFor (Message.from message') (messagePool b) in
    messageBalanceRequired message' + pendingBalanceRequired pending
      ≤ Account.balance account ∧
    sm = SignedMessage.mk
           (Message.setNonce (assignedNonce account pending) message')
           (Signature.mk SigTypeBLS signature) ∧
    messagePool b' = messagePool b ++ [sm] ∧
    accountManager b' = am ∧
    messagePoolLock b' = messagePoolLock b.
Proof.
  unfold push.
  destruct (Message.method message =? 0) eqn:Hm; simpl; [|discriminate].
  destruct (Message.nonce message =? 0) eqn:Hn; simpl; [|discriminate].
  destruct (invalidProtocol (parseProtocol (Message.from message))) eqn:Hf;
    [discriminate|].
  destruct (invalidProtocol (parseProtocol (Message.to message))) eqn:Ht;
    [discriminate|].
  intros H. split. { repeat split; auto; lia. }
  revert H. unfold pushLocked. run.
  destruct (messagePoolLock b) as [|n] eqn:Hl; [discriminate|]. simpl.
  destruct (getAccount (accountManager b) _) as [account am] eqn:Hacc. simpl.
  match goal with |- context [if ?c then _ else _] => destruct c eqn:Hbal end.
  { discriminate. }
  destruct (signMessage _ _) as [e|signature] eqn:Hsig; simpl.
  { discriminate. }
  unfold pushSigned.
  destruct (checkMessage _) eqn:Hchk.
  { run. discriminate. }
  run.
  destruct (blockTime b =? 0); simpl; intros [= <- <-];
    exists n, account, am, signature; simpl; rewrite ?Hl;
    repeat split; auto; apply Z.ltb_ge in Hbal; exact Hbal.
Qed.

Lemma foldr_max_swap (l : list SignedMessage.t) (x y : Z) :
  Z.max y (foldr (λ q acc, Z.max (Message.nonce (SignedMessage.message q)) acc) x l)
  = Z.max x (foldr (λ q acc, Z.max (Message.nonce (SignedMessage.message q)) acc) y l).
Proof.
  induction l as [|r l IH]; simpl; lia.
Qed.

Lemma fold_left_max_nonce (l : list SignedMessage.t) (a : Z) :
  fold_left (λ nonce m, Z.max nonce (Message.nonce (SignedMessage.message m))) l a
  = match maxNonce l with None => a | Some largest => Z.max a largest end.
Proof.
  revert a. induction l as [|p l IH]; intros a; simpl; [reflexivity|].
  rewrite IH. clear IH. destruct l as [|q l]; simpl; [reflexivity|].
  pose proof (foldr_max_swap l (Message.nonce (SignedMessage.message p))
                (Message.nonce (SignedMessage.message q))).
  lia.
Qed.

(** Sums up to 2^53 in absolute value are exact. *)
Lemma JSNumber_round_exact z : Z.abs z ≤ 2 ^ 53 → JSNumber.round z = z.
Proof.
  intros Hz. unfold JSNumber.round.
  destruct (Z.leb_spec (Z.log2 (Z.abs z) - 52) 0) as [|Hgt]; [reflexivity|].
  assert (Ha : Z.abs z = 2 ^ 53).
  { apply Z.le_antisymm; [exact Hz|].
    destruct (Z.lt_ge_cases (Z.abs z) (2 ^ 53)) as [Hlt|]; [|assumption].
    assert (0 < Z.abs z).
    { destruct (Z.eq_dec (Z.abs z) 0) as [H0|]; [|lia].
      rewrite H0 in Hgt. cbn in Hgt. lia. }
    apply Z.log2_lt_pow2 in Hlt; lia. }
  destruct (Z.abs_eq_or_opp z) as [Hz'|Hz']; rewrite Hz' in Ha.
  - rewrite Ha. vm_compute. reflexivity.
  - assert (z = - 2 ^ 53) as -> by lia. vm_compute. reflexivity.
Qed.

Lemma JSNumber_add_safe x :
  JSNumber.isSafeInteger x → JSNumber.add x 1 = x + 1.
Proof.
  intros [Hlo Hhi]. unfold JSNumber.MAX_SAFE_INTEGER in *.
  apply JSNumber_round_exact. lia.
Qed.

Lemma maxNonce_safe (pending : list SignedMessage.t) largest :
  Forall (λ p, JSNumber.isSafeInteger (Message.nonce (SignedMessage.message p)))
    pending →
  maxNonce pending = Some largest → JSNumber.isSafeInteger largest.
Proof.
  destruct pending as [|p l]; [discriminate|].
  intros Hall [= <-]. apply Forall_cons in Hall as (Hp & Hl).
  induction Hl as [|q l Hq _ IH]; cbn [foldr]; [exact Hp|].
  unfold JSNumber.isSafeInteger in *. lia.
Qed.

Lemma assignedNonce_max account (pending : list SignedMessage.t) :
  JSNumber.isSafeInteger (Account.nonce account) →
  Forall (λ p, JSNumber.isSafeInteger (Message.nonce (SignedMessage.message p)))
    pending →
  assignedNonce account pending
  = match maxNonce pending with
    | None => Account.nonce account
    | Some largest => Z.max (Account.nonce account) largest + 1
    end.
Proof.
  intros Ha Hall. unfold assignedNonce.
  destruct pending as [|p l] eqn:Hp; [reflexivity|]. rewrite <- Hp in *.
  assert ((length pending =? 0)%nat = false) as -> by (rewrite Hp; reflexivity).
  rewrite fold_left_max_nonce.
  destruct (maxNonce pending) as [largest|] eqn:Hmax;
    [|rewrite Hp in Hmax; discriminate].
  pose proof (maxNonce_safe _ _ Hall Hmax) as Hl.
  apply JSNumber_add_safe. unfold JSNumber.isSafeInteger in *. lia.
Qed.

Lemma fold_left_balance (l : list SignedMessage.t) (a : Z) :
  fold_left
    (λ balanceSpent m,
       balanceSpent
       + Message.gasFeeCap (SignedMessage.message m)
         * Message.gasLimit (SignedMessage.message m)
       + Message.value (SignedMessage.message m)) l a
  = a + sumOver (λ p, messageBalanceRequired (SignedMessage.message p)) l.
Proof.
  revert a. induction l as [|p l IH]; intros a; simpl; [lia|].
  rewrite IH. unfold messageBalanceRequired. lia.
Qed.

Lemma pendingBalanceRequired_sum (pending : list SignedMessage.t) :
  pendingBalanceRequired pending
  = sumOver (λ p, messageBalanceRequired (SignedMessage.message p)) pending.
Proof. unfold pendingBalanceRequired. rewrite fold_left_balance. lia. Qed.

(** What [push] does once the four checks have passed, the pool lock is
    free and the funds are short. *)
Lemma push_short_of_funds message spec b account am :
  validated message →
  messagePoolLock b ≠ 0%nat →
  let message' := fillGasInformation message spec in
  let pending := pendingMessagesFor (Message.from message') (messagePool b) in
  getAccount (accountManager b) (Message.from message') = (account, am) →
  Account.balance account
    < messageBalanceRequired message' + pendingBalanceRequired pending →
  push message spec b
  = (setAccountManager am b,
     Throw (InsufficientFunds
              (Account.balance account - pendingBalanceRequired pending)
              (messageBalanceRequired message'))).
Proof.
  intros (Hm & Hn & Hf & Ht) Hl message' pending Hacc Hlt. unfold push.
  rewrite Hm, Hn, Hf, Ht. simpl. unfold pushLocked. run.
  destruct (messagePoolLock b) as [|n] eqn:Hn'; [congruence|]. simpl.
  fold message'. rewrite Hacc. simpl. fold pending.
  apply Z.ltb_lt in Hlt. unfold messageBalanceRequired in *. simpl.
  rewrite Hlt. simpl. unfold setAccountManager, setLock. simpl.
  rewrite Hn'. reflexivity.
Qed.

(** Any failed check leaves the object as it was. *)
Lemma push_not_validated message spec b :
  ¬ validated message →
  ∃ e, push message spec b = (b, Throw e) ∧
       match e with
       | UnsupportedMethod _ | InvalidNonce _ | InvalidProtocol _ => True
       | _ => False
       end.
Proof.
  intros Hnv. unfold push.
  destruct (Message.method message =? 0) eqn:Hm; simpl;
    [|eexists; split; [reflexivity|exact I]].
  destruct (Message.nonce message =? 0) eqn:Hn; simpl;
    [|eexists; split; [reflexivity|exact I]].
  destruct (invalidProtocol (parseProtocol (Message.from message))) eqn:Hf;
    [eexists; split; [reflexivity|exact I]|].
  destruct (invalidProtocol (parseProtocol (Message.to message))) eqn:Ht;
    [eexists; split; [reflexivity|exact I]|].
  exfalso. apply Hnv. repeat split; auto; lia.
Qed.


(** C1 (as amended).  A call of [push] that passes validation and finds
    the pool lock free, with [account.nonce] and the pending nonces of the
    sender safe integers, assigns the nonce before it checks the funds:
    [account.nonce] when no message of the sender is pending, otherwise
    the larger of [account.nonce] and the largest pending nonce, plus one.
    That is the largest pending nonce plus one whenever the largest
    pending nonce is not below [account.nonce].  The message with that
    nonce is the one whose funds are checked, the one that is signed and
    checked, and the one that a returning call appends to the pool and
    returns. *)
Theorem push_assigns_nonce message spec b :
  validated message →
  messagePoolLock b ≠ 0%nat →
  let message' := fillGasInformation message spec in
  let account := (getAccount (accountManager b) (Message.from message')).1 in
  let pending := pendingMessagesFor (Message.from message') (messagePool b) in
  JSNumber.isSafeInteger (Account.nonce account) →
  Forall (λ p, JSNumber.isSafeInteger (Message.nonce (SignedMessage.message p)))
    pending →
  let nonce :=
    match maxNonce pending with
    | None => Account.nonce account
    | Some largest => Z.max (Account.nonce account) largest + 1
    end in
  let assigned := Message.setNonce nonce message' in
  let b1 :=
    setAccountManager
      (getAccount (accountManager b) (Message.from message')).2 b in
  ((∀ largest, maxNonce pending = Some largest → Account.nonce account ≤ largest) →
   nonce = specNonce account pending) ∧
  push message spec b
  = if Account.balance account
       <? messageBalanceRequired assigned + pendingBalanceRequired pending
    then
      (b1, Throw (InsufficientFunds
                    (Account.balance account - pendingBalanceRequired pending)
                    (messageBalanceRequired assigned)))
    else
      match signMessage (Account.address account) assigned with
      | inl e => (b1, Throw e)
      | inr signature =>
        let signedMessage :=
          SignedMessage.mk assigned (Signature.mk SigTypeBLS signature) in
        match checkMessage signedMessage with
        | Some e => (b1, Throw e)
        | None =>
          (setScheduledMines
             (if blockTime b =? 0 then S (scheduledMines b)
              else scheduledMines b)
             (setMessagePool (messagePool b ++ [signedMessage]) b1),
           Return signedMessage)
        end
      end.
Proof.
  intros (Hm & Hn & Hf & Ht) Hl message' account pending Hsafe Hall nonce
    assigned b1.
  split.
  { intros Hle. subst nonce. unfold specNonce.
    destruct (maxNonce pending) as [largest|]; [|reflexivity].
    specialize (Hle _ eq_refl). lia. }
  unfold push. rewrite Hm, Hn, Hf, Ht. cbn [Z.eqb negb].
  fold message'. unfold pushLocked. step.
  destruct (messagePoolLock b) as [|j] eqn:Hj; [done|]. fields.
  subst b1 assigned nonce account.
  destruct (getAccount (accountManager b) (Message.from message'))
    as [account am] eqn:Hacc. fields. fold pending.
  cbn [fst] in Hsafe. rewrite (assignedNonce_max account pending Hsafe Hall).
  match goal with |- context [if ?c then _ else _] => destruct c end.
  { fields. rewrite <- Hj. destruct b; reflexivity. }
  destruct (signMessage _ _) as [e|signature]; fields.
  { rewrite <- Hj. destruct b; reflexivity. }
  unfold pushSigned. cbv zeta.
  destruct (checkMessage _) as [error|]; step.
  { rewrite <- Hj. destruct b; reflexivity. }
  destruct (blockTime b =? 0); fields; rewrite <- Hj; reflexivity.
Qed.

(** C3.  The balance required by the new message, [gasFeeCap × gasLimit +
    value], is added to the sum of the same quantity over the pending
    messages of the sender.  When the balance of the account is below that
    total (and the pool lock is free, so that the call can run), [push]
    throws, the pool is as before, the lock is free again and no mining is
    scheduled; for a message that passes validation the error is
    InsufficientFunds. *)
Theorem push_insufficient_funds message spec b :
  let message' := fillGasInformation message spec in
  let account := (getAccount (accountManager b) (Message.from message')).1 in
  let pending := pendingMessagesFor (Message.from message') (messagePool b) in
  let required :=
    Message.gasFeeCap message' * Message.gasLimit message' + Message.value message' in
  let pendingRequired :=
    sumOver (λ p, Message.gasFeeCap (SignedMessage.message p)
                  * Message.gasLimit (SignedMessage.message p)
                  + Message.value (SignedMessage.message p)) pending in
  messagePoolLock b ≠ 0%nat →
  Account.balance account < required + pendingRequired →
  ∃ b' e,
    push message spec b = (b', Throw e) ∧
    messagePool b' = messagePool b ∧
    messagePoolLock b' = messagePoolLock b ∧
    scheduledMines b' = scheduledMines b ∧
    (validated message →
     e = InsufficientFunds (Account.balance account - pendingRequired) required).
Proof.
  intros message' account pending required pendingRequired Hl Hlt.
  destruct (decide (validated message)) as [Hv|Hnv].
  - destruct (getAccount (accountManager b) (Message.from message'))
      as [acc am] eqn:Hacc.
    subst account. simpl in Hlt |- *.
    assert (Hp : pendingBalanceRequired pending = pendingRequired)
      by apply pendingBalanceRequired_sum.
    rewrite (push_short_of_funds message spec b acc am Hv Hl Hacc).
    + eexists _, _. split; [reflexivity|]. simpl.
      repeat split. intros _. fold message' pending. rewrite Hp. reflexivity.
    + fold message' pending. rewrite Hp. exact Hlt.
  - destruct (push_not_validated message spec b Hnv) as (e & He & _).
    exists b, e. repeat split; auto. intros Hv. contradiction.
Qed.

(** C6.  [push] checks the method, then the nonce, then the protocol of
    the sender, then the protocol of the receiver; the first check that
    fails decides the error, and the object (the pool included) is left
    as it was. *)
Theorem push_validation_errors message spec b :
  (Message.method message ≠ 0 →
   push message spec b = (b, Throw (UnsupportedMethod (Message.method message)))) ∧
  (Message.method message = 0 → Message.nonce message ≠ 0 →
   push message spec b = (b, Throw (InvalidNonce (Message.nonce message)))) ∧
  (Message.method message = 0 → Message.nonce message = 0 →
   parseProtocol (Message.from message) = ID
   ∨ parseProtocol (Message.from message) = Unknown →
   push message spec b = (b, Throw (InvalidProtocol "From"))) ∧
  (Message.method message = 0 → Message.nonce message = 0 →
   invalidProtocol (parseProtocol (Message.from message)) = false →
   parseProtocol (Message.to message) = ID
   ∨ parseProtocol (Message.to message) = Unknown →
   push message spec b = (b, Throw (InvalidProtocol "To"))) ∧
  (Message.method message ≠ 0 ∨ Message.nonce message ≠ 0
   ∨ (parseProtocol (Message.from message) = ID
      ∨ parseProtocol (Message.from message) = Unknown)
   ∨ (parseProtocol (Message.to message) = ID
      ∨ parseProtocol (Message.to message) = Unknown) →
   ∃ e, push message spec b = (b, Throw e) ∧
        match e with
        | UnsupportedMethod _ | InvalidNonce _ | InvalidProtocol _ => True
        | _ => False
        end).
Proof.
  assert (Hinv : ∀ p, p = ID ∨ p = Unknown → invalidProtocol p = true).
  { intros p [-> | ->]; reflexivity. }
  unfold push. repeat split.
  - intros Hm. apply Z.eqb_neq in Hm. rewrite Hm. reflexivity.
  - intros -> Hn. apply Z.eqb_neq in Hn. rewrite Hn. reflexivity.
  - intros -> -> Hf. rewrite (Hinv _ Hf). reflexivity.
  - intros -> -> Hf Ht. rewrite Hf, (Hinv _ Ht). reflexivity.
  - intros H. apply push_not_validated. intros (Hm & Hn & Hf & Ht).
    destruct H as [H | [H | [H | H]]]; try contradiction.
    + rewrite (Hinv _ H) in Hf. discriminate.
    + rewrite (Hinv _ H) in Ht. discriminate.
Qed.

(** C9.  The signed message that [push] returns, and appends to the pool,
    carries the signature type BLS, whatever the protocol of the sender
    (SECP256K1 included). *)
Theorem push_signature_type message spec b b' sm :
  push message spec b = (b', Return sm) →
  Signature.type (SignedMessage.signature sm) = SigTypeBLS ∧
  messagePool b' = messagePool b ++ [sm].
Proof.
  intros H.
  destruct (push_inv _ _ _ _ _ H)
    as (_ & n & acc & am & sig & _ & _ & _ & Hsm & Hp & _).
  split; [subst sm; reflexivity | exact Hp].
Qed.

End PushProperties.

(** A run is determined by its final state and its outcome. *)
Lemma run_outcome {E : Env} {A} (m : M A) (b : Blockchain) (o : Outcome A) :
  (m b).2 = o → m b = ((m b).1, o).
Proof. intros <-. destruct (m b); reflexivity. Qed.

(** The amended C1 at the engine [Sim.staleNonce]: committed nonce 2, one
    pending message with nonce 0; the new message gets nonce 3 and is
    returned. *)
Lemma push_assigns_nonce_witness :
  (push (E := Sim.env 0) (Sim.transfer "t3a" "t3b" 1 0) Sim.noSpec
     Sim.staleNonce).2
  = Return (Sim.signed (Sim.transfer "t3a" "t3b" 1 (Z.max 2 0 + 1))).
Proof.
  destruct (push_assigns_nonce (E := Sim.env 0) (Sim.transfer "t3a" "t3b" 1 0)
              Sim.noSpec Sim.staleNonce) as (_ & Hrun).
  - vm_compute. repeat split.
  - vm_compute. discriminate.
  - vm_compute. split; discriminate.
  - repeat constructor; vm_compute; discriminate.
  - rewrite Hrun. vm_compute. reflexivity.
Defined.

(** Beyond the safe integers the addition rounds: with a pending nonce of
    2^53 the nonce that is assigned is 2^53 again. *)
Example assignedNonce_rounds :
  assignedNonce (Sim.account "t3a" 100 0)
    [Sim.signed (Sim.transfer "t3a" "t3b" 1 (2 ^ 53))]
  = 2 ^ 53.
Proof. vm_compute. reflexivity. Qed.

(** C1 as stated fails at [Sim.staleNonce]: the pending messages of the
    sender have largest nonce 0, so the claim asks for nonce 1, and
    [push] returns a message with nonce 3. *)
Lemma push_nonce_counterexample :
  (push (E := Sim.env 0) (Sim.transfer "t3a" "t3b" 1 0) Sim.noSpec
     Sim.staleNonce).2
  = Return (Sim.signed (Sim.transfer "t3a" "t3b" 1 3)) ∧
  validated (E := Sim.env 0) (Sim.transfer "t3a" "t3b" 1 0) ∧
  pendingMessagesFor "t3a" (messagePool Sim.staleNonce)
  = [Sim.signed (Sim.transfer "t3a" "t3b" 1 0)] ∧
  specNonce
    (getAccount (Env := Sim.env 0) (accountManager Sim.staleNonce) "t3a").1
    (pendingMessagesFor "t3a" (messagePool Sim.staleNonce)) = 1 ∧
  Message.nonce
    (SignedMessage.message (Sim.signed (Sim.transfer "t3a" "t3b" 1 3)))
  ≠ specNonce
      (getAccount (Env := Sim.env 0) (accountManager Sim.staleNonce) "t3a").1
      (pendingMessagesFor "t3a" (messagePool Sim.staleNonce)).
Proof.
  split; [vm_compute; reflexivity|].
  split; [vm_compute; repeat split|].
  split; [vm_compute; reflexivity|].
  split; [vm_compute; reflexivity|].
  vm_compute. discriminate.
Qed.

(** C3 at [Sim.poorSender]: balance 5, one pending message that needs 2,
    and a new message that needs 11. *)
Lemma push_insufficient_funds_witness :
  ∃ b' e,
    push (E := Sim.env 0) (Sim.transfer "t3a" "t3b" 10 0) Sim.noSpec
      Sim.poorSender = (b', Throw e) ∧
    messagePool b' = messagePool Sim.poorSender ∧
    e = InsufficientFunds 3 11.
Proof.
  destruct (push_insufficient_funds (E := Sim.env 0)
              (Sim.transfer "t3a" "t3b" 10 0) Sim.noSpec Sim.poorSender)
    as (b' & e & Hrun & Hpool & _ & _ & He).
  - vm_compute. discriminate.
  - vm_compute. reflexivity.
  - exists b', e. split; [exact Hrun|]. split; [exact Hpool|].
    rewrite He; [vm_compute; reflexivity | vm_compute; repeat split].
Defined.

(** C6 at scenario S3 of the specification: a message with method 2. *)
Lemma push_validation_errors_witness :
  push (E := Sim.env 0) (Message.mk "t3b" "t3a" 0 10 1 1 0 2) Sim.noSpec
    Sim.twoAccounts
  = (Sim.twoAccounts, Throw (UnsupportedMethod 2)).
Proof.
  destruct (push_validation_errors (E := Sim.env 0)
              (Message.mk "t3b" "t3a" 0 10 1 1 0 2) Sim.noSpec Sim.twoAccounts)
    as (H & _).
  apply H. simpl. discriminate.
Defined.

(** C9 for a sender with a SECP256K1 address. *)
Lemma push_signature_type_witness :
  parseProtocol (Env := Sim.env 0) "t1a" = SECP256K1 ∧
  Signature.type
    (SignedMessage.signature (Sim.signed (Sim.transfer "t1a" "t3b" 10 0)))
  = SigTypeBLS.
Proof.
  split; [reflexivity|].
  assert (Hrun : (push (E := Sim.env 0) (Sim.transfer "t1a" "t3b" 10 0)
                    Sim.noSpec Sim.secpSender).2
                 = Return (Sim.signed (Sim.transfer "t1a" "t3b" 10 0)))
    by (vm_compute; reflexivity).
  exact (proj1 (push_signature_type (E := Sim.env 0) _ _ _ _ _
                  (run_outcome _ _ _ Hrun))).
Defined.

(** * Properties of [mineTipset] *)

Section MiningProperties.
Context {E : Env}.

Lemma applyMessage_cases successful m b :
  let message := SignedMessage.message m in
  let from := Message.from message in
  let fee := getMinerFee message in
  let burn := negb (getBaseFee =? 0) in
  let r0 := if burn then transferFunds (accountManager b) from BurntFundsAddress fee
            else (true, accountManager b) in
  let r1 := transferFunds r0.2 from miner fee in
  let r2 := transferFunds r1.2 from (Message.to message) (Message.value message) in
  let burnt := if burn then [TransferFunds from BurntFundsAddress fee true] else [] in
  ∃ am' events successful',
    applyMessage successful m b
    = (setTrace (trace b ++ events) (setAccountManager am' b), Return successful') ∧
    if negb r0.1 then
      events = [TransferFunds from BurntFundsAddress fee false;
                ConsoleWarn (CouldNotBurnBaseFee getBaseFee from
                               (Account.balance (getAccount r0.2 from).1))] ∧
      am' = (getAccount r0.2 from).2 ∧ successful' = successful
    else if negb r1.1 then
      events = burnt ++
               [TransferFunds from miner fee false;
                ConsoleWarn (CouldNotTransferMiningFees fee from
                               (Account.balance (getAccount r1.2 from).1))] ∧
      am' = (getAccount r1.2 from).2 ∧ successful' = successful
    else if negb r2.1 then
      events = burnt ++
               [TransferFunds from miner fee true;
                TransferFunds from (Message.to message) (Message.value message) false;
                ConsoleWarn (CouldNotTransfer (Message.value message) from
                               (Message.to message)
                               (Account.balance (getAccount r2.2 from).1))] ∧
      am' = (getAccount r2.2 from).2 ∧ successful' = successful
    else
      events = burnt ++
               [TransferFunds from miner fee true;
                TransferFunds from (Message.to message) (Message.value message) true;
                IncrementNonce from] ∧
      am' = incrementNonce r2.2 from ∧ successful' = successful ++ [m].
Proof.
  intros message from fee burn r0 r1 r2 burnt.
  unfold applyMessage, warnLackOfFunds. fold message from fee.
  subst burnt r2 r1 r0 burn.
  destruct (getBaseFee =? 0) eqn:Hbase; simpl.
  - run.
    destruct (transferFunds (accountManager b) from miner fee) as [ok1 am1] eqn:H1.
    simpl. destruct ok1; simpl.
    + destruct (transferFunds am1 from (Message.to message) (Message.value message))
        as [ok2 am2] eqn:H2.
      simpl. destruct ok2; simpl.
      * eexists _, _, _. split; [|repeat split].
        fields. rewrite <- !app_assoc. reflexivity.
      * destruct (getAccount am2 from) as [acc am3] eqn:H3. simpl.
        eexists _, _, _. split; [|repeat split].
        fields. rewrite <- !app_assoc. reflexivity.
    + destruct (getAccount am1 from) as [acc am3] eqn:H3. simpl.
      eexists _, _, _. split; [|repeat split].
      fields. rewrite <- !app_assoc. reflexivity.
  - run.
    destruct (transferFunds (accountManager b) from BurntFundsAddress fee)
      as [ok0 am0] eqn:H0.
    simpl. destruct ok0; simpl.
    + destruct (transferFunds am0 from miner fee) as [ok1 am1] eqn:H1.
      simpl. destruct ok1; simpl.
      * destruct (transferFunds am1 from (Message.to message) (Message.value message))
          as [ok2 am2] eqn:H2.
        simpl. destruct ok2; simpl.
        -- eexists _, _, _. split; [|repeat split].
           fields. rewrite <- !app_assoc. reflexivity.
        -- destruct (getAccount am2 from) as [acc am3] eqn:H3. simpl.
           eexists _, _, _. split; [|repeat split].
           fields. rewrite <- !app_assoc. reflexivity.
      * destruct (getAccount am1 from) as [acc am3] eqn:H3. simpl.
        eexists _, _, _. split; [|repeat split].
        fields. rewrite <- !app_assoc. reflexivity.
    + destruct (getAccount am0 from) as [acc am3] eqn:H3. simpl.
      eexists _, _, _. split; [|repeat split].
      fields. rewrite <- !app_assoc. reflexivity.
Qed.

(** A message either joins the successful ones without a warning, or is
    skipped with exactly one warning. *)
Lemma applyMessage_outcome successful m b :
  ∃ am' events successful',
    applyMessage successful m b
    = (setTrace (trace b ++ events) (setAccountManager am' b), Return successful') ∧
    emittedHeights events = [] ∧
    ((successful' = successful ++ [m] ∧ warnings events = 0%nat) ∨
     (successful' = successful ∧ warnings events = 1%nat)).
Proof.
  destruct (applyMessage_cases successful m b) as (am' & events & s' & Hrun & Hc).
  exists am', events, s'. split; [exact Hrun|]. clear Hrun.
  simpl in Hc. unfold warnings, emittedHeights.
  repeat match type of Hc with
         | if ?c then _ else _ => destruct c
         end;
    destruct Hc as (-> & _ & ->);
    rewrite ?List.filter_app, ?List.flat_map_app;
    destruct (getBaseFee =? 0); simpl; auto.
Qed.

Lemma applyMessages_run batch : ∀ successful b,
  ∃ am' events added,
    applyMessages batch successful b
    = (setTrace (trace b ++ events) (setAccountManager am' b),
       Return (successful ++ added)) ∧
    sublist added batch ∧
    (length added + warnings events = length batch)%nat ∧
    emittedHeights events = [] ∧
    (batch = [] → am' = accountManager b ∧ events = []).
Proof.
  induction batch as [|m batch IH]; intros successful b.
  - exists (accountManager b), [], []. cbn [applyMessages]. unfold ret.
    rewrite !app_nil_r. destruct b; fields. repeat split. constructor.
  - destruct (applyMessage_outcome successful m b)
      as (am1 & ev1 & s1 & Hrun & He1 & Hc).
    destruct (IH s1 (setTrace (trace b ++ ev1) (setAccountManager am1 b)))
      as (am2 & ev2 & added & Hrest & Hsub & Hlen & He2 & _).
    cbn [applyMessages]. unfold bind at 1. rewrite Hrun. rewrite Hrest. fields.
    exists am2, (ev1 ++ ev2).
    assert (He : emittedHeights (ev1 ++ ev2) = []).
    { unfold emittedHeights in *. rewrite List.flat_map_app, He1, He2. reflexivity. }
    destruct Hc as [[-> Hw] | [-> Hw]].
    + exists (m :: added). rewrite <- !app_assoc. split; [reflexivity|].
      split; [by constructor|].
      unfold warnings in *. rewrite List.filter_app, length_app.
      cbn [length]. split; [lia|]. split; [exact He | discriminate].
    + exists added. rewrite <- !app_assoc. split; [reflexivity|].
      split; [by constructor|].
      unfold warnings in *. rewrite List.filter_app, length_app.
      cbn [length]. split; [lia|]. split; [exact He | discriminate].
Qed.

Lemma newBlockHeaders_run n previousTipset h block0 : ∀ newBlocks b,
  Tipset.blocks previousTipset !! 0%nat = Some block0 →
  newBlockHeaders n previousTipset h newBlocks b
  = (b, Return (newBlocks ++
                replicate n
                  (BlockHeader.new miner [RootCID.mk (blockCid block0)] h
                     (ElectionProof.winCount (BlockHeader.electionProof block0)
                      + BlockHeader.parentWeight block0)))).
Proof.
  induction n as [|n IH]; intros newBlocks b Hb.
  - simpl. rewrite app_nil_r. reflexivity.
  - cbn [newBlockHeaders]. unfold cids. rewrite list_lookup_fmap, Hb.
    cbn [fmap option_fmap option_map].
    rewrite IH by exact Hb. rewrite <- app_assoc. reflexivity.
Qed.

Lemma mineTipset_run n b i j block0 am' events added :
  miningLock b = S i → messagePoolLock b = S j →
  Tipset.blocks (latest b) !! 0%nat = Some block0 →
  applyMessages (messagePool b) []
    (setMessagePool [] (setLock MiningLock i b))
  = (setTrace (trace b ++ events)
       (setAccountManager am' (setMessagePool [] (setLock MiningLock i b))),
     Return added) →
  let h := Tipset.height (latest b) + 1 in
  let header :=
    BlockHeader.new miner [RootCID.mk (blockCid block0)] h
      (ElectionProof.winCount (BlockHeader.electionProof block0)
       + BlockHeader.parentWeight block0) in
  let newTipset := Tipset.mk (replicate (S n) header) h in
  let advanced :=
    advanceDealsFrom (length (inProcessDeals b)) 0 (deals b) (inProcessDeals b) in
  let empty := match messagePool b with [] => true | _ => false end in
  mineTipset (S n) b
  = (mkBlockchain (blockTime b) (ipfsNode b)
       (if empty then accountManager b else am')
       newTipset (<[h := newTipset]> (tipsets b)) h
       (if empty then blockMessages b
        else <[CID.value (blockCid header) := added]> (blockMessages b))
       (S i) (S j) [] advanced.1 (dealsByCid b) advanced.2 (files b) (dirs b)
       (scheduledMines b)
       ((if empty then trace b else trace b ++ events)
        ++ [LoggerLog (CID.value (blockCid header)) h; EmitTipset newTipset]),
     Return tt).
Proof.
  intros Hi Hj Hb Happ h header newTipset advanced empty.
  destruct b as [bt node am lat ts key bm ml pl pool ds dbc ipd fl dr sm tr].
  fields. fields in Hi. fields in Hj. fields in Hb.
  unfold setMessagePool, setLock, setTrace, setAccountManager in Happ.
  fields in Happ.
  subst ml pl. fields in advanced. fields in empty. fields in h.
  unfold mineTipset. step.
  rewrite (newBlockHeaders_run _ _ _ block0) by exact Hb.
  cbn [app]. fold h header. fold newTipset.
  destruct pool as [|m pool'].
  - cbn [length Nat.ltb Nat.leb]. step. unfold putTipset, advanceDeals, logLatestTipset. step.
    fold advanced. destruct advanced as [deals' inProcess']. fields.
    unfold cids. subst newTipset. cbn [Tipset.blocks Tipset.height replicate fmap list_fmap lookup list_lookup RootCID.root].
    step. subst empty. cbv iota. rewrite <- ?app_assoc. reflexivity.
  - cbn [length Nat.ltb Nat.leb]. step.
    rewrite Happ. unfold putBlockMessages. cbn [replicate lookup list_lookup]. step.
    unfold putTipset, advanceDeals, logLatestTipset. step.
    fold advanced. destruct advanced as [deals' inProcess']. fields.
    unfold cids. subst newTipset. cbn [Tipset.blocks Tipset.height replicate fmap list_fmap lookup list_lookup RootCID.root].
    step. subst empty. cbv iota. rewrite <- ?app_assoc. reflexivity.
Qed.


(** A call that returns has found both locks free, made at least one
    block, and read the first block of the latest tipset. *)
Lemma mineTipset_inv n b b' :
  mineTipset n b = (b', Return tt) →
  ∃ k i j block0,
    n = S k ∧ miningLock b = S i ∧ messagePoolLock b = S j ∧
    Tipset.blocks (latest b) !! 0%nat = Some block0.
Proof.
  destruct b as [bt node am lat ts key bm ml pl pool ds dbc ipd fl dr sm tr].
  unfold mineTipset. step.
  destruct ml as [|i]; [discriminate|]. step.
  destruct pl as [|j]; [discriminate|]. step.
  destruct n as [|k].
  - cbn [newBlockHeaders]. step.
    destruct pool as [|m pool'].
    + cbn [length Nat.ltb Nat.leb]. step.
      unfold putTipset, advanceDeals, logLatestTipset. step.
      destruct (advanceDealsFrom _ _ _ _) as [deals' inProcess']. step.
      unfold cids. cbn [Tipset.blocks fmap list_fmap lookup list_lookup]. step.
      discriminate.
    + cbn [length Nat.ltb Nat.leb]. step.
      match goal with
      | |- context [applyMessages ?l ?s ?b0] =>
        destruct (applyMessages_run l s b0) as (am' & ev & added & -> & _)
      end.
      unfold putBlockMessages. cbn [lookup list_lookup]. step. discriminate.
  - destruct (Tipset.blocks lat !! 0%nat) as [block0|] eqn:Hb.
    + intros _. exists k, i, j, block0. auto.
    + cbn [newBlockHeaders]. rewrite Hb. step. discriminate.
Qed.


(** One round of mining on a ready engine. *)
Lemma mineTipset_step n b :
  ready b →
  ∃ b',
    mineTipset (S n) b = (b', Return tt) ∧
    ready b' ∧
    Tipset.height (latest b') = Tipset.height (latest b) + 1 ∧
    length (Tipset.blocks (latest b')) = S n ∧
    tipsets b' = <[Tipset.height (latest b') := latest b']> (tipsets b) ∧
    latestTipsetKey b' = Tipset.height (latest b') ∧
    messagePool b' = [] ∧
    miningLock b' = miningLock b ∧ messagePoolLock b' = messagePoolLock b ∧
    emittedHeights (trace b')
    = emittedHeights (trace b) ++ [Tipset.height (latest b) + 1] ∧
    (messagePool b = [] →
     blockMessages b' = blockMessages b ∧ accountManager b' = accountManager b ∧
     ∃ cid, trace b'
            = trace b ++ [LoggerLog cid (Tipset.height (latest b'));
                          EmitTipset (latest b')]).
Proof.
  intros (Hm & Hp & Hb).
  destruct (miningLock b) as [|i] eqn:Hi; [done|].
  destruct (messagePoolLock b) as [|j] eqn:Hj; [done|].
  destruct (Tipset.blocks (latest b)) as [|block0 blocks] eqn:Hblocks; [done|].
  destruct (applyMessages_run (messagePool b) []
              (setMessagePool [] (setLock MiningLock i b)))
    as (am' & events & added & Hrun & _ & _ & Hem & Hnil).
  fields in Hrun. cbn [app] in Hrun.
  eexists. split.
  { apply (mineTipset_run n b i j block0 am' events added Hi Hj); [|exact Hrun].
    rewrite Hblocks. reflexivity. }
  fields. cbn [Tipset.blocks Tipset.height replicate length].
  rewrite length_replicate.
  split; [repeat split; done|].
  do 7 (split; [reflexivity|]).
  split.
  - unfold emittedHeights in *.
    destruct (messagePool b); rewrite ?List.flat_map_app, ?Hem; cbn;
      rewrite ?app_nil_r; reflexivity.
  - intros ->. repeat split. eexists. reflexivity.
Qed.


(** The loop body against the plan of transfers. *)
Lemma applyMessage_attempt successful m b :
  let from := Message.from (SignedMessage.message m) in
  ∃ am' events successful',
    applyMessage successful m b
    = (setTrace (trace b ++ events) (setAccountManager am' b), Return successful') ∧
    let '(am1, calls, all) := attempt from (transferSteps m) (accountManager b) in
    if all then
      events = calls ++ [IncrementNonce from] ∧
      am' = incrementNonce am1 from ∧
      successful' = successful ++ [m]
    else
      (∃ w, events = calls ++ [ConsoleWarn w]) ∧
      am' = (getAccount am1 from).2 ∧
      successful' = successful.
Proof.
  intros from.
  destruct (applyMessage_cases successful m b) as (am' & events & s' & Hrun & Hc).
  exists am', events, s'. split; [exact Hrun|]. clear Hrun.
  unfold transferSteps. fold from. cbn zeta in Hc. fold from in Hc.
  destruct (getBaseFee =? 0) eqn:Hbase; cbn [negb app attempt] in Hc |- *.
  - cbn [fst snd] in Hc.
    destruct (transferFunds (accountManager b) from miner _) as [[] am1];
      cbn [fst snd negb] in Hc |- *.
    + destruct (transferFunds am1 from _ _) as [[] am2];
        cbn [fst snd negb] in Hc |- *;
        destruct Hc as (-> & -> & ->); repeat split; eauto.
    + destruct Hc as (-> & -> & ->); repeat split; eauto.
  - destruct (transferFunds (accountManager b) from BurntFundsAddress _)
      as [[] am0]; cbn [fst snd negb] in Hc |- *.
    + destruct (transferFunds am0 from miner _) as [[] am1];
        cbn [fst snd negb] in Hc |- *.
      * destruct (transferFunds am1 from _ _) as [[] am2];
          cbn [fst snd negb] in Hc |- *;
          destruct Hc as (-> & -> & ->); repeat split; eauto.
      * destruct Hc as (-> & -> & ->); repeat split; eauto.
    + destruct Hc as (-> & -> & ->); repeat split; eauto.
Qed.


(** C2 (as amended).  For a message of the batch the transfers of
    [transferSteps] are attempted in order from the sender: the burn to
    BurntFundsAddress only when the base fee is not zero, then the miner
    fee to the miner, then the value to the recipient, each one only if
    the ones before it succeeded.  When all succeed the nonce of the
    sender is incremented and the message joins the successful ones.
    When one fails a warning is logged, nothing else is done for the
    message (the earlier transfers stay in the ledger, the nonce is not
    incremented), and the loop goes on: out of a batch every message is
    either successful or warned about, and the successful ones keep
    their order. *)
Theorem mineTipset_absorbs_transfer_failures :
  (∀ successful m b,
     let from := Message.from (SignedMessage.message m) in
     ∃ am' events successful',
       applyMessage successful m b
       = (setTrace (trace b ++ events) (setAccountManager am' b),
          Return successful') ∧
       let '(am1, calls, all) :=
         attempt from (transferSteps m) (accountManager b) in
       if all then
         events = calls ++ [IncrementNonce from] ∧
         am' = incrementNonce am1 from ∧
         successful' = successful ++ [m]
       else
         (∃ w, events = calls ++ [ConsoleWarn w]) ∧
         am' = (getAccount am1 from).2 ∧
         successful' = successful) ∧
  (∀ batch successful b,
     ∃ am' events added,
       applyMessages batch successful b
       = (setTrace (trace b ++ events) (setAccountManager am' b),
          Return (successful ++ added)) ∧
       sublist added batch ∧
       (length added + warnings events = length batch)%nat).
Proof.
  split.
  - apply applyMessage_attempt.
  - intros batch successful b.
    destruct (applyMessages_run batch successful b)
      as (am' & events & added & Hrun & Hsub & Hlen & _).
    exists am', events, added. auto.
Qed.

(** C4.  A call [mineTipset(n)] that returns has made [n ≥ 1] block
    headers, all equal: miner "t01000", parents the one-element list
    [[latest.cids[0]]], height [latest.height + 1] and parentWeight
    [latest.blocks[0].electionProof.winCount + latest.blocks[0].parentWeight].
    The messages of the drained pool whose transfers all succeeded are
    stored as the block messages of the first new block; with an empty
    pool there are none and nothing is stored. *)
Theorem mineTipset_blocks n b b' :
  mineTipset n b = (b', Return tt) →
  ∃ block0 cid0,
    Tipset.blocks (latest b) !! 0%nat = Some block0 ∧
    cids (latest b) !! 0%nat = Some cid0 ∧
    let header :=
      BlockHeader.mk "t01000" [cid0] (Tipset.height (latest b) + 1)
        (ElectionProof.winCount (BlockHeader.electionProof block0)
         + BlockHeader.parentWeight block0)
        (ElectionProof.mk 1) in
    n ≠ 0%nat ∧
    Tipset.blocks (latest b') = replicate n header ∧
    Tipset.blocks (latest b') !! 0%nat = Some header ∧
    ∃ am' events successful,
      applyMessages (messagePool b) []
        (setMessagePool [] (setLock MiningLock (pred (miningLock b)) b))
      = (setTrace (trace b ++ events)
           (setAccountManager am'
              (setMessagePool [] (setLock MiningLock (pred (miningLock b)) b))),
         Return successful) ∧
      (messagePool b ≠ [] →
       blockMessages b'
       = <[CID.value (blockCid header) := successful]> (blockMessages b)) ∧
      (messagePool b = [] →
       successful = [] ∧ blockMessages b' = blockMessages b).
Proof.
  intros Hret.
  destruct (mineTipset_inv _ _ _ Hret) as (k & i & j & block0 & -> & Hi & Hj & Hb).
  destruct (applyMessages_run (messagePool b) []
              (setMessagePool [] (setLock MiningLock i b)))
    as (am' & events & added & Hrun & Hsub & _ & _ & _).
  fields in Hrun. cbn [app] in Hrun.
  rewrite (mineTipset_run k b i j block0 am' events added Hi Hj Hb Hrun) in Hret.
  injection Hret as <-. fields. cbn [Tipset.blocks].
  exists block0, (RootCID.mk (blockCid block0)).
  split; [exact Hb|].
  split; [unfold cids; rewrite list_lookup_fmap, Hb; reflexivity|].
  split; [discriminate|]. split; [reflexivity|]. split; [reflexivity|].
  exists am', events, added. rewrite Hi. cbn [pred]. split; [exact Hrun|].
  split.
  - destruct (messagePool b); [done|]. intros _. reflexivity.
  - intros Hnil. rewrite Hnil in Hsub |- *. split; [|reflexivity].
    apply sublist_nil_r in Hsub. exact Hsub.
Qed.

(** C7.  On a ready engine [mineTipset] returns whatever the pool holds.
    With an empty pool it still stores and emits a new tipset, one above
    the latest, and touches neither the ledger nor the block messages.
    Over successive calls the height of the latest tipset grows by one
    per call, and the emitted heights are [h + 1, h + 2, ...]. *)
Theorem mineTipset_heights b :
  ready b →
  (∀ n, n ≠ 0%nat → messagePool b = [] →
     ∃ b',
       mineTipset n b = (b', Return tt) ∧
       Tipset.height (latest b') = Tipset.height (latest b) + 1 ∧
       tipsets b' !! (Tipset.height (latest b) + 1) = Some (latest b') ∧
       latestTipsetKey b' = Tipset.height (latest b) + 1 ∧
       blockMessages b' = blockMessages b ∧
       accountManager b' = accountManager b ∧
       ∃ cid, trace b'
              = trace b ++ [LoggerLog cid (Tipset.height (latest b) + 1);
                            EmitTipset (latest b')]) ∧
  (∀ rounds, Forall (λ n, n ≠ 0%nat) rounds →
     ∃ b',
       mineTipsets rounds b = (b', Return tt) ∧
       ready b' ∧
       Tipset.height (latest b')
       = Tipset.height (latest b) + Z.of_nat (length rounds) ∧
       emittedHeights (trace b')
       = emittedHeights (trace b)
         ++ seqZ (Tipset.height (latest b) + 1) (Z.of_nat (length rounds))).
Proof.
  intros Hready. split.
  - intros [|n] Hn Hpool; [done|].
    destruct (mineTipset_step n b Hready)
      as (b' & Hrun & _ & Hh & _ & Hts & Hkey & _ & _ & _ & _ & Hnil).
    destruct (Hnil Hpool) as (Hbm & Ham & cid & Htr).
    exists b'. split; [exact Hrun|]. split; [exact Hh|].
    split; [rewrite Hts, <- Hh; apply lookup_insert_eq|].
    split; [congruence|]. split; [exact Hbm|]. split; [exact Ham|].
    exists cid. rewrite <- Hh. exact Htr.
  - intros rounds. revert b Hready.
    induction rounds as [|n rounds IH]; intros b Hready Hall.
    + exists b. cbn [mineTipsets length]. unfold ret.
      rewrite Z.add_0_r, app_nil_r. auto.
    + apply Forall_cons in Hall as [Hn Hall].
      destruct n as [|n]; [done|].
      destruct (mineTipset_step n b Hready)
        as (b1 & Hrun & Hready1 & Hh & _ & _ & _ & _ & _ & _ & Hem & _).
      destruct (IH b1 Hready1 Hall) as (b' & Hrest & Hready' & Hh' & Hem').
      exists b'. cbn [mineTipsets]. unfold bind at 1. rewrite Hrun.
      split; [exact Hrest|]. split; [exact Hready'|].
      split; [rewrite Hh', Hh; cbn [length]; lia|].
      rewrite Hem', Hem, Hh, <- app_assoc. f_equal.
      cbn [length]. rewrite Nat2Z.inj_succ.
      rewrite (seqZ_cons (Tipset.height (latest b) + 1)) by lia.
      rewrite Z.pred_succ. reflexivity.
Qed.

End MiningProperties.

(** Scenario S1: the sender pays the value and one fee, the nonce and
    the height go up by one. *)
Example scenario_S1 :
  Account.balance <$> (accountManager Sim.scenarioS1 !! "t3a") = Some 89 ∧
  Account.balance <$> (accountManager Sim.scenarioS1 !! "t3b") = Some 10 ∧
  Account.balance <$> (accountManager Sim.scenarioS1 !! "t01000") = Some 1 ∧
  Account.nonce <$> (accountManager Sim.scenarioS1 !! "t3a") = Some 1 ∧
  Tipset.height (latest Sim.scenarioS1) = 1.
Proof. repeat split; vm_compute; reflexivity. Qed.

(** Scenario S2: the pool holds the nonces 0, 1, 2 while the committed
    nonce is still 0; one tipset applies all three. *)
Example scenario_S2 :
  (λ m, Message.nonce (SignedMessage.message m)) <$> messagePool Sim.scenarioS2
  = [0; 1; 2] ∧
  Account.nonce <$> (accountManager Sim.scenarioS2 !! "t3a") = Some 0 ∧
  Account.nonce
    <$> (accountManager (mineTipset (E := Sim.env 0) 1 Sim.scenarioS2).1 !! "t3a")
  = Some 3.
Proof. repeat split; vm_compute; reflexivity. Qed.

(** With a base fee that is not zero the burn comes first. *)
Example mineTipset_burns_with_base_fee :
  transfers (trace (mineTipset (E := Sim.env 100) 1 Sim.onePendingWithBaseFee).1)
  = [TransferFunds "t3a" "t099" 1 true; TransferFunds "t3a" "t01000" 1 true;
     TransferFunds "t3a" "t3b" 10 true].
Proof. vm_compute. reflexivity. Qed.

(** C2 as stated fails where the base fee is zero: [mineTipset] applies
    the pending message of [Sim.onePending] with two transfers, and none
    of them goes to BurntFundsAddress. *)
Lemma mineTipset_burn_counterexample :
  getBaseFee (Env := Sim.env 0) = 0 ∧
  (mineTipset (E := Sim.env 0) 1 Sim.onePending).2 = Return tt ∧
  transfers (trace (mineTipset (E := Sim.env 0) 1 Sim.onePending).1)
  = [TransferFunds "t3a" "t01000" 1 true; TransferFunds "t3a" "t3b" 10 true] ∧
  ¬ ∃ amount successful,
      In (TransferFunds "t3a" BurntFundsAddress amount successful)
         (trace (mineTipset (E := Sim.env 0) 1 Sim.onePending).1).
Proof.
  split; [reflexivity|].
  split; [vm_compute; reflexivity|].
  split; [vm_compute; reflexivity|].
  intros (amount & successful & Hin). vm_compute in Hin.
  repeat (destruct Hin as [Hin | Hin]; [discriminate Hin|]). exact Hin.
Qed.

(** C4 at [Sim.onePending] with two new blocks. *)
Lemma mineTipset_blocks_witness :
  Tipset.blocks (latest (mineTipset (E := Sim.env 0) 2 Sim.onePending).1)
  = replicate 2
      (BlockHeader.mk "t01000" [RootCID.mk (CID.mk "block:0")] 1 1
         (ElectionProof.mk 1)) ∧
  blockMessages (mineTipset (E := Sim.env 0) 2 Sim.onePending).1 !! "block:1"
  = Some [Sim.signed (Sim.transfer "t3a" "t3b" 10 0)].
Proof.
  assert (Hrun : (mineTipset (E := Sim.env 0) 2 Sim.onePending).2 = Return tt)
    by (vm_compute; reflexivity).
  destruct (mineTipset_blocks (E := Sim.env 0) _ _ _ (run_outcome _ _ _ Hrun))
    as (block0 & cid0 & Hb & Hc & _ & Hblocks & _).
  vm_compute in Hb. injection Hb as <-.
  vm_compute in Hc. injection Hc as <-.
  split; [exact Hblocks | vm_compute; reflexivity].
Defined.

(** C7 at genesis: three rounds with an empty pool. *)
Lemma mineTipset_heights_witness :
  ∃ b',
    mineTipsets (E := Sim.env 0) [1; 2; 1]%nat Sim.twoAccounts = (b', Return tt) ∧
    Tipset.height (latest b') = 3 ∧
    emittedHeights (trace b') = [1; 2; 3].
Proof.
  assert (Hready : ready (E := Sim.env 0) Sim.twoAccounts)
    by (repeat split; discriminate).
  destruct (proj2 (mineTipset_heights (E := Sim.env 0) Sim.twoAccounts Hready)
              [1; 2; 1]%nat)
    as (b' & Hrun & _ & Hh & Hem).
  - repeat constructor; discriminate.
  - exists b'. split; [exact Hrun|]. split; [exact Hh | exact Hem].
Defined.

(** * Properties of the deal engine *)

Section DealProperties.
Context {E : Env}.

Lemma advanceDealsFrom_terms fuel : ∀ i deals inProcess,
  dealTerms <$> (advanceDealsFrom fuel i deals inProcess).1 = dealTerms <$> deals.
Proof.
  induction fuel as [|fuel IH]; intros i deals inProcess; [reflexivity|].
  cbn [advanceDealsFrom].
  destruct (inProcess !! i) as [deal|]; [|reflexivity].
  rewrite IH. apply list_eq. intros k.
  rewrite !list_lookup_fmap.
  destruct (decide (k = deal)) as [->|Hne].
  - rewrite list_lookup_alter_eq. destruct (deals !! deal); reflexivity.
  - rewrite list_lookup_alter_ne by done. reflexivity.
Qed.

(** Mining changes the state of deals only. *)
Lemma mineTipset_terms n b b' :
  mineTipset n b = (b', Return tt) →
  dealTerms <$> deals b' = dealTerms <$> deals b ∧
  blockTime b' = blockTime b.
Proof.
  intros Hret.
  destruct (mineTipset_inv _ _ _ Hret) as (k & i & j & block0 & -> & Hi & Hj & Hb).
  destruct (applyMessages_run (messagePool b) []
              (setMessagePool [] (setLock MiningLock i b)))
    as (am' & events & added & Hrun & _).
  fields in Hrun. cbn [app] in Hrun.
  rewrite (mineTipset_run k b i j block0 am' events added Hi Hj Hb Hrun) in Hret.
  injection Hret as <-. fields. split; [|reflexivity].
  apply advanceDealsFrom_terms.
Qed.

Lemma mineUntilActive_inv fuel deal : ∀ b b',
  mineUntilActive fuel deal b = (b', Return tt) →
  dealTerms <$> deals b' = dealTerms <$> deals b ∧
  blockTime b' = blockTime b ∧
  ∃ d, deals b' !! deal = Some d ∧ DealInfo.state d = Active.
Proof.
  induction fuel as [|fuel IH]; intros b b'; cbn [mineUntilActive]; step.
  - destruct (deals b !! deal) as [d|] eqn:Hd; [|discriminate].
    destruct (decide (DealInfo.state d = Active)) as [Ha|]; [|discriminate].
    intros [= <-]. eauto.
  - destruct (deals b !! deal) as [d|] eqn:Hd; [|discriminate].
    destruct (decide (DealInfo.state d = Active)) as [Ha|].
    { intros [= <-]. eauto. }
    destruct (mineTipset 1 b) as [b1 [[]| | |]] eqn:Hmine; try discriminate.
    intros Hrest. destruct (IH _ _ Hrest) as (Ht & Hbt & Hact).
    destruct (mineTipset_terms _ _ _ Hmine) as (Ht1 & Hbt1).
    split; [congruence|]. split; [congruence|]. exact Hact.
Qed.


Lemma registered_deal proposal am signature dealSize b :
  deals (registered proposal am signature dealSize b) !! length (deals b)
  = Some (DealInfo.mk (RootCID.mk (CID.mk (dagCborCid signature))) Validating
            "" miner
            (StorageMarketDataRef.pieceCid (StartDealParams.data proposal))
            dealSize (StartDealParams.epochPrice proposal)
            (StartDealParams.minBlocksDuration proposal)
            (Z.of_nat (length (deals b)) + 1)).
Proof.
  unfold registered. fields. rewrite lookup_app_r by lia.
  rewrite Nat.sub_diag. reflexivity.
Qed.

Lemma terms_lookup (l l' : list (DealInfo.t StorageDealStatus)) i d d' :
  dealTerms <$> l' = dealTerms <$> l →
  l !! i = Some d → l' !! i = Some d' → dealTerms d' = dealTerms d.
Proof.
  intros Heq Hl Hl'.
  assert (H : (dealTerms <$> l') !! i = (dealTerms <$> l) !! i) by (rewrite Heq; done).
  rewrite !list_lookup_fmap, Hl, Hl' in H. cbn [fmap option_fmap option_map] in H.
  congruence.
Qed.

(** What a call of [startDeal] that returns has done. *)
Lemma startDeal_inv fuel proposal b b' cid :
  startDeal fuel proposal b = (b', Return cid) →
  ∃ wallet account am signature dealSize bmid deal successful,
    StartDealParams.wallet proposal = Some wallet ∧
    getAccount (accountManager b) (Address.value wallet) = (account, am) ∧
    signProposal (Account.address account) proposal = inr signature ∧
    (if blockTime b =? 0 then mineUntilActive fuel (length (deals b)) else ret tt)
      (registered proposal am signature dealSize b) = (bmid, Return tt) ∧
    deals bmid !! length (deals b) = Some deal ∧
    (blockTime b = 0 → DealInfo.state deal = Active) ∧
    DealInfo.pricePerEpoch deal = StartDealParams.epochPrice proposal ∧
    DealInfo.duration deal = StartDealParams.minBlocksDuration proposal ∧
    transferFunds (accountManager bmid) (Address.value wallet)
      (StartDealParams.miner proposal)
      (DealInfo.pricePerEpoch deal * DealInfo.duration deal)
    = (successful, accountManager b') ∧
    trace b'
    = trace bmid
      ++ [TransferFunds (Address.value wallet) (StartDealParams.miner proposal)
            (DealInfo.pricePerEpoch deal * DealInfo.duration deal) successful] ∧
    cid = DealInfo.proposalCid deal ∧
    cid = RootCID.mk (CID.mk (dagCborCid signature)).
Proof.
  unfold startDeal.
  destruct (StartDealParams.wallet proposal) as [wallet|]; [|discriminate].
  set (rootCid := CID.value _).
  unfold bind at 1.
  destruct (getIPFSObjectSize rootCid b) as [b0 [size| | |]] eqn:Hsize;
    try discriminate.
  assert (b0 = b) as ->.
  { revert Hsize. unfold getIPFSObjectSize. step.
    destruct (ipfsNode b); cbn [negb]; [|congruence].
    destruct (objectStat rootCid); step; congruence. }
  step.
  destruct (getAccount (accountManager b) (Address.value wallet))
    as [account am] eqn:Hacc.
  fields.
  destruct (Address.privateKey (Account.address account)); [|discriminate].
  destruct (signProposal (Account.address account) proposal)
    as [e|signature] eqn:Hsig; step; [discriminate|].
  set (pieceSize := StorageMarketDataRef.pieceSize _).
  match goal with
  | |- context [(if pieceSize =? 0 then ?m1 else ?m2) ?b1] =>
    destruct ((if pieceSize =? 0 then m1 else m2) b1)
      as [b2 [dealSize| | |]] eqn:Hds; try discriminate;
    assert (b2 = b1) as ->
  end.
  { revert Hds. destruct (pieceSize =? 0); [|step; congruence].
    unfold getIPFSObjectSize. step.
    destruct (ipfsNode b); cbn [negb]; [|congruence].
    destruct (objectStat rootCid); step; congruence. }
  fields.
  change (setInProcessDeals _ _)
    with (registered proposal am signature dealSize b).
  destruct ((if blockTime b =? 0
             then mineUntilActive fuel (length (deals b))
             else λ b0, (b0, Return tt))
              (registered proposal am signature dealSize b))
    as [bmid [[]| | |]] eqn:Hmid; try discriminate.
  assert (Hterms : dealTerms <$> deals bmid
                   = dealTerms <$> deals (registered proposal am signature dealSize b)
                   ∧ (blockTime b = 0 →
                      ∃ d, deals bmid !! length (deals b) = Some d
                           ∧ DealInfo.state d = Active)).
  { destruct (blockTime b =? 0) eqn:Hbt.
    - destruct (mineUntilActive_inv _ _ _ _ Hmid) as (Ht & _ & Ha). auto.
    - injection Hmid as <-. split; [reflexivity|]. lia. }
  destruct Hterms as (Hterms & Hactive).
  destruct (deals bmid !! length (deals b)) as [deal|] eqn:Hdeal;
    [|discriminate].
  pose proof (terms_lookup _ _ _ _ _ Hterms
                (registered_deal proposal am signature dealSize b) Hdeal) as Ht.
  unfold dealTerms in Ht. cbn [DealInfo.proposalCid DealInfo.pricePerEpoch
                                DealInfo.duration] in Ht.
  injection Ht as Hcid Hprice Hduration.
  destruct (transferFunds (accountManager bmid) _ _ _) as [successful am2] eqn:Htr.
  fields. intros [= <- <-].
  exists wallet, account, am, signature, dealSize, bmid, deal, successful.
  fields. repeat split; auto.
  intros Hbt. destruct (Hactive Hbt) as (d & Hd & Ha). congruence.
Qed.


(** What a round of mining on a ready engine does to the deals. *)
Lemma mineTipset_step_deals n b :
  ready b →
  ∃ b',
    mineTipset (S n) b = (b', Return tt) ∧
    ready b' ∧
    blockTime b' = blockTime b ∧
    (deals b', inProcessDeals b')
    = advanceDealsFrom (length (inProcessDeals b)) 0 (deals b) (inProcessDeals b).
Proof.
  intros (Hm & Hp & Hb).
  destruct (miningLock b) as [|i] eqn:Hi; [done|].
  destruct (messagePoolLock b) as [|j] eqn:Hj; [done|].
  destruct (Tipset.blocks (latest b)) as [|block0 blocks] eqn:Hblocks; [done|].
  destruct (applyMessages_run (messagePool b) []
              (setMessagePool [] (setLock MiningLock i b)))
    as (am' & events & added & Hrun & _).
  fields in Hrun. cbn [app] in Hrun.
  eexists. split.
  { apply (mineTipset_run n b i j block0 am' events added Hi Hj); [|exact Hrun].
    rewrite Hblocks. reflexivity. }
  fields. cbn [Tipset.blocks replicate].
  split; [repeat split; done|]. split; [reflexivity|].
  destruct (advanceDealsFrom _ _ _ _); reflexivity.
Qed.

(** The loop over a single deal in process. *)
Lemma advanceDealsFrom_lone (l : list (DealInfo.t StorageDealStatus)) ref d :
  l !! ref = Some d →
  advanceDealsFrom 1 0 l [ref]
  = (alter advanceState ref l,
     if decide (nextSuccessfulState (DealInfo.state d) = Active)
     then [] else [ref]).
Proof.
  intros Hd. cbn [advanceDealsFrom lookup list_lookup].
  rewrite list_lookup_alter_eq, Hd. cbn [fmap option_fmap option_map].
  change (DealInfo.state (advanceState d))
    with (nextSuccessfulState (DealInfo.state d)).
  destruct (decide (nextSuccessfulState (DealInfo.state d) = Active));
    [|reflexivity].
  cbn [indexOf]. rewrite decide_True by reflexivity. reflexivity.
Qed.

(** With no other deal in process, the instamine loop of [startDeal]
    ends after as many rounds as there are steps from the state of the
    deal to [Active]. *)
Lemma mineUntilActive_lone ref k : ∀ fuel b d,
  (k ≤ fuel)%nat → ready b →
  deals b !! ref = Some d →
  inProcessDeals b = [ref] ∨ DealInfo.state d = Active →
  (∀ i, (i < k)%nat → Nat.iter i nextSuccessfulState (DealInfo.state d) ≠ Active) →
  Nat.iter k nextSuccessfulState (DealInfo.state d) = Active →
  ∃ b', mineUntilActive fuel ref b = (b', Return tt).
Proof.
  induction k as [|k IH]; intros fuel b d Hfuel Hready Hd Hlone Hbefore Hat.
  - cbn [Nat.iter] in Hat.
    destruct fuel; cbn [mineUntilActive]; step; rewrite Hd;
      rewrite decide_True by exact Hat; eauto.
  - destruct fuel as [|fuel]; [lia|].
    assert (Hnot : DealInfo.state d ≠ Active) by (apply (Hbefore 0%nat); lia).
    destruct Hlone as [Hlone|]; [|done].
    cbn [mineUntilActive]. step. rewrite Hd.
    rewrite decide_False by exact Hnot.
    destruct (mineTipset_step_deals 0 b Hready) as (b1 & Hrun & Hready1 & _ & Hdeals).
    rewrite Hrun. rewrite Hlone in Hdeals. cbn [length] in Hdeals.
    rewrite (advanceDealsFrom_lone _ _ _ Hd) in Hdeals.
    injection Hdeals as Hdeals Hin.
    apply (IH fuel b1 (advanceState d)); [lia | exact Hready1 | | | |].
    + rewrite Hdeals, list_lookup_alter_eq, Hd. reflexivity.
    + change (DealInfo.state (advanceState d))
        with (nextSuccessfulState (DealInfo.state d)).
      rewrite Hin.
      destruct (decide (nextSuccessfulState (DealInfo.state d) = Active)); auto.
    + intros i Hi.
      change (DealInfo.state (advanceState d))
        with (nextSuccessfulState (DealInfo.state d)).
      rewrite <- Nat.iter_succ_r. apply Hbefore. lia.
    + change (DealInfo.state (advanceState d))
        with (nextSuccessfulState (DealInfo.state d)).
      rewrite <- Nat.iter_succ_r. exact Hat.
Qed.

(** When [startDeal] returns: always with a positive block time, and in
    instamine mode when no other deal is in process and the fuel covers
    the steps from [Validating] to [Active].  Nothing is asked of
    [transferFunds]. *)
Lemma startDeal_returns fuel proposal b wallet account am signature k :
  StartDealParams.wallet proposal = Some wallet →
  ipfsNode b = false
  ∨ is_Some (objectStat
               (CID.value (RootCID.root
                  (StorageMarketDataRef.root (StartDealParams.data proposal))))) →
  getAccount (accountManager b) (Address.value wallet) = (account, am) →
  is_Some (Address.privateKey (Account.address account)) →
  signProposal (Account.address account) proposal = inr signature →
  blockTime b ≠ 0
  ∨ (ready b ∧ inProcessDeals b = [] ∧ (k ≤ fuel)%nat ∧
     (∀ i, (i < k)%nat → Nat.iter i nextSuccessfulState Validating ≠ Active) ∧
     Nat.iter k nextSuccessfulState Validating = Active) →
  ∃ b' cid, startDeal fuel proposal b = (b', Return cid).
Proof.
  intros Hw Hstat Hacc [key Hkey] Hsig Hmode.
  unfold startDeal. rewrite Hw.
  set (rootCid := CID.value _) in *.
  assert (Hsize : ∀ b0, ipfsNode b0 = ipfsNode b →
                        ∃ size, getIPFSObjectSize rootCid b0 = (b0, Return size)).
  { intros b0 Hn. unfold getIPFSObjectSize. step. rewrite Hn.
    destruct Hstat as [-> | [size Hs]]; cbn [negb]; [eauto|].
    destruct (ipfsNode b); cbn [negb]; [rewrite Hs|]; eauto. }
  unfold bind at 1. destruct (Hsize b eq_refl) as (size & ->).
  step. rewrite Hacc. fields. rewrite Hkey, Hsig. step.
  set (pieceSize := StorageMarketDataRef.pieceSize _).
  match goal with
  | |- context [(if pieceSize =? 0 then ?m1 else ?m2) ?b1] =>
    assert (Hds : ∃ dealSize,
              (if pieceSize =? 0 then m1 else m2) b1 = (b1, Return dealSize))
  end.
  { destruct (pieceSize =? 0); [apply Hsize; reflexivity | eauto]. }
  destruct Hds as (dealSize & ->). fields.
  change (setInProcessDeals _ _)
    with (registered proposal am signature dealSize b).
  assert (Hmid : ∃ bmid,
            (if blockTime b =? 0
             then mineUntilActive fuel (length (deals b))
             else λ b0, (b0, Return tt))
              (registered proposal am signature dealSize b) = (bmid, Return tt)
            ∧ is_Some (deals bmid !! length (deals b))).
  { pose proof (registered_deal proposal am signature dealSize b) as Hreg.
    destruct (blockTime b =? 0) eqn:Hbt.
    - destruct Hmode as [Hne | (Hready & Hnone & Hfuel & Hbefore & Hat)]; [lia|].
      assert (Hready' : ready (registered proposal am signature dealSize b)).
      { destruct Hready as (? & ? & ?). repeat split; assumption. }
      assert (Hlone : inProcessDeals (registered proposal am signature dealSize b)
                      = [length (deals b)]).
      { unfold registered. fields. rewrite Hnone. reflexivity. }
      destruct (mineUntilActive_lone (length (deals b)) k fuel _ _
                  Hfuel Hready' Hreg (or_introl Hlone) Hbefore Hat)
        as (bmid & Hrun).
      exists bmid. split; [exact Hrun|].
      destruct (mineUntilActive_inv _ _ _ _ Hrun) as (_ & _ & d & Hd & _).
      rewrite Hd. eauto.
    - eexists. split; [reflexivity|]. rewrite Hreg. eauto. }
  destruct Hmid as (bmid & -> & deal & ->).
  destruct (transferFunds (accountManager bmid) _ _ _) as [successful am2].
  fields. eauto.
Qed.

(** C8.  A call of [startDeal] that returns has registered the deal, has
    (in instamine mode) mined until the deal is Active, and has then
    called [transferFunds] once, from [proposal.wallet] to
    [proposal.miner], for [pricePerEpoch × duration]; the answer of that
    call is not looked at, and the value returned is the proposal CID of
    the deal.  Whether the call returns does not depend on
    [transferFunds]: it returns whenever the wallet is given, the object
    size can be read, the key is held and the proposal can be signed,
    with a positive block time, or in instamine mode with no other deal in
    process and enough fuel for the steps from Validating to Active. *)
Theorem startDeal_transfers_unconditionally fuel proposal b :
  (∀ b' cid,
     startDeal fuel proposal b = (b', Return cid) →
     ∃ wallet account am signature dealSize bmid deal successful,
       StartDealParams.wallet proposal = Some wallet ∧
       getAccount (accountManager b) (Address.value wallet) = (account, am) ∧
       signProposal (Account.address account) proposal = inr signature ∧
       (if blockTime b =? 0 then mineUntilActive fuel (length (deals b))
        else ret tt)
         (registered proposal am signature dealSize b) = (bmid, Return tt) ∧
       deals bmid !! length (deals b) = Some deal ∧
       (blockTime b = 0 → DealInfo.state deal = Active) ∧
       DealInfo.pricePerEpoch deal = StartDealParams.epochPrice proposal ∧
       DealInfo.duration deal = StartDealParams.minBlocksDuration proposal ∧
       transferFunds (accountManager bmid) (Address.value wallet)
         (StartDealParams.miner proposal)
         (DealInfo.pricePerEpoch deal * DealInfo.duration deal)
       = (successful, accountManager b') ∧
       trace b'
       = trace bmid
         ++ [TransferFunds (Address.value wallet) (StartDealParams.miner proposal)
               (DealInfo.pricePerEpoch deal * DealInfo.duration deal) successful] ∧
       cid = DealInfo.proposalCid deal ∧
       cid = RootCID.mk (CID.mk (dagCborCid signature))) ∧
  (∀ wallet account am signature k,
     StartDealParams.wallet proposal = Some wallet →
     ipfsNode b = false
     ∨ is_Some (objectStat
                  (CID.value (RootCID.root
                     (StorageMarketDataRef.root (StartDealParams.data proposal))))) →
     getAccount (accountManager b) (Address.value wallet) = (account, am) →
     is_Some (Address.privateKey (Account.address account)) →
     signProposal (Account.address account) proposal = inr signature →
     blockTime b ≠ 0
     ∨ (ready b ∧ inProcessDeals b = [] ∧ (k ≤ fuel)%nat ∧
        (∀ i, (i < k)%nat → Nat.iter i nextSuccessfulState Validating ≠ Active) ∧
        Nat.iter k nextSuccessfulState Validating = Active) →
     ∃ b' cid, startDeal fuel proposal b = (b', Return cid)).
Proof.
  split.
  - intros b' cid. apply startDeal_inv.
  - intros wallet account am signature k. apply startDeal_returns.
Qed.

(** The bound [length inProcessDeals] never cuts the loop short: with
    the index at [i] and at least [length inProcessDeals - i] steps left,
    one more step of fuel changes nothing. *)
Lemma advanceDealsFrom_fuel fuel : ∀ i l (inProcess : list nat),
  (length inProcess ≤ i + fuel)%nat →
  advanceDealsFrom (S fuel) i l inProcess = advanceDealsFrom fuel i l inProcess.
Proof.
  induction fuel as [|fuel IH]; intros i l inProcess Hlen.
  - cbn [advanceDealsFrom]. rewrite lookup_ge_None_2 by lia. reflexivity.
  - change (advanceDealsFrom (S (S fuel)) i l inProcess)
      with (match inProcess !! i with
            | None => (l, inProcess)
            | Some deal =>
              advanceDealsFrom (S fuel) (S i) (alter advanceState deal l)
                match alter advanceState deal l !! deal with
                | Some d =>
                  if decide (DealInfo.state d = Active)
                  then splice1 (indexOf deal inProcess) inProcess
                  else inProcess
                | None => inProcess
                end
            end).
    change (advanceDealsFrom (S fuel) i l inProcess)
      with (match inProcess !! i with
            | None => (l, inProcess)
            | Some deal =>
              advanceDealsFrom fuel (S i) (alter advanceState deal l)
                match alter advanceState deal l !! deal with
                | Some d =>
                  if decide (DealInfo.state d = Active)
                  then splice1 (indexOf deal inProcess) inProcess
                  else inProcess
                | None => inProcess
                end
            end).
    destruct (inProcess !! i) as [deal|] eqn:Hi; [|reflexivity].
    apply IH.
    destruct (alter advanceState deal l !! deal) as [d|]; [|lia].
    destruct (decide (DealInfo.state d = Active)); [|lia].
    unfold splice1. destruct (indexOf deal inProcess) as [k|].
    + rewrite delete_take_drop, length_app, length_take, length_drop. lia.
    + rewrite length_take. lia.
Qed.

(** The loop over [inProcessDeals] removes the deal that has become
    Active from the array it iterates over: the deal that follows it is
    not visited in that round. *)
Lemma advanceDealsFrom_skips_next (d0 d1 : DealInfo.t StorageDealStatus) :
  nextSuccessfulState (DealInfo.state d0) = Active →
  advanceDealsFrom 2 0 [d0; d1] [0; 1]%nat = ([advanceState d0; d1], [1%nat]).
Proof.
  intros Ha. cbn [advanceDealsFrom lookup list_lookup alter list_alter].
  change (DealInfo.state (advanceState d0))
    with (nextSuccessfulState (DealInfo.state d0)).
  rewrite decide_True by exact Ha.
  cbn [indexOf]. rewrite decide_True by reflexivity. reflexivity.
Qed.

End DealProperties.

(** C5 fails on [Sim.twoDeals], where the deal of [t3a] is one step away
    from Active and the deal of [t3c] has just been started: one call of
    [mineTipset] makes the first deal Active and leaves the second one in
    Validating, and after three calls (the number of steps from
    Validating to Active) the second deal is in Sealing, not Active. *)
Theorem mineTipset_skips_deal :
  DealInfo.state <$> deals Sim.twoDeals = [Sim.SSealing; Sim.SValidating] ∧
  inProcessDeals Sim.twoDeals = [0; 1]%nat ∧
  (mineTipset (E := Sim.env 0) 1 Sim.twoDeals).2 = Return tt ∧
  DealInfo.state <$> deals (mineTipset (E := Sim.env 0) 1 Sim.twoDeals).1
  = [Sim.SActive; Sim.SValidating] ∧
  inProcessDeals (mineTipset (E := Sim.env 0) 1 Sim.twoDeals).1 = [1%nat] ∧
  Nat.iter 3 Sim.next Sim.SValidating = Sim.SActive ∧
  DealInfo.state
    <$> deals (mineTipsets (E := Sim.env 0) [1; 1; 1]%nat Sim.twoDeals).1
  = [Sim.SActive; Sim.SSealing].
Proof.
  repeat split; vm_compute; reflexivity.
Qed.

(** C8 in instamine mode with a wallet that owns nothing: the transfer
    of 2 × 10 attoFIL fails and the proposal CID is returned. *)
Lemma startDeal_transfers_unconditionally_witness :
  ∃ bmid b' : @Blockchain (Sim.env 0),
    startDeal (E := Sim.env 0) 5 (Sim.proposal "t3a") Sim.instamine
    = (b', Return (RootCID.mk (CID.mk "deal:signed:key:t3a"))) ∧
    trace b' = trace bmid ++ [TransferFunds "t3a" "t01000" 20 false].
Proof.
  assert (Hrun : (startDeal (E := Sim.env 0) 5 (Sim.proposal "t3a")
                    Sim.instamine).2
                 = Return (RootCID.mk (CID.mk "deal:signed:key:t3a")))
    by (vm_compute; reflexivity).
  apply run_outcome in Hrun.
  destruct (proj1 (startDeal_transfers_unconditionally (E := Sim.env 0)
                     5 (Sim.proposal "t3a") Sim.instamine) _ _ Hrun)
    as (wallet & account & am & signature & dealSize & bmid & deal & successful
        & Hw & _ & _ & _ & _ & _ & Hprice & Hduration & _ & Htrace & _).
  injection Hw as <-. rewrite Hprice, Hduration in Htrace.
  exists bmid, (startDeal (E := Sim.env 0) 5 (Sim.proposal "t3a") Sim.instamine).1.
  split; [exact Hrun|]. rewrite Htrace. do 2 f_equal.
  assert (Hlast : last (trace (startDeal (E := Sim.env 0) 5 (Sim.proposal "t3a")
                                 Sim.instamine).1)
                  = Some (TransferFunds "t3a" "t01000" 20 false))
    by (vm_compute; reflexivity).
  rewrite Htrace, last_snoc in Hlast. injection Hlast as ->. reflexivity.
Defined.

(** * Properties of [retrieve] *)

Section RetrieveProperties.
Context {E : Env}.

Lemma transfers_app (l1 l2 : list Event) :
  transfers (l1 ++ l2) = transfers l1 ++ transfers l2.
Proof. apply List.filter_app. Qed.

Lemma writeChunks_run path chunks : ∀ b old,
  files b !! path = Some old →
  writeChunks path chunks b
  = (setTrace (trace b ++ (WriteChunk path <$> chunks))
       (setFiles (<[path := old ++ chunks]> (files b)) b),
     Return tt).
Proof.
  induction chunks as [|chunk chunks IH]; intros b old Hold.
  - cbn [writeChunks fmap list_fmap]. unfold ret.
    rewrite !app_nil_r, insert_id by exact Hold. destruct b; reflexivity.
  - cbn [writeChunks]. step.
    erewrite IH; cycle 1.
    { fields. rewrite Hold. cbn [default]. apply lookup_insert_eq. }
    fields. rewrite Hold. cbn [default fmap list_fmap].
    rewrite insert_insert_eq, <- !app_assoc. reflexivity.
Qed.

(** [downloadFile] makes no call on the account manager; when it
    returns, the chunks of the object are the content of the file. *)
Lemma downloadFile_run cid ref b b' o :
  downloadFile cid ref b = (b', o) →
  accountManager b' = accountManager b ∧
  ∃ events,
    trace b' = trace b ++ events ∧ transfers events = [] ∧
    (o = Return tt →
     ipfsNode b = true ∧
     ∃ chunks, filesRead cid = Some chunks ∧
               files b' !! FileRef.path ref = Some chunks ∧
               last events = Some (Rename (FileRef.path ref +:+ ".partial")
                                     (FileRef.path ref))).
Proof.
  unfold downloadFile. step.
  destruct (ipfsNode b) eqn:Hnode; cbn [negb].
  2:{ intros [= <- <-]. split; [reflexivity|]. exists [].
      rewrite app_nil_r. split; [reflexivity|]. split; [reflexivity|].
      discriminate. }
  set (dir := dirname (FileRef.path ref)).
  set (partial := FileRef.path ref +:+ ".partial").
  set (mk := if negb _ then _ else _).
  assert (Hmk : ∃ ev, mk b = (setTrace (trace b ++ ev) (setDirs (dirs (mk b).1) b), Return tt)
                      ∧ transfers ev = []).
  { subst mk. destruct (negb _); step.
    - exists [Mkdir dir]. split; reflexivity.
    - exists []. rewrite app_nil_r. destruct b; split; reflexivity. }
  destruct Hmk as (ev & -> & Hev). fields.
  destruct (filesRead cid) as [chunks|] eqn:Hread; step.
  - erewrite writeChunks_run; cycle 1.
    { fields. apply lookup_insert_eq. }
    fields. intros [= <- <-]. fields. split; [reflexivity|].
    eexists. rewrite <- !app_assoc. split; [reflexivity|].
    rewrite !transfers_app, Hev. split.
    + assert (Hw : transfers (WriteChunk partial <$> chunks) = []).
      { clear. induction chunks; [reflexivity | assumption]. }
      rewrite Hw. reflexivity.
    + intros _. split; [reflexivity|]. exists chunks. split; [reflexivity|].
      split.
      * rewrite lookup_insert_eq, lookup_insert_eq. reflexivity.
      * rewrite !app_assoc. apply last_snoc.
  - intros [= <- <-]. fields. split; [reflexivity|].
    eexists. rewrite <- !app_assoc. split; [reflexivity|].
    rewrite transfers_app, Hev. split; [reflexivity | discriminate].
Qed.


(** C10.  [retrieve] reads the account of [order.client] before it
    touches the file system.  Without the private key it throws at once:
    the object is as before but for the account manager that answered
    [getAccount], so no file is written and no funds move.  On any run the
    only possible [transferFunds] call is the one of [order.total] from
    the client to the miner, and it is made only when the key is held, the
    object was found, and [downloadFile] has returned with the object
    written under [ref.path]; it is then the last thing that happens. *)
Theorem retrieve_pays_after_download order ref b :
  let rootCid := CID.value (RootCID.root (RetrievalOrder.root order)) in
  let client := RetrievalOrder.client order in
  let account := (getAccount (accountManager b) client).1 in
  let b1 := setAccountManager (getAccount (accountManager b) client).2 b in
  (Address.privateKey (Account.address account) = None →
   retrieve order ref b = (b1, Throw (UnknownPrivateKey client)) ∧
   files b1 = files b ∧ dirs b1 = dirs b ∧ trace b1 = trace b) ∧
  (∀ b' o,
     retrieve order ref b = (b', o) →
     ∃ events,
       trace b' = trace b ++ events ∧
       ((transfers events = [] ∧ o ≠ Return tt) ∨
        (∃ bd successful chunks,
           is_Some (Address.privateKey (Account.address account)) ∧
           ipfsNode b = true ∧ is_Some (objectStat rootCid) ∧
           downloadFile rootCid ref b1 = (bd, Return tt) ∧
           filesRead rootCid = Some chunks ∧
           files bd !! FileRef.path ref = Some chunks ∧
           files b' = files bd ∧
           transferFunds (accountManager bd) client
             (RetrievalOrder.miner order) (RetrievalOrder.total order)
           = (successful, accountManager b') ∧
           trace b'
           = trace bd ++ [TransferFunds client (RetrievalOrder.miner order)
                            (RetrievalOrder.total order) successful] ∧
           transfers events
           = [TransferFunds client (RetrievalOrder.miner order)
                (RetrievalOrder.total order) successful] ∧
           o = Return tt))).
Proof.
  intros rootCid client account b1. subst account b1.
  unfold retrieve. fold rootCid client. unfold hasLocal. step.
  destruct (getAccount (accountManager b) client) as [account am] eqn:Hacc.
  fields. split.
  - intros Hkey.
    destruct (ipfsNode b); cbn [negb]; step; rewrite Hacc; fields;
      rewrite Hkey; auto.
  - intros b' o.
    assert (Hthrow : ∀ e : Error,
              (setAccountManager am b, Throw e) = (b', o) →
              ∃ events, trace b' = trace b ++ events ∧
                ((transfers events = [] ∧ o ≠ Return tt) ∨ False)).
    { intros e [= <- <-]. exists []. rewrite app_nil_r. fields.
      split; [reflexivity|]. left. split; [reflexivity | discriminate]. }
    destruct (ipfsNode b) eqn:Hnode; cbn [negb]; step; rewrite Hacc; fields.
    2:{ destruct (Address.privateKey (Account.address account));
          intros H; destruct (Hthrow _ H) as (events & H1 & [H2 | []]);
          exists events; (split; [exact H1 | left; exact H2]). }
    destruct (Address.privateKey (Account.address account)) as [key|] eqn:Hkey;
      [|intros H; destruct (Hthrow _ H) as (events & H1 & [H2 | []]);
          exists events; (split; [exact H1 | left; exact H2])].
    destruct (bool_decide (is_Some (objectStat rootCid))) eqn:Hstat; cbn [negb];
      [|intros H; destruct (Hthrow _ H) as (events & H1 & [H2 | []]);
          exists events; (split; [exact H1 | left; exact H2])].
    apply bool_decide_eq_true in Hstat.
    destruct (downloadFile rootCid ref (setAccountManager am b)) as [bd od] eqn:Hd.
    destruct (downloadFile_run _ _ _ _ _ Hd) as (Ham & ev & Htr & Hev & Hret).
    fields in Htr.
    destruct od as [[]|e| |].
    + destruct (Hret eq_refl) as (_ & chunks & Hread & Hfile & _).
      destruct (transferFunds (accountManager bd) client _ _)
        as [successful am2] eqn:Htf.
      fields. intros [= <- <-]. fields.
      exists (ev ++ [TransferFunds client (RetrievalOrder.miner order)
                       (RetrievalOrder.total order) successful]).
      rewrite Htr, <- app_assoc. split; [reflexivity|]. right.
      exists bd, successful, chunks.
      rewrite transfers_app, Hev, Htr. repeat split; eauto.
      rewrite app_assoc. reflexivity.
    + intros [= <- <-]. exists ev. split; [exact Htr|]. left.
      split; [exact Hev | discriminate].
    + intros [= <- <-]. exists ev. split; [exact Htr|]. left.
      split; [exact Hev | discriminate].
    + intros [= <- <-]. exists ev. split; [exact Htr|]. left.
      split; [exact Hev | discriminate].
Qed.

End RetrieveProperties.

(** C10 for an order of a client without a key. *)
Lemma retrieve_pays_after_download_witness :
  (retrieve (E := Sim.env 0) Sim.foreignOrder (FileRef.mk "/downloads/data")
     Sim.twoAccounts).2 = Throw (UnknownPrivateKey "t3zzz") ∧
  files (retrieve (E := Sim.env 0) Sim.foreignOrder
           (FileRef.mk "/downloads/data") Sim.twoAccounts).1
  = files Sim.twoAccounts ∧
  trace (retrieve (E := Sim.env 0) Sim.foreignOrder
           (FileRef.mk "/downloads/data") Sim.twoAccounts).1
  = trace Sim.twoAccounts.
Proof.
  destruct (proj1 (retrieve_pays_after_download (E := Sim.env 0)
                     Sim.foreignOrder (FileRef.mk "/downloads/data")
                     Sim.twoAccounts))
    as (Hrun & Hfiles & _ & Htrace).
  - vm_compute. reflexivity.
  - rewrite Hrun. auto.
Defined.

(** * Every way [mineTipset] can end *)

Section MiningOutcomes.
Context {E : Env}.

Lemma mineTipset_mining_locked n b :
  miningLock b = 0%nat → mineTipset n b = (b, Pending).
Proof.
  intros H. unfold mineTipset. step. rewrite H. reflexivity.
Qed.

Lemma mineTipset_pool_locked n b i :
  miningLock b = S i → messagePoolLock b = 0%nat →
  mineTipset n b = (setLock MiningLock i b, Pending).
Proof.
  intros Hi Hj. unfold mineTipset. step. rewrite Hi. step. rewrite Hj.
  reflexivity.
Qed.

Lemma mineTipset_no_parent n b i j :
  miningLock b = S i → messagePoolLock b = S j →
  Tipset.blocks (latest b) = [] →
  mineTipset (S n) b
  = (setMessagePool [] b,
     Throw (TypeError "previousTipset.blocks[0] is undefined")).
Proof.
  intros Hi Hj Hb.
  destruct b as [bt node am lat ts key bm ml pl pool ds dbc ipd fl dr sm tr].
  fields. fields in Hi. fields in Hj. fields in Hb. subst ml pl.
  unfold mineTipset. step. cbn [newBlockHeaders]. rewrite Hb.
  cbn [lookup list_lookup]. step. reflexivity.
Qed.


Lemma mineTipset_zero_empty b i j :
  miningLock b = S i → messagePoolLock b = S j → messagePool b = [] →
  let h := Tipset.height (latest b) + 1 in
  let advanced :=
    advanceDealsFrom (length (inProcessDeals b)) 0 (deals b) (inProcessDeals b) in
  mineTipset 0 b
  = (setInProcessDeals advanced.2
       (setDeals advanced.1
          (setLatestTipsetKey h
             (setLatest (Tipset.mk [] h)
                (setTipsets (<[h := Tipset.mk [] h]> (tipsets b)) b)))),
     Throw (TypeError "tipset.cids[0] is undefined")).
Proof.
  intros Hi Hj Hp h advanced.
  destruct b as [bt node am lat ts key bm ml pl pool ds dbc ipd fl dr sm tr].
  fields. fields in Hi. fields in Hj. fields in Hp. subst ml pl pool.
  fields in advanced. fields in h.
  unfold mineTipset. step. cbn [newBlockHeaders]. step.
  cbn [length Nat.ltb Nat.leb]. step.
  unfold putTipset, advanceDeals, logLatestTipset. step.
  fold h. fold advanced. destruct advanced as [deals' inProcess']. step.
  unfold cids. cbn [Tipset.blocks fmap list_fmap lookup list_lookup]. step.
  reflexivity.
Qed.

Lemma mineTipset_zero_pending b i j am' events added :
  miningLock b = S i → messagePoolLock b = S j → messagePool b ≠ [] →
  applyMessages (messagePool b) []
    (setMessagePool [] (setLock MiningLock i b))
  = (setTrace (trace b ++ events)
       (setAccountManager am' (setMessagePool [] (setLock MiningLock i b))),
     Return added) →
  mineTipset 0 b
  = (setTrace (trace b ++ events) (setAccountManager am' (setMessagePool [] b)),
     Throw (TypeError "newBlocks[0] is undefined")).
Proof.
  intros Hi Hj Hp Happ.
  destruct b as [bt node am lat ts key bm ml pl pool ds dbc ipd fl dr sm tr].
  fields. fields in Hi. fields in Hj. fields in Hp. subst ml pl.
  unfold setMessagePool, setLock, setTrace, setAccountManager in Happ.
  fields in Happ.
  unfold mineTipset. step. cbn [newBlockHeaders]. step.
  destruct pool as [|m pool']; [done|].
  cbn [length Nat.ltb Nat.leb]. step. rewrite Happ.
  unfold putBlockMessages. cbn [lookup list_lookup]. step. reflexivity.
Qed.

(** Case analysis on a call of [mineTipset]: a property of the final
    state and outcome holds as soon as it holds on the six ways the call
    can end. *)
Lemma mineTipset_cases (P : Blockchain → Outcome unit → Prop) n b :
  (miningLock b = 0%nat → P b Pending) →
  (∀ i, miningLock b = S i → messagePoolLock b = 0%nat →
        P (setLock MiningLock i b) Pending) →
  (∀ k, n = S k → miningLock b ≠ 0%nat → messagePoolLock b ≠ 0%nat →
        Tipset.blocks (latest b) = [] →
        P (setMessagePool [] b)
          (Throw (TypeError "previousTipset.blocks[0] is undefined"))) →
  (∀ k i j block0 am' events added,
     n = S k → miningLock b = S i → messagePoolLock b = S j →
     Tipset.blocks (latest b) !! 0%nat = Some block0 →
     sublist added (messagePool b) →
     emittedHeights events = [] →
     let h := Tipset.height (latest b) + 1 in
     let header :=
       BlockHeader.new miner [RootCID.mk (blockCid block0)] h
         (ElectionProof.winCount (BlockHeader.electionProof block0)
          + BlockHeader.parentWeight block0) in
     let newTipset := Tipset.mk (replicate (S k) header) h in
     let advanced :=
       advanceDealsFrom (length (inProcessDeals b)) 0 (deals b)
         (inProcessDeals b) in
     let empty := match messagePool b with [] => true | _ => false end in
     P (mkBlockchain (blockTime b) (ipfsNode b)
          (if empty then accountManager b else am')
          newTipset (<[h := newTipset]> (tipsets b)) h
          (if empty then blockMessages b
           else <[CID.value (blockCid header) := added]> (blockMessages b))
          (S i) (S j) [] advanced.1 (dealsByCid b) advanced.2 (files b)
          (dirs b) (scheduledMines b)
          ((if empty then trace b else trace b ++ events)
           ++ [LoggerLog (CID.value (blockCid header)) h; EmitTipset newTipset]))
       (Return tt)) →
  (n = 0%nat → miningLock b ≠ 0%nat → messagePoolLock b ≠ 0%nat →
   messagePool b = [] →
   let h := Tipset.height (latest b) + 1 in
   let advanced :=
     advanceDealsFrom (length (inProcessDeals b)) 0 (deals b)
       (inProcessDeals b) in
   P (setInProcessDeals advanced.2
        (setDeals advanced.1
           (setLatestTipsetKey h
              (setLatest (Tipset.mk [] h)
                 (setTipsets (<[h := Tipset.mk [] h]> (tipsets b)) b)))))
     (Throw (TypeError "tipset.cids[0] is undefined"))) →
  (∀ am' events,
     n = 0%nat → miningLock b ≠ 0%nat → messagePoolLock b ≠ 0%nat →
     messagePool b ≠ [] → emittedHeights events = [] →
     P (setTrace (trace b ++ events)
          (setAccountManager am' (setMessagePool [] b)))
       (Throw (TypeError "newBlocks[0] is undefined"))) →
  P (mineTipset n b).1 (mineTipset n b).2.
Proof.
  intros Hml Hpl Hnp Hrun Hze Hzp.
  destruct (miningLock b) as [|i] eqn:Hi.
  { rewrite mineTipset_mining_locked by exact Hi. apply Hml. reflexivity. }
  destruct (messagePoolLock b) as [|j] eqn:Hj.
  { rewrite (mineTipset_pool_locked n b i Hi Hj). apply (Hpl i); reflexivity. }
  destruct (applyMessages_run (messagePool b) []
              (setMessagePool [] (setLock MiningLock i b)))
    as (am' & events & added & Happ & Hsub & _ & Hem & _).
  fields in Happ. cbn [app] in Happ.
  destruct n as [|k].
  - destruct (messagePool b) as [|m pool'] eqn:Hp.
    + rewrite (mineTipset_zero_empty b i j Hi Hj Hp). apply Hze; done.
    + rewrite <- Hp in Happ.
      rewrite (mineTipset_zero_pending b i j am' events added Hi Hj); cycle 1.
      { rewrite Hp. done. } { exact Happ. }
      apply Hzp; done.
  - destruct (Tipset.blocks (latest b)) as [|block0 blocks] eqn:Hb.
    + rewrite (mineTipset_no_parent k b i j Hi Hj Hb). apply (Hnp k); done.
    + assert (Hb0 : Tipset.blocks (latest b) !! 0%nat = Some block0)
        by (rewrite Hb; reflexivity).
      rewrite (mineTipset_run k b i j block0 am' events added Hi Hj Hb0 Happ).
      apply (Hrun k i j block0 am' events added); done.
Qed.


Lemma mineTipset_cases_inv (P : Blockchain → Outcome unit → Prop) n b :
  (miningLock b = 0%nat → P b Pending) →
  (∀ i, miningLock b = S i → messagePoolLock b = 0%nat →
        P (setLock MiningLock i b) Pending) →
  (∀ k, n = S k → miningLock b ≠ 0%nat → messagePoolLock b ≠ 0%nat →
        Tipset.blocks (latest b) = [] →
        P (setMessagePool [] b)
          (Throw (TypeError "previousTipset.blocks[0] is undefined"))) →
  (∀ k i j block0 am' events added,
     n = S k → miningLock b = S i → messagePoolLock b = S j →
     Tipset.blocks (latest b) !! 0%nat = Some block0 →
     sublist added (messagePool b) →
     emittedHeights events = [] →
     let h := Tipset.height (latest b) + 1 in
     let header :=
       BlockHeader.new miner [RootCID.mk (blockCid block0)] h
         (ElectionProof.winCount (BlockHeader.electionProof block0)
          + BlockHeader.parentWeight block0) in
     let newTipset := Tipset.mk (replicate (S k) header) h in
     let advanced :=
       advanceDealsFrom (length (inProcessDeals b)) 0 (deals b)
         (inProcessDeals b) in
     let empty := match messagePool b with [] => true | _ => false end in
     P (mkBlockchain (blockTime b) (ipfsNode b)
          (if empty then accountManager b else am')
          newTipset (<[h := newTipset]> (tipsets b)) h
          (if empty then blockMessages b
           else <[CID.value (blockCid header) := added]> (blockMessages b))
          (S i) (S j) [] advanced.1 (dealsByCid b) advanced.2 (files b)
          (dirs b) (scheduledMines b)
          ((if empty then trace b else trace b ++ events)
           ++ [LoggerLog (CID.value (blockCid header)) h; EmitTipset newTipset]))
       (Return tt)) →
  (n = 0%nat → miningLock b ≠ 0%nat → messagePoolLock b ≠ 0%nat →
   messagePool b = [] →
   let h := Tipset.height (latest b) + 1 in
   let advanced :=
     advanceDealsFrom (length (inProcessDeals b)) 0 (deals b)
       (inProcessDeals b) in
   P (setInProcessDeals advanced.2
        (setDeals advanced.1
           (setLatestTipsetKey h
              (setLatest (Tipset.mk [] h)
                 (setTipsets (<[h := Tipset.mk [] h]> (tipsets b)) b)))))
     (Throw (TypeError "tipset.cids[0] is undefined"))) →
  (∀ am' events,
     n = 0%nat → miningLock b ≠ 0%nat → messagePoolLock b ≠ 0%nat →
     messagePool b ≠ [] → emittedHeights events = [] →
     P (setTrace (trace b ++ events)
          (setAccountManager am' (setMessagePool [] b)))
       (Throw (TypeError "newBlocks[0] is undefined"))) →
  ∀ b' o, mineTipset n b = (b', o) → P b' o.
Proof.
  intros H1 H2 H3 H4 H5 H6 b' o Hrun.
  pose proof (mineTipset_cases P n b H1 H2 H3 H4 H5 H6) as H.
  rewrite Hrun in H. exact H.
Qed.

(** X1.  With both semaphores free a call of [mineTipset] does not stay
    pending: it returns or it throws.  It returns only when it was asked
    for at least one block and the latest tipset has a first block.
    Whether it returns or throws, both semaphores are free again
    afterwards and the message pool is empty. *)
Theorem mineTipset_settles n b :
  miningLock b ≠ 0%nat → messagePoolLock b ≠ 0%nat →
  ∃ b' o,
    mineTipset n b = (b', o) ∧
    (o = Return tt ∨ ∃ e, o = Throw e) ∧
    (o = Return tt → n ≠ 0%nat ∧ Tipset.blocks (latest b) ≠ []) ∧
    miningLock b' = miningLock b ∧
    messagePoolLock b' = messagePoolLock b ∧
    messagePool b' = [].
Proof.
  intros Hm Hp.
  destruct (mineTipset n b) as [b' o] eqn:Hrun. exists b', o.
  split; [reflexivity|]. revert b' o Hrun.
  apply (mineTipset_cases_inv
           (λ b' o,
              (o = Return tt ∨ ∃ e, o = Throw e) ∧
              (o = Return tt → n ≠ 0%nat ∧ Tipset.blocks (latest b) ≠ []) ∧
              miningLock b' = miningLock b ∧
              messagePoolLock b' = messagePoolLock b ∧
              messagePool b' = [])).
  - done.
  - done.
  - intros k -> _ _ Hb. fields.
    split; [eauto|]. split; [discriminate | done].
  - intros k i j block0 am' events added -> Hi Hj Hb _ _ h header newTipset
      advanced empty. fields.
    split; [eauto|]. split; [|rewrite Hi, Hj; done].
    intros _. split; [done|].
    intros Hnil. rewrite Hnil in Hb. discriminate.
  - intros -> _ _ Hpool h advanced. fields.
    split; [eauto|]. split; [discriminate | done].
  - intros am' events -> _ _ Hpool _. fields.
    split; [eauto|]. split; [discriminate | done].
Qed.

(** A call that returns on a consistent chain has stored its tipset
    and written the key. *)
Lemma mineTipset_chain_stored n b b' :
  chainStored b → mineTipset n b = (b', Return tt) →
  chainStored b' ∧
  Tipset.height (latest b') = Tipset.height (latest b) + 1 ∧
  (∀ h t, tipsets b !! h = Some t → tipsets b' !! h = Some t).
Proof.
  intros (Hkey & Hlatest & Hall) Hrun.
  refine (mineTipset_cases_inv
            (λ b' o, o = Return tt →
                     chainStored b' ∧
                     Tipset.height (latest b') = Tipset.height (latest b) + 1 ∧
                     (∀ h t, tipsets b !! h = Some t → tipsets b' !! h = Some t))
            n b _ _ _ _ _ _ b' (Return tt) Hrun eq_refl).
  - discriminate.
  - discriminate.
  - discriminate.
  - intros k i j block0 am' events added _ _ _ _ _ _ h header newTipset
      advanced empty _.
    split; [|split; [reflexivity|]].
    + split; [reflexivity|]. split; [apply lookup_insert_eq|].
      intros h' t' Hl. fields in Hl. fields.
      destruct (decide (h = h')) as [<-|Hne].
      * rewrite lookup_insert_eq in Hl. injection Hl as <-.
        subst newTipset. cbn [Tipset.height]. lia.
      * rewrite lookup_insert_ne in Hl by exact Hne.
        destruct (Hall _ _ Hl). subst newTipset h. cbn [Tipset.height]. lia.
    + intros h' t' Hl. fields. destruct (Hall _ _ Hl).
      rewrite lookup_insert_ne by (subst h; lia). exact Hl.
  - discriminate.
  - discriminate.
Qed.

(** X2.  The store of tipsets under [mineTipset].  However the call
    ends, it writes at most one entry of the store, the one at the height
    of the latest tipset plus one, and what it writes there is the tipset
    that it has made the latest.  When the call returns on a consistent
    chain (the key latest-tipset holds the height of the latest tipset,
    that tipset is stored under its height, every stored tipset sits
    under its own height and none is above the latest), the chain is
    consistent again, one tipset higher, and every tipset stored before
    is still stored, unchanged. *)
Theorem mineTipset_keeps_chain_stored n b b' o :
  mineTipset n b = (b', o) →
  (∀ h, h ≠ Tipset.height (latest b) + 1 → tipsets b' !! h = tipsets b !! h) ∧
  (tipsets b' !! (Tipset.height (latest b) + 1)
   = tipsets b !! (Tipset.height (latest b) + 1) ∨
   tipsets b' !! (Tipset.height (latest b) + 1) = Some (latest b')) ∧
  (o = Return tt → chainStored b →
   chainStored b' ∧
   Tipset.height (latest b') = Tipset.height (latest b) + 1 ∧
   ∀ h t, tipsets b !! h = Some t → tipsets b' !! h = Some t).
Proof.
  intros Hrun. split; [|split].
  - revert b' o Hrun.
    apply (mineTipset_cases_inv
             (λ b' _, ∀ h, h ≠ Tipset.height (latest b) + 1 →
                           tipsets b' !! h = tipsets b !! h)).
    + done.
    + intros i _ _. fields. done.
    + intros k _ _ _ _. fields. done.
    + intros k i j block0 am' events added _ _ _ _ _ _ h header newTipset
        advanced empty h' Hne. fields. apply lookup_insert_ne. subst h. done.
    + intros _ _ _ _ h advanced h' Hne. fields. apply lookup_insert_ne.
      subst h. done.
    + intros am' events _ _ _ _ _. fields. done.
  - revert b' o Hrun.
    apply (mineTipset_cases_inv
             (λ b' _,
                tipsets b' !! (Tipset.height (latest b) + 1)
                = tipsets b !! (Tipset.height (latest b) + 1) ∨
                tipsets b' !! (Tipset.height (latest b) + 1)
                = Some (latest b'))).
    + left. reflexivity.
    + intros i _ _. left. reflexivity.
    + intros k _ _ _ _. left. reflexivity.
    + intros k i j block0 am' events added _ _ _ _ _ _ h header newTipset
        advanced empty. right. fields. apply lookup_insert_eq.
    + intros _ _ _ _ h advanced. right. fields. apply lookup_insert_eq.
    + intros am' events _ _ _ _ _. left. reflexivity.
  - intros -> Hb. exact (mineTipset_chain_stored _ _ _ Hb Hrun).
Qed.

(** X3.  [mineTipset] only appends to the trace.  A call that returns
    emits exactly one tipset event, as the last thing it does, and the
    tipset it emits is the one it has stored as the latest, one above the
    previous height.  A call that throws or stays pending emits no tipset
    event. *)
Theorem mineTipset_emits_after_commit n b :
  ∃ events,
    trace (mineTipset n b).1 = trace b ++ events ∧
    match (mineTipset n b).2 with
    | Return _ =>
      emittedHeights events = [Tipset.height (latest b) + 1] ∧
      last events = Some (EmitTipset (latest (mineTipset n b).1)) ∧
      Tipset.height (latest (mineTipset n b).1) = Tipset.height (latest b) + 1 ∧
      tipsets (mineTipset n b).1 !! (Tipset.height (latest b) + 1)
      = Some (latest (mineTipset n b).1) ∧
      latestTipsetKey (mineTipset n b).1 = Tipset.height (latest b) + 1
    | _ => emittedHeights events = []
    end.
Proof.
  apply (mineTipset_cases
           (λ b' o, ∃ events,
              trace b' = trace b ++ events ∧
              match o with
              | Return _ =>
                emittedHeights events = [Tipset.height (latest b) + 1] ∧
                last events = Some (EmitTipset (latest b')) ∧
                Tipset.height (latest b') = Tipset.height (latest b) + 1 ∧
                tipsets b' !! (Tipset.height (latest b) + 1) = Some (latest b') ∧
                latestTipsetKey b' = Tipset.height (latest b) + 1
              | _ => emittedHeights events = []
              end)).
  - intros _. exists []. rewrite app_nil_r. done.
  - intros i _ _. exists []. rewrite app_nil_r. done.
  - intros k _ _ _ _. exists []. rewrite app_nil_r. done.
  - intros k i j block0 am' events added _ _ _ _ _ Hem h header newTipset
      advanced empty. fields.
    exists ((if empty then [] else events)
            ++ [LoggerLog (CID.value (blockCid header)) h; EmitTipset newTipset]).
    split; [destruct empty; rewrite ?app_nil_l, <- ?app_assoc; reflexivity|].
    split.
    { unfold emittedHeights in *. rewrite List.flat_map_app.
      destruct empty; [|rewrite Hem]; reflexivity. }
    split; [rewrite last_app; reflexivity|].
    split; [reflexivity|]. split; [apply lookup_insert_eq | reflexivity].
  - intros _ _ _ _ h advanced. exists []. rewrite app_nil_r. done.
  - intros am' events _ _ _ _ Hem. exists events. done.
Qed.


(** X5.  When the latest tipset has no block, a call of [mineTipset]
    for one or more blocks throws the TypeError of
    [previousTipset.blocks[0]] after it has emptied the pool: the pending
    messages are dropped, nothing else changes, and every later call
    throws again. *)
Theorem mineTipset_without_parent_block n b :
  miningLock b ≠ 0%nat → messagePoolLock b ≠ 0%nat →
  Tipset.blocks (latest b) = [] →
  mineTipset (S n) b
  = (setMessagePool [] b,
     Throw (TypeError "previousTipset.blocks[0] is undefined")) ∧
  ∀ k, (mineTipset (S k) (mineTipset (S n) b).1).2
       = Throw (TypeError "previousTipset.blocks[0] is undefined").
Proof.
  intros Hm Hp Hb.
  destruct (miningLock b) as [|i] eqn:Hi; [done|].
  destruct (messagePoolLock b) as [|j] eqn:Hj; [done|].
  pose proof (mineTipset_no_parent n b i j Hi Hj Hb) as Hrun.
  split; [exact Hrun|]. intros k. rewrite Hrun. cbn [fst].
  rewrite (mineTipset_no_parent k (setMessagePool [] b) i j); done.
Qed.

End MiningOutcomes.

(** * Deals under mining *)

Section DealInvariants.
Context {E : Env}.

Lemma advanceDealsFrom_others fuel (s : StorageDealStatus) : ∀ i l inProcess,
  DealInfo.setState s <$> (advanceDealsFrom fuel i l inProcess).1
  = DealInfo.setState s <$> l.
Proof.
  induction fuel as [|fuel IH]; intros i l inProcess; [reflexivity|].
  cbn [advanceDealsFrom].
  destruct (inProcess !! i) as [deal|]; [|reflexivity].
  rewrite IH. apply list_eq. intros k.
  rewrite !list_lookup_fmap.
  destruct (decide (k = deal)) as [->|Hne].
  - rewrite list_lookup_alter_eq. destruct (l !! deal); reflexivity.
  - rewrite list_lookup_alter_ne by done. reflexivity.
Qed.

Lemma splice1_sublist start (l : list nat) : sublist (splice1 start l) l.
Proof.
  destruct start; cbn [splice1]; [apply sublist_delete | apply sublist_take].
Qed.

Lemma advanceDealsFrom_sublist fuel : ∀ i l inProcess,
  sublist (advanceDealsFrom fuel i l inProcess).2 inProcess.
Proof.
  induction fuel as [|fuel IH]; intros i l inProcess; [reflexivity|].
  cbn [advanceDealsFrom].
  destruct (inProcess !! i) as [deal|]; [|reflexivity].
  etrans; [apply IH|].
  destruct (alter advanceState deal l !! deal) as [d|]; [|reflexivity].
  destruct (decide (DealInfo.state d = Active)); [|reflexivity].
  apply splice1_sublist.
Qed.

Lemma indexOf_Some r (l : list nat) :
  r ∈ l → ∃ k, indexOf r l = Some k ∧ l !! k = Some r.
Proof.
  induction l as [|x l IH]; intros Hin; [by apply not_elem_of_nil in Hin|].
  cbn [indexOf]. destruct (decide (x = r)) as [->|Hne].
  - exists 0%nat. done.
  - apply elem_of_cons in Hin as [->|Hin]; [done|].
    destruct (IH Hin) as (k & -> & Hk). exists (S k). done.
Qed.

Lemma NoDup_delete_lookup (l : list nat) k r :
  NoDup l → l !! k = Some r → r ∉ delete k l.
Proof.
  intros Hnd Hk. rewrite <- (take_drop_middle _ _ _ Hk) in Hnd.
  rewrite delete_take_drop.
  apply NoDup_app in Hnd as (_ & Hdisj & Hnd).
  apply NoDup_cons in Hnd as (Hnotin & _).
  intros [Hin | Hin]%elem_of_app; [|done].
  apply (Hdisj _ Hin). left.
Qed.

Lemma advanceDealsFrom_sound fuel : ∀ i l inProcess,
  NoDup inProcess →
  (∀ r, r ∈ inProcess → ∃ d, l !! r = Some d ∧ DealInfo.state d ≠ Active) →
  NoDup (advanceDealsFrom fuel i l inProcess).2 ∧
  ∀ r, r ∈ (advanceDealsFrom fuel i l inProcess).2 →
       ∃ d, (advanceDealsFrom fuel i l inProcess).1 !! r = Some d
            ∧ DealInfo.state d ≠ Active.
Proof.
  induction fuel as [|fuel IH]; intros i l inProcess Hnd Hall; [done|].
  cbn [advanceDealsFrom].
  destruct (inProcess !! i) as [deal|] eqn:Hi; [|done].
  apply list_elem_of_lookup_2 in Hi as Hin.
  destruct (Hall _ Hin) as (d0 & Hd0 & _).
  rewrite list_lookup_alter_eq, Hd0. cbn [fmap option_fmap option_map].
  destruct (decide (DealInfo.state (advanceState d0) = Active)) as [Ha|Hna].
  - destruct (indexOf_Some _ _ Hin) as (k & -> & Hk). cbn [splice1].
    apply IH.
    + eapply sublist_NoDup; [exact Hnd | apply sublist_delete].
    + intros r Hr.
      assert (r ≠ deal).
      { intros ->. by apply (NoDup_delete_lookup _ _ _ Hnd Hk). }
      rewrite list_lookup_alter_ne by done.
      apply Hall. eapply elem_of_sublist; [exact Hr | apply sublist_delete].
  - apply IH; [exact Hnd|]. intros r Hr.
    destruct (decide (r = deal)) as [->|Hne].
    + rewrite list_lookup_alter_eq, Hd0. eauto.
    + rewrite list_lookup_alter_ne by done. auto.
Qed.

(** X6.  What [mineTipset] leaves alone, however it ends: of a deal it
    changes at most the state, it adds no deal and removes none, the
    deals in process afterwards are among those in process before and in
    the same order, and the index by proposal CID, the files, the
    directories, the block time, the IPFS node and the number of scheduled
    mines are as before. *)
Theorem mineTipset_deals_frame n b (s : StorageDealStatus) :
  DealInfo.setState s <$> deals (mineTipset n b).1
  = DealInfo.setState s <$> deals b ∧
  sublist (inProcessDeals (mineTipset n b).1) (inProcessDeals b) ∧
  dealsByCid (mineTipset n b).1 = dealsByCid b ∧
  files (mineTipset n b).1 = files b ∧
  dirs (mineTipset n b).1 = dirs b ∧
  blockTime (mineTipset n b).1 = blockTime b ∧
  ipfsNode (mineTipset n b).1 = ipfsNode b ∧
  scheduledMines (mineTipset n b).1 = scheduledMines b.
Proof.
  apply (mineTipset_cases
           (λ b' _,
              DealInfo.setState s <$> deals b' = DealInfo.setState s <$> deals b ∧
              sublist (inProcessDeals b') (inProcessDeals b) ∧
              dealsByCid b' = dealsByCid b ∧ files b' = files b ∧
              dirs b' = dirs b ∧ blockTime b' = blockTime b ∧
              ipfsNode b' = ipfsNode b ∧
              scheduledMines b' = scheduledMines b)).
  - done.
  - intros i _ _. fields. done.
  - intros k _ _ _ _. fields. done.
  - intros k i j block0 am' events added _ _ _ _ _ _ h header newTipset
      advanced empty. fields.
    split; [apply advanceDealsFrom_others|].
    split; [apply advanceDealsFrom_sublist | done].
  - intros _ _ _ _ h advanced. fields.
    split; [apply advanceDealsFrom_others|].
    split; [apply advanceDealsFrom_sublist | done].
  - intros am' events _ _ _ _ _. fields. done.
Qed.

Lemma mineTipset_in_process_sound n b b' o :
  inProcessSound b → mineTipset n b = (b', o) → inProcessSound b'.
Proof.
  intros Hs. revert b' o.
  pose proof Hs as (Hnd & Hall).
  apply mineTipset_cases_inv.
  - done.
  - intros i _ _. exact Hs.
  - intros k _ _ _ _. exact Hs.
  - intros k i j block0 am' events added _ _ _ _ _ _ h header newTipset
      advanced empty. unfold inProcessSound. fields.
    apply advanceDealsFrom_sound; done.
  - intros _ _ _ _ h advanced. unfold inProcessSound. fields.
    apply advanceDealsFrom_sound; done.
  - intros am' events _ _ _ _ _. exact Hs.
Qed.

(** The loop changes no deal that is not in process. *)
Lemma advanceDealsFrom_untouched fuel r : ∀ i l inProcess,
  r ∉ inProcess → (advanceDealsFrom fuel i l inProcess).1 !! r = l !! r.
Proof.
  induction fuel as [|fuel IH]; intros i l inProcess Hr; [reflexivity|].
  cbn [advanceDealsFrom].
  destruct (inProcess !! i) as [deal|] eqn:Hi; [|reflexivity].
  apply list_elem_of_lookup_2 in Hi as Hin.
  assert (Hne : r ≠ deal) by (intros ->; done).
  rewrite IH; [apply list_lookup_alter_ne; done|].
  destruct (alter advanceState deal l !! deal) as [d|]; [|exact Hr].
  destruct (decide (DealInfo.state d = Active)); [|exact Hr].
  intros Hin'. apply Hr. eapply elem_of_sublist; [exact Hin'|].
  apply splice1_sublist.
Qed.

Lemma delete_lookup_other (l : list nat) k r x :
  l !! k = Some r → x ∈ l → x ≠ r → x ∈ delete k l.
Proof.
  intros Hk Hx Hne. rewrite <- (take_drop_middle _ _ _ Hk) in Hx.
  rewrite delete_take_drop.
  apply elem_of_app in Hx as [Hx | Hx]; [apply elem_of_app; left; exact Hx|].
  apply elem_of_cons in Hx as [-> | Hx]; [done|].
  apply elem_of_app. right. exact Hx.
Qed.

(** A deal leaves the array of the loop only as Active. *)
Lemma advanceDealsFrom_removed fuel : ∀ i l inProcess,
  NoDup inProcess →
  (∀ r, r ∈ inProcess → ∃ d, l !! r = Some d ∧ DealInfo.state d ≠ Active) →
  ∀ r, r ∈ inProcess → r ∉ (advanceDealsFrom fuel i l inProcess).2 →
       ∃ d, (advanceDealsFrom fuel i l inProcess).1 !! r = Some d
            ∧ DealInfo.state d = Active.
Proof.
  induction fuel as [|fuel IH]; intros i l inProcess Hnd Hall r Hr Hout;
    [done|].
  revert Hout. cbn [advanceDealsFrom].
  destruct (inProcess !! i) as [deal|] eqn:Hi; [|done].
  apply list_elem_of_lookup_2 in Hi as Hin.
  destruct (Hall _ Hin) as (d0 & Hd0 & _).
  rewrite list_lookup_alter_eq, Hd0. cbn [fmap option_fmap option_map].
  destruct (decide (DealInfo.state (advanceState d0) = Active)) as [Ha|Hna].
  - destruct (indexOf_Some _ _ Hin) as (k & -> & Hk). cbn [splice1].
    intros Hout. destruct (decide (r = deal)) as [->|Hne].
    + rewrite advanceDealsFrom_untouched
        by (apply (NoDup_delete_lookup _ _ _ Hnd Hk)).
      rewrite list_lookup_alter_eq, Hd0. eauto.
    + apply IH; [| |apply (delete_lookup_other _ _ _ _ Hk Hr Hne)|exact Hout].
      * eapply sublist_NoDup; [exact Hnd | apply sublist_delete].
      * intros x Hx.
        assert (x ≠ deal).
        { intros ->. by apply (NoDup_delete_lookup _ _ _ Hnd Hk). }
        rewrite list_lookup_alter_ne by done.
        apply Hall. eapply elem_of_sublist; [exact Hx | apply sublist_delete].
  - intros Hout. apply IH; [exact Hnd| |exact Hr|exact Hout].
    intros x Hx. destruct (decide (x = deal)) as [->|Hne].
    + rewrite list_lookup_alter_eq, Hd0. eauto.
    + rewrite list_lookup_alter_ne by done. auto.
Qed.

(** X7.  [mineTipset] keeps [inProcessDeals] sound, however it ends: no
    deal is listed twice, and every listed deal exists and is not Active.
    The deals listed afterwards were listed before, in the same order,
    and a deal leaves the list only when it has become Active. *)
Theorem mineTipset_keeps_in_process_sound n b b' o :
  inProcessSound b → mineTipset n b = (b', o) →
  inProcessSound b' ∧
  sublist (inProcessDeals b') (inProcessDeals b) ∧
  ∀ r, r ∈ inProcessDeals b → r ∉ inProcessDeals b' →
       ∃ d, deals b' !! r = Some d ∧ DealInfo.state d = Active.
Proof.
  intros Hs Hrun. split; [exact (mineTipset_in_process_sound _ _ _ _ Hs Hrun)|].
  destruct Hs as (Hnd & Hall). revert b' o Hrun.
  apply (mineTipset_cases_inv
           (λ b' _, sublist (inProcessDeals b') (inProcessDeals b) ∧
                    ∀ r, r ∈ inProcessDeals b → r ∉ inProcessDeals b' →
                         ∃ d, deals b' !! r = Some d
                              ∧ DealInfo.state d = Active)).
  - done.
  - intros i _ _. fields. done.
  - intros k _ _ _ _. fields. done.
  - intros k i j block0 am' events added _ _ _ _ _ _ h header newTipset
      advanced empty. fields.
    split; [apply advanceDealsFrom_sublist|].
    apply advanceDealsFrom_removed; done.
  - intros _ _ _ _ h advanced. fields.
    split; [apply advanceDealsFrom_sublist|].
    apply advanceDealsFrom_removed; done.
  - intros am' events _ _ _ _ _. fields. done.
Qed.

Lemma mineTipset_deals_others n b b' o (s : StorageDealStatus) :
  mineTipset n b = (b', o) →
  DealInfo.setState s <$> deals b' = DealInfo.setState s <$> deals b ∧
  dealsByCid b' = dealsByCid b ∧ blockTime b' = blockTime b ∧
  sublist (inProcessDeals b') (inProcessDeals b).
Proof.
  revert b' o. apply mineTipset_cases_inv.
  - done.
  - intros i _ _. fields. done.
  - intros k _ _ _ _. fields. done.
  - intros k i j block0 am' events added _ _ _ _ _ _ h header newTipset
      advanced empty. fields.
    split; [apply advanceDealsFrom_others|].
    do 2 (split; [reflexivity|]). apply advanceDealsFrom_sublist.
  - intros _ _ _ _ h advanced. fields.
    split; [apply advanceDealsFrom_others|].
    do 2 (split; [reflexivity|]). apply advanceDealsFrom_sublist.
  - intros am' events _ _ _ _ _. fields. done.
Qed.

Lemma others_lookup (s : StorageDealStatus)
    (l l' : list (DealInfo.t StorageDealStatus)) i d' :
  DealInfo.setState s <$> l' = DealInfo.setState s <$> l →
  l' !! i = Some d' →
  ∃ d, l !! i = Some d ∧ DealInfo.setState s d' = DealInfo.setState s d.
Proof.
  intros Heq Hl'.
  assert (H : (DealInfo.setState s <$> l') !! i
              = (DealInfo.setState s <$> l) !! i) by (rewrite Heq; done).
  rewrite !list_lookup_fmap, Hl' in H.
  destruct (l !! i) as [d|]; [|discriminate].
  exists d. split; [reflexivity|]. cbn [fmap option_fmap option_map] in H.
  congruence.
Qed.

Lemma mineTipset_deal_ids n b b' o :
  dealIdsInOrder b → mineTipset n b = (b', o) → dealIdsInOrder b'.
Proof.
  intros Hids Hrun i d' Hd'.
  destruct (mineTipset_deals_others _ _ _ _ Validating Hrun) as (Heq & _).
  destruct (others_lookup _ _ _ _ _ Heq Hd') as (d & Hd & Hsame).
  rewrite <- (Hids _ _ Hd).
  apply (f_equal DealInfo.dealId) in Hsame. exact Hsame.
Qed.

End DealInvariants.

(** * The whole of [startDeal] *)

Section StartDealOutcomes.
Context {E : Env}.

Lemma mineUntilActive_invariant (I : Blockchain → Prop) :
  (∀ b b' o, I b → mineTipset 1 b = (b', o) → I b') →
  ∀ fuel deal b b' o, I b → mineUntilActive fuel deal b = (b', o) → I b'.
Proof.
  intros Hmine fuel deal.
  induction fuel as [|fuel IH]; intros b b' o Hb; cbn [mineUntilActive]; step.
  - destruct (deals b !! deal) as [d|]; [|intros [= <- <-]; exact Hb].
    destruct (decide (DealInfo.state d = Active));
      intros [= <- <-]; exact Hb.
  - destruct (deals b !! deal) as [d|]; [|intros [= <- <-]; exact Hb].
    destruct (decide (DealInfo.state d = Active));
      [intros [= <- <-]; exact Hb|].
    destruct (mineTipset 1 b) as [b1 o1] eqn:Hrun.
    pose proof (Hmine _ _ _ Hb Hrun) as Hb1.
    destruct o1 as [[]|e| |]; try (intros [= <- <-]; exact Hb1).
    apply IH. exact Hb1.
Qed.

Lemma getIPFSObjectSize_state cid b b' o :
  getIPFSObjectSize cid b = (b', o) → b' = b.
Proof.
  unfold getIPFSObjectSize. step.
  destruct (ipfsNode b); cbn [negb]; [|congruence].
  destruct (objectStat cid); step; congruence.
Qed.

(** A property of the engine that mining keeps, that does not look at
    the account manager or the trace, and that registering a deal keeps,
    is kept by [startDeal] on every way it can end. *)
Lemma startDeal_invariant (I : Blockchain → Prop) fuel proposal b b' o :
  (∀ b b' o, I b → mineTipset 1 b = (b', o) → I b') →
  (∀ b am, I b → I (setAccountManager am b)) →
  (∀ b t, I b → I (setTrace t b)) →
  (∀ am signature dealSize,
     I b → I (registered proposal am signature dealSize b)) →
  I b → startDeal fuel proposal b = (b', o) → I b'.
Proof.
  intros Hmine Ham Htr Hreg Hb. unfold startDeal.
  destruct (StartDealParams.wallet proposal) as [wallet|];
    [|intros [= <- <-]; exact Hb].
  set (rootCid := CID.value _).
  unfold bind at 1.
  destruct (getIPFSObjectSize rootCid b) as [b0 o0] eqn:Hsize.
  apply getIPFSObjectSize_state in Hsize as ->.
  destruct o0 as [size|e| |]; try (intros [= <- <-]; exact Hb).
  step.
  destruct (getAccount (accountManager b) (Address.value wallet))
    as [account am] eqn:Hacc.
  fields.
  destruct (Address.privateKey (Account.address account));
    [|intros [= <- <-]; apply Ham; exact Hb].
  destruct (signProposal (Account.address account) proposal)
    as [e|signature]; step; [intros [= <- <-]; apply Ham; exact Hb|].
  set (pieceSize := StorageMarketDataRef.pieceSize _).
  match goal with
  | |- context [(if pieceSize =? 0 then ?m1 else ?m2) ?b1] =>
    destruct ((if pieceSize =? 0 then m1 else m2) b1) as [b2 o2] eqn:Hds;
    assert (b2 = b1) as ->
  end.
  { destruct (pieceSize =? 0).
    - eapply getIPFSObjectSize_state. exact Hds.
    - revert Hds. step. congruence. }
  destruct o2 as [dealSize|e| |]; try (intros [= <- <-]; apply Ham; exact Hb).
  fields.
  change (setInProcessDeals _ _)
    with (registered proposal am signature dealSize b).
  destruct ((if blockTime b =? 0
             then mineUntilActive fuel (length (deals b))
             else λ b0, (b0, Return tt))
              (registered proposal am signature dealSize b))
    as [bmid omid] eqn:Hmid.
  assert (Imid : I bmid).
  { destruct (blockTime b =? 0).
    - eapply (mineUntilActive_invariant I Hmine); [|exact Hmid].
      apply Hreg. exact Hb.
    - injection Hmid as <- _. apply Hreg. exact Hb. }
  destruct omid as [[]|e| |]; try (intros [= <- <-]; exact Imid).
  destruct (deals bmid !! length (deals b)) as [deal|];
    [|intros [= <- <-]; exact Imid].
  destruct (transferFunds (accountManager bmid) _ _ _) as [successful am2].
  fields. intros [= <- <-]. apply Htr, Ham. exact Imid.
Qed.

Lemma registered_chain_stored proposal am signature dealSize b :
  chainStored b → chainStored (registered proposal am signature dealSize b).
Proof. intros H. exact H. Qed.

Lemma registered_deal_ids proposal am signature dealSize b :
  dealIdsInOrder b → dealIdsInOrder (registered proposal am signature dealSize b).
Proof.
  intros Hids i d. unfold registered. fields.
  destruct (decide (i < length (deals b))%nat) as [Hlt|Hge].
  - rewrite lookup_app_l by exact Hlt. apply Hids.
  - rewrite lookup_app_r by lia.
    destruct (i - length (deals b))%nat as [|k] eqn:Hk; [|done].
    intros [= <-]. cbn [DealInfo.dealId].
    replace i with (length (deals b)) by lia. reflexivity.
Qed.

Lemma registered_in_process_sound proposal am signature dealSize b :
  Validating ≠ Active →
  inProcessSound b →
  inProcessSound (registered proposal am signature dealSize b).
Proof.
  intros Hva (Hnd & Hall). unfold inProcessSound, registered. fields. split.
  - apply NoDup_app. split; [exact Hnd|]. split; [|apply NoDup_singleton].
    intros r Hr ->%list_elem_of_singleton.
    destruct (Hall _ Hr) as (d & Hd & _).
    apply lookup_lt_Some in Hd. lia.
  - intros r [Hr | ->%list_elem_of_singleton]%elem_of_app.
    + destruct (Hall _ Hr) as (d & Hd & Hna). exists d.
      split; [|exact Hna]. rewrite lookup_app_l; [exact Hd|].
      eapply lookup_lt_Some. exact Hd.
    + eexists. split; [apply list_lookup_middle; reflexivity|]. exact Hva.
Qed.

(** X9.  [mineTipset] keeps the deal ids in order, however it ends: the
    deal at index [i] still has the id [i + 1], so no two deals share an
    id. *)
Theorem mineTipset_keeps_deal_ids n b b' o :
  dealIdsInOrder b → mineTipset n b = (b', o) →
  dealIdsInOrder b' ∧
  ∀ i j d d', deals b' !! i = Some d → deals b' !! j = Some d' →
              DealInfo.dealId d = DealInfo.dealId d' → i = j.
Proof.
  intros Hb Hrun. pose proof (mineTipset_deal_ids _ _ _ _ Hb Hrun) as Hb'.
  split; [exact Hb'|]. intros i j d d' Hi Hj Heq.
  rewrite (Hb' _ _ Hi), (Hb' _ _ Hj) in Heq. lia.
Qed.

(** X10.  How [startDeal] refuses a proposal.  Without a wallet it
    throws at once and changes nothing.  With a node running and an
    object whose stat fails it throws the error of the stat and changes
    nothing.  Otherwise, when the account of the wallet has no private
    key, or when signing the proposal fails, it throws after [getAccount]
    only: no deal is registered and no funds move. *)
Theorem startDeal_rejections fuel proposal b :
  let rootCid :=
    CID.value (RootCID.root
                 (StorageMarketDataRef.root (StartDealParams.data proposal))) in
  (StartDealParams.wallet proposal = None →
   startDeal fuel proposal b = (b, Throw MissingWallet)) ∧
  (∀ wallet,
     StartDealParams.wallet proposal = Some wallet →
     ipfsNode b = true → objectStat rootCid = None →
     startDeal fuel proposal b = (b, Throw (StatFailed rootCid))) ∧
  (∀ wallet,
     StartDealParams.wallet proposal = Some wallet →
     ipfsNode b = false ∨ is_Some (objectStat rootCid) →
     let account := (getAccount (accountManager b) (Address.value wallet)).1 in
     let b1 :=
       setAccountManager
         (getAccount (accountManager b) (Address.value wallet)).2 b in
     (Address.privateKey (Account.address account) = None →
      startDeal fuel proposal b
      = (b1, Throw (UnknownPrivateKey (Address.value wallet)))) ∧
     (∀ e, is_Some (Address.privateKey (Account.address account)) →
           signProposal (Account.address account) proposal = inl e →
           startDeal fuel proposal b = (b1, Throw e))).
Proof.
  intros rootCid. unfold startDeal. fold rootCid. split; [|split].
  - intros ->. reflexivity.
  - intros wallet -> Hnode Hstat. unfold getIPFSObjectSize. step.
    rewrite Hnode, Hstat. reflexivity.
  - intros wallet -> Hsize. cbv zeta.
    assert (Hs : ∃ size, getIPFSObjectSize rootCid b = (b, Return size)).
    { unfold getIPFSObjectSize. step.
      destruct Hsize as [-> | [size Hs]]; cbn [negb]; [eauto|].
      destruct (ipfsNode b); cbn [negb]; [rewrite Hs|]; eauto. }
    destruct Hs as (size & Hs).
    destruct (getAccount (accountManager b) (Address.value wallet))
      as [account am] eqn:Hacc.
    fields. split.
    + intros Hkey. unfold bind at 1. rewrite Hs.
      unfold bind at 1. unfold getAccountM. rewrite Hacc. fields.
      rewrite Hkey. reflexivity.
    + intros e [key Hkey] Hsig. unfold bind at 1. rewrite Hs.
      unfold bind at 1. unfold getAccountM. rewrite Hacc. fields.
      rewrite Hkey. step. rewrite Hsig. reflexivity.
Qed.

End StartDealOutcomes.

(** * The message pool on every outcome *)

Section PoolOutcomes.
Context {E : Env}.

(** The engine after a message has entered the pool. *)
Lemma pushSigned_run signedMessage acquireLock b :
  checkMessage signedMessage = None →
  acquireLock = false ∨ messagePoolLock b ≠ 0%nat →
  pushSigned signedMessage acquireLock b
  = (setScheduledMines
       (if blockTime b =? 0 then S (scheduledMines b) else scheduledMines b)
       (setMessagePool (messagePool b ++ [signedMessage]) b),
     Return (RootCID.mk (signedMessageCid signedMessage))).
Proof.
  intros Hchk Hlock. unfold pushSigned. rewrite Hchk.
  destruct acquireLock.
  - destruct Hlock as [|Hlock]; [discriminate|].
    destruct (messagePoolLock b) as [|j] eqn:Hj; [done|].
    step. rewrite Hj. fields.
    destruct (blockTime b =? 0); fields; rewrite <- Hj; reflexivity.
  - step. destruct (blockTime b =? 0); fields; destruct b; reflexivity.
Qed.

(** X11.  [pushSigned] on every outcome.  A message that [checkMessage]
    rejects is thrown back and nothing changes.  An accepted message with
    [acquireLock] set waits for ever on a pool lock that is held, and
    nothing changes.  Otherwise the message is appended at the end of the
    pool, its CID is returned, the pool lock is as before, and a call of
    [mineTipset] is started exactly when the block time is zero. *)
Theorem pushSigned_outcomes signedMessage acquireLock b :
  (∀ error, checkMessage signedMessage = Some error →
            pushSigned signedMessage acquireLock b = (b, Throw error)) ∧
  (checkMessage signedMessage = None →
   (acquireLock = true → messagePoolLock b = 0%nat →
    pushSigned signedMessage acquireLock b = (b, Pending)) ∧
   (acquireLock = false ∨ messagePoolLock b ≠ 0%nat →
    pushSigned signedMessage acquireLock b
    = (setScheduledMines
         (if blockTime b =? 0 then S (scheduledMines b) else scheduledMines b)
         (setMessagePool (messagePool b ++ [signedMessage]) b),
       Return (RootCID.mk (signedMessageCid signedMessage))))).
Proof.
  split.
  - intros error Hchk. unfold pushSigned. rewrite Hchk. reflexivity.
  - intros Hchk. split; [|apply pushSigned_run; exact Hchk].
    intros -> Hlock. unfold pushSigned. rewrite Hchk. step.
    rewrite Hlock. reflexivity.
Qed.

(** X12.  [push] on every outcome.  A call that returns has appended
    the returned message to the pool and, with a block time of zero,
    started one [mineTipset].  A call that throws has changed nothing, or
    (after the four checks, with the pool lock free) only what
    [getAccount] does to the account manager: the pool is as before and
    the pool lock is free again.  A call stays pending only on a pool
    lock that is held, and then nothing has changed. *)
Theorem push_outcomes message spec b :
  let message' := fillGasInformation message spec in
  let am := (getAccount (accountManager b) (Message.from message')).2 in
  match (push message spec b).2 with
  | Return signedMessage =>
    (push message spec b).1
    = setScheduledMines
        (if blockTime b =? 0 then S (scheduledMines b) else scheduledMines b)
        (setMessagePool (messagePool b ++ [signedMessage])
           (setAccountManager am b))
  | Throw e =>
    (push message spec b).1 = b ∨
    (validated message ∧ messagePoolLock b ≠ 0%nat ∧
     (push message spec b).1 = setAccountManager am b)
  | Pending =>
    (push message spec b).1 = b ∧ validated message ∧ messagePoolLock b = 0%nat
  | OutOfFuel => False
  end.
Proof.
  intros message' am. subst am. unfold push.
  destruct (Message.method message =? 0) eqn:Hm; cbn [negb]; [|left; reflexivity].
  destruct (Message.nonce message =? 0) eqn:Hn; cbn [negb]; [|left; reflexivity].
  destruct (invalidProtocol (parseProtocol (Message.from message))) eqn:Hf;
    [left; reflexivity|].
  destruct (invalidProtocol (parseProtocol (Message.to message))) eqn:Ht;
    [left; reflexivity|].
  assert (Hv : validated message).
  { split; [lia|]. split; [lia|]. split; assumption. }
  fold message'. unfold pushLocked. step.
  destruct (messagePoolLock b) as [|j] eqn:Hj; fields.
  { split; [reflexivity|]. split; [exact Hv | reflexivity]. }
  destruct (getAccount (accountManager b) (Message.from message'))
    as [account am] eqn:Hacc. fields.
  match goal with |- context [if ?c then _ else _] => destruct c end.
  { fields. right. split; [exact Hv|]. split; [done|].
    rewrite <- Hj. destruct b; reflexivity. }
  destruct (signMessage _ _) as [e|signature]; fields.
  { right. split; [exact Hv|]. split; [done|].
    rewrite <- Hj. destruct b; reflexivity. }
  unfold pushSigned.
  destruct (checkMessage _) as [error|]; step.
  { right. split; [exact Hv|]. split; [done|].
    rewrite <- Hj. destruct b; reflexivity. }
  destruct (blockTime b =? 0); fields; rewrite <- Hj; reflexivity.
Qed.

End PoolOutcomes.

(** * Shutting down *)

Section StopProperties.
Context {E : Env}.

(** X13.  [stop] on an engine at rest takes both semaphores and never
    gives them back: afterwards every [mineTipset], every [pushSigned]
    that takes the lock, every [push] that passes its checks and every
    further [stop] stays pending and changes nothing. *)
Theorem stop_blocks_engine ipfsServerStop b :
  miningLock b = 1%nat → messagePoolLock b = 1%nat →
  ∃ b',
    stop ipfsServerStop b = (b', Return tt) ∧
    b' = setIpfsNode (ipfsServerStop (ipfsNode b))
           (setLock MessagePoolLock 0 (setLock MiningLock 0 b)) ∧
    (∀ n, mineTipset n b' = (b', Pending)) ∧
    (∀ signedMessage,
       checkMessage signedMessage = None →
       pushSigned signedMessage true b' = (b', Pending)) ∧
    (∀ message spec,
       validated message → push message spec b' = (b', Pending)) ∧
    (∀ f, stop f b' = (b', Pending)).
Proof.
  intros Hm Hp. eexists. split; [|split; [reflexivity|]].
  { unfold stop. step. rewrite Hm. fields. rewrite Hp. fields. reflexivity. }
  split; [|split; [|split]].
  - intros n. apply mineTipset_mining_locked. reflexivity.
  - intros signedMessage Hchk. unfold pushSigned. rewrite Hchk. reflexivity.
  - intros message spec (H1 & H2 & H3 & H4). unfold push.
    rewrite H1, H2, H3, H4. reflexivity.
  - intros f. reflexivity.
Qed.

End StopProperties.

(** * The object store and the file system *)

Section StoreProperties.
Context {E : Env}.

Lemma getIPFSObjectSize_Return cid b b' size :
  getIPFSObjectSize cid b = (b', Return size) →
  b' = b ∧ if ipfsNode b then objectStat cid = Some size else size = 0.
Proof.
  unfold getIPFSObjectSize. step.
  destruct (ipfsNode b); cbn [negb]; [|intros [= <- <-]; done].
  destruct (objectStat cid); step; [|discriminate].
  intros [= <- <-]. done.
Qed.

(** X14.  [createQueryOffer] and [hasLocal] change nothing.  An offer
    names the miner [t01000] and a minimal price of twice its size.
    With a node running the size is the one of the stat and [hasLocal]
    answers true; when the stat fails [createQueryOffer] throws its error
    and [hasLocal] answers false.  Without a node [hasLocal] answers
    false and an offer of size zero is still made. *)
Theorem createQueryOffer_outcomes rootCid b :
  let cid := CID.value (RootCID.root rootCid) in
  (createQueryOffer rootCid b).1 = b ∧ (hasLocal cid b).1 = b ∧
  match (createQueryOffer rootCid b).2 with
  | Return offer =>
    QueryOffer.root offer = rootCid ∧ QueryOffer.miner offer = "t01000" ∧
    QueryOffer.minPrice offer = 2 * QueryOffer.size offer ∧
    (if ipfsNode b
     then objectStat cid = Some (QueryOffer.size offer) ∧
          (hasLocal cid b).2 = Return true
     else QueryOffer.size offer = 0 ∧ (hasLocal cid b).2 = Return false)
  | Throw e =>
    e = StatFailed cid ∧ ipfsNode b = true ∧ objectStat cid = None ∧
    (hasLocal cid b).2 = Return false
  | _ => False
  end.
Proof.
  intros cid. unfold createQueryOffer, hasLocal, getIPFSObjectSize. fold cid.
  step. destruct (ipfsNode b); cbn [negb]; fields.
  - destruct (objectStat cid) as [size|] eqn:Hstat; step.
    + do 4 (split; [reflexivity|]). cbn [QueryOffer.minPrice QueryOffer.size].
      split; [lia|]. split; [reflexivity|].
      rewrite bool_decide_eq_true_2; eauto.
    + do 5 (split; [reflexivity|]).
      rewrite bool_decide_eq_false_2; [reflexivity|].
      intros [? ?]; discriminate.
  - do 4 (split; [reflexivity|]). cbn [QueryOffer.minPrice QueryOffer.size].
    split; [lia|]. split; reflexivity.
Qed.

Lemma partial_ne path : path +:+ ".partial" ≠ path.
Proof.
  intros H. apply (f_equal String.length) in H. revert H.
  induction path as [|c path IH]; cbn [String.append String.length];
    [discriminate|].
  intros [= H]. exact (IH H).
Qed.

Lemma downloadFile_cases cid ref b :
  let partial := FileRef.path ref +:+ ".partial" in
  downloadFile cid ref b
  = if ipfsNode b then
      match filesRead cid with
      | None => (opened ref b, Throw (ReadFailed cid))
      | Some chunks =>
        (setTrace (trace (opened ref b) ++ (WriteChunk partial <$> chunks)
                     ++ [Rename partial (FileRef.path ref)])
           (setFiles (<[FileRef.path ref := chunks]>
                        (delete partial (files b)))
              (opened ref b)),
         Return tt)
      end
    else (b, Throw IPFSNotRunning).
Proof.
  intros partial. unfold downloadFile. step.
  destruct (ipfsNode b) eqn:Hnode; cbn [negb]; [|reflexivity].
  fold partial. unfold opened. fold partial.
  set (dir := dirname (FileRef.path ref)).
  destruct (bool_decide (dir ∈ dirs b) || bool_decide (is_Some (files b !! dir)));
    cbn [negb]; step.
  - destruct (filesRead cid) as [chunks|]; step.
    + erewrite writeChunks_run; cycle 1.
      { fields. apply lookup_insert_eq. }
      fields. rewrite lookup_insert_eq. cbn [default app].
      rewrite insert_insert_eq, delete_insert_eq, <- !app_assoc.
      reflexivity.
    + reflexivity.
  - destruct (filesRead cid) as [chunks|]; step.
    + erewrite writeChunks_run; cycle 1.
      { fields. apply lookup_insert_eq. }
      fields. rewrite lookup_insert_eq. cbn [default app].
      rewrite insert_insert_eq, delete_insert_eq, <- !app_assoc.
      reflexivity.
    + rewrite <- !app_assoc. reflexivity.
Qed.

(** X15.  The files after [downloadFile].  Of the files only
    [ref.path] and [ref.path.partial] can change.  Without a node the
    call throws and changes nothing.  A call that returns had a node,
    has written the chunks of the object to [ref.path] and has left no
    partial file.  A call that does not return has not touched
    [ref.path]. *)
Theorem downloadFile_files cid ref b :
  let path := FileRef.path ref in
  let partial := path +:+ ".partial" in
  let b' := (downloadFile cid ref b).1 in
  (∀ other, other ≠ path → other ≠ partial →
            files b' !! other = files b !! other) ∧
  (ipfsNode b = false → downloadFile cid ref b = (b, Throw IPFSNotRunning)) ∧
  match (downloadFile cid ref b).2 with
  | Return _ =>
    ipfsNode b = true ∧ files b' !! partial = None ∧
    ∃ chunks, filesRead cid = Some chunks ∧ files b' !! path = Some chunks
  | _ => files b' !! path = files b !! path
  end.
Proof.
  intros path partial b'. subst b'.
  pose proof (partial_ne path) as Hne. fold partial in Hne.
  rewrite (downloadFile_cases cid ref b). fold path partial.
  destruct (ipfsNode b); [|fields; done].
  destruct (filesRead cid) as [chunks|]; unfold opened; fold path partial; fields.
  - split.
    + intros other H1 H2.
      rewrite lookup_insert_ne, lookup_delete_ne by done. reflexivity.
    + split; [discriminate|]. split; [reflexivity|]. split.
      * rewrite lookup_insert_ne, lookup_delete_eq by done. reflexivity.
      * exists chunks. split; [reflexivity|]. apply lookup_insert_eq.
  - split.
    + intros other H1 H2. rewrite lookup_insert_ne by done. reflexivity.
    + split; [discriminate|]. rewrite lookup_insert_ne by done. reflexivity.
Qed.

End StoreProperties.

(** * The deal that [startDeal] registers *)

Section StartDealRegisters.
Context {E : Env}.

(** The last steps of a call of [startDeal] that returns. *)
Lemma startDeal_Return fuel proposal b b' cid :
  startDeal fuel proposal b = (b', Return cid) →
  let rootCid :=
    CID.value (RootCID.root
                 (StorageMarketDataRef.root (StartDealParams.data proposal))) in
  let pieceSize := StorageMarketDataRef.pieceSize (StartDealParams.data proposal) in
  ∃ am signature dealSize bmid am2 events,
    (if pieceSize =? 0 then getIPFSObjectSize rootCid else ret pieceSize)
      (setAccountManager am b) = (setAccountManager am b, Return dealSize) ∧
    (if blockTime b =? 0 then mineUntilActive fuel (length (deals b)) else ret tt)
      (registered proposal am signature dealSize b) = (bmid, Return tt) ∧
    b' = setTrace events (setAccountManager am2 bmid) ∧
    cid = RootCID.mk (CID.mk (dagCborCid signature)).
Proof.
  intros Hrun rootCid pieceSize. revert Hrun. unfold startDeal.
  destruct (StartDealParams.wallet proposal) as [wallet|]; [|discriminate].
  fold rootCid pieceSize.
  unfold bind at 1.
  destruct (getIPFSObjectSize rootCid b) as [b0 [size| | |]] eqn:Hsize;
    try discriminate.
  apply getIPFSObjectSize_state in Hsize as ->.
  step.
  destruct (getAccount (accountManager b) (Address.value wallet))
    as [account am] eqn:Hacc.
  fields.
  destruct (Address.privateKey (Account.address account)); [|discriminate].
  destruct (signProposal (Account.address account) proposal)
    as [e|signature] eqn:Hsig; step; [discriminate|].
  match goal with
  | |- context [(if pieceSize =? 0 then ?m1 else ?m2) ?b1] =>
    destruct ((if pieceSize =? 0 then m1 else m2) b1)
      as [b2 [dealSize| | |]] eqn:Hds; try discriminate;
    assert (b2 = b1) as ->
  end.
  { destruct (pieceSize =? 0).
    - eapply getIPFSObjectSize_state. exact Hds.
    - revert Hds. step. congruence. }
  fields.
  change (setInProcessDeals _ _)
    with (registered proposal am signature dealSize b).
  destruct ((if blockTime b =? 0
             then mineUntilActive fuel (length (deals b))
             else λ b0, (b0, Return tt))
              (registered proposal am signature dealSize b))
    as [bmid [[]| | |]] eqn:Hmid; try discriminate.
  assert (Hterms : dealTerms <$> deals bmid
                   = dealTerms <$> deals (registered proposal am signature dealSize b)).
  { destruct (blockTime b =? 0).
    - destruct (mineUntilActive_inv _ _ _ _ Hmid) as (Ht & _ & Ha). auto.
    - injection Hmid as <-. reflexivity. }
  destruct (deals bmid !! length (deals b)) as [deal|] eqn:Hdeal;
    [|discriminate].
  pose proof (terms_lookup _ _ _ _ _ Hterms
                (registered_deal proposal am signature dealSize b) Hdeal) as Ht.
  unfold dealTerms in Ht. cbn [DealInfo.proposalCid DealInfo.pricePerEpoch
                                DealInfo.duration] in Ht.
  injection Ht as Hcid Hprice Hduration.
  destruct (transferFunds (accountManager bmid) _ _ _) as [successful am2] eqn:Htr.
  fields. intros [= <- <-].
  exists am, signature, dealSize, bmid, am2. eexists.
  split; [exact Hds|]. split; [exact Hmid|]. split; [reflexivity|].
  destruct (DealInfo.proposalCid deal) as [[c]]. cbn in Hcid. congruence.
Qed.

(** What the instamine loop leaves of the deals. *)
Lemma mineUntilActive_others (s : StorageDealStatus) fuel deal b b' o :
  mineUntilActive fuel deal b = (b', o) →
  DealInfo.setState s <$> deals b' = DealInfo.setState s <$> deals b ∧
  dealsByCid b' = dealsByCid b.
Proof.
  apply (mineUntilActive_invariant
           (λ x, DealInfo.setState s <$> deals x = DealInfo.setState s <$> deals b ∧
                 dealsByCid x = dealsByCid b)); [|done].
  intros b0 b1 o1 (H1 & H2) Hrun.
  destruct (mineTipset_deals_others _ _ _ _ s Hrun) as (H3 & H4 & _).
  split; congruence.
Qed.

(** X16.  The deal that a returning [startDeal] has registered.  There
    is one deal more, at the end; the deals that were there have changed
    at most their state; the index maps the returned proposal CID to the
    new deal.  The new deal carries that CID, the id [deals.length + 1]
    of before the call, the provider [t01000], the piece CID of the
    proposal, and as size the piece size or, when that is zero, the size
    of the object (zero without a node).  With a block time of zero the
    deal is Active, and it is no longer in process if the deals in
    process were sound before the call; otherwise it is in Validating and
    the last of the deals in process. *)
Theorem startDeal_registers fuel proposal b b' cid :
  startDeal fuel proposal b = (b', Return cid) →
  let rootCid :=
    CID.value (RootCID.root
                 (StorageMarketDataRef.root (StartDealParams.data proposal))) in
  let pieceSize := StorageMarketDataRef.pieceSize (StartDealParams.data proposal) in
  let k := length (deals b) in
  length (deals b') = S k ∧
  (∀ i d, deals b !! i = Some d →
          ∃ d', deals b' !! i = Some d' ∧
                DealInfo.setState Active d' = DealInfo.setState Active d) ∧
  dealsByCid b' = <[CID.value (RootCID.root cid) := k]> (dealsByCid b) ∧
  ∃ d,
    deals b' !! k = Some d ∧
    DealInfo.proposalCid d = cid ∧
    DealInfo.dealId d = Z.of_nat k + 1 ∧
    DealInfo.provider d = "t01000" ∧
    DealInfo.pieceCid d
    = StorageMarketDataRef.pieceCid (StartDealParams.data proposal) ∧
    (if pieceSize =? 0
     then if ipfsNode b then objectStat rootCid = Some (DealInfo.size d)
          else DealInfo.size d = 0
     else DealInfo.size d = pieceSize) ∧
    (if blockTime b =? 0
     then DealInfo.state d = Active ∧
          (Validating ≠ Active → inProcessSound b → k ∉ inProcessDeals b')
     else DealInfo.state d = Validating ∧
          deals b' = deals b ++ [d] ∧
          inProcessDeals b' = inProcessDeals b ++ [k]).
Proof.
  intros Hrun rootCid pieceSize k.
  destruct (startDeal_Return _ _ _ _ _ Hrun)
    as (am & signature & dealSize & bmid & am2 & events & Hds & Hmid & -> & ->).
  fold rootCid pieceSize in Hds. fields.
  cbn [RootCID.root CID.value].
  pose proof (registered_deal proposal am signature dealSize b) as Hreg.
  fold k in Hreg, Hmid.
  assert (Hsize : if pieceSize =? 0
                  then if ipfsNode b then objectStat rootCid = Some dealSize
                       else dealSize = 0
                  else dealSize = pieceSize).
  { destruct (pieceSize =? 0).
    - apply getIPFSObjectSize_Return in Hds as (_ & Hds). exact Hds.
    - revert Hds. step. congruence. }
  assert (Hothers :
            DealInfo.setState Active <$> deals bmid
            = DealInfo.setState Active
                <$> deals (registered proposal am signature dealSize b) ∧
            dealsByCid bmid
            = dealsByCid (registered proposal am signature dealSize b)).
  { destruct (blockTime b =? 0).
    - eapply mineUntilActive_others. exact Hmid.
    - injection Hmid as <-. done. }
  destruct Hothers as (Hdeals & Hcids).
  assert (Hlen : length (deals bmid) = S k).
  { apply (f_equal length) in Hdeals. rewrite !length_fmap in Hdeals.
    rewrite Hdeals. unfold registered. fields. rewrite length_app.
    cbn [length]. lia. }
  split; [exact Hlen|]. split.
  { intros i d Hd.
    destruct (lookup_lt_is_Some_2 (deals bmid) i) as [d' Hd'].
    { rewrite Hlen. apply lookup_lt_Some in Hd. lia. }
    exists d'. split; [exact Hd'|].
    destruct (others_lookup _ _ _ _ _ Hdeals Hd') as (d0 & Hd0 & Hsame).
    rewrite Hsame. f_equal.
    revert Hd0. unfold registered. fields.
    rewrite lookup_app_l by (eapply lookup_lt_Some; exact Hd). congruence. }
  split; [rewrite Hcids; reflexivity|].
  destruct (lookup_lt_is_Some_2 (deals bmid) k) as [d Hd]; [lia|].
  exists d. split; [exact Hd|].
  destruct (others_lookup _ _ _ _ _ Hdeals Hd) as (d0 & Hd0 & Hsame).
  rewrite Hreg in Hd0. injection Hd0 as <-.
  split; [apply (f_equal DealInfo.proposalCid) in Hsame; exact Hsame|].
  split; [apply (f_equal DealInfo.dealId) in Hsame; exact Hsame|].
  split; [apply (f_equal DealInfo.provider) in Hsame; exact Hsame|].
  split; [apply (f_equal DealInfo.pieceCid) in Hsame; exact Hsame|].
  split.
  { apply (f_equal DealInfo.size) in Hsame. cbn [DealInfo.size DealInfo.setState] in Hsame.
    rewrite Hsame. exact Hsize. }
  destruct (blockTime b =? 0) eqn:Hbt.
  - destruct (mineUntilActive_inv _ _ _ _ Hmid) as (_ & _ & d1 & Hd1 & Hactive).
    rewrite Hd in Hd1. injection Hd1 as <-.
    split; [exact Hactive|]. intros Hva Hsound Hin.
    assert (Hs : inProcessSound bmid).
    { eapply (mineUntilActive_invariant inProcessSound); [| |exact Hmid].
      - intros b0 b1 o1. apply mineTipset_in_process_sound.
      - apply registered_in_process_sound; assumption. }
    destruct Hs as (_ & Hall). destruct (Hall _ Hin) as (d2 & Hd2 & Hna).
    congruence.
  - injection Hmid as <-. rewrite Hreg in Hd. injection Hd as <-.
    split; [reflexivity|]. split; reflexivity.
Qed.

(** What every tipset of a returning instamine loop keeps, the loop
    keeps. *)
Lemma mineUntilActive_returning (I : Blockchain → Prop) :
  (∀ b b', I b → mineTipset 1 b = (b', Return tt) → I b') →
  ∀ fuel deal b b', I b → mineUntilActive fuel deal b = (b', Return tt) → I b'.
Proof.
  intros Hmine fuel deal.
  induction fuel as [|fuel IH]; intros b b' Hb; cbn [mineUntilActive]; step.
  - destruct (deals b !! deal) as [d|]; [|discriminate].
    destruct (decide (DealInfo.state d = Active)); [|discriminate].
    intros [= <-]. exact Hb.
  - destruct (deals b !! deal) as [d|]; [|discriminate].
    destruct (decide (DealInfo.state d = Active)); [intros [= <-]; exact Hb|].
    destruct (mineTipset 1 b) as [b1 [[]|e| |]] eqn:Hrun; try discriminate.
    apply IH. exact (Hmine _ _ Hb Hrun).
Qed.

(** X8.  What [startDeal] keeps.  On every way it can end, the instamine
    loop included, the deal at index [i] has the id [i + 1] and (where
    Validating is not Active) the deals in process are distinct, exist
    and are not Active.  When it returns, a stored chain that was
    consistent is consistent again. *)
Theorem startDeal_keeps_invariants fuel proposal b b' o :
  startDeal fuel proposal b = (b', o) →
  (dealIdsInOrder b → dealIdsInOrder b') ∧
  (Validating ≠ Active → inProcessSound b → inProcessSound b') ∧
  (∀ cid, o = Return cid → chainStored b → chainStored b').
Proof.
  intros Hrun. split; [|split].
  - intros Hb.
    apply (startDeal_invariant dealIdsInOrder fuel proposal b b' o);
      [|auto|auto| |exact Hb|exact Hrun].
    + intros b0 b1 o1. apply mineTipset_deal_ids.
    + intros. apply registered_deal_ids. assumption.
  - intros Hva Hb.
    apply (startDeal_invariant inProcessSound fuel proposal b b' o);
      [|auto|auto| |exact Hb|exact Hrun].
    + intros b0 b1 o1. apply mineTipset_in_process_sound.
    + intros. apply registered_in_process_sound; assumption.
  - intros cid -> Hb.
    destruct (startDeal_Return _ _ _ _ _ Hrun)
      as (am & signature & dealSize & bmid & am2 & events & _ & Hmid & -> & _).
    assert (Hreg : chainStored (registered proposal am signature dealSize b))
      by (apply registered_chain_stored; exact Hb).
    assert (Imid : chainStored bmid).
    { destruct (blockTime b =? 0).
      - eapply (mineUntilActive_returning chainStored); [|exact Hreg|exact Hmid].
        intros b0 b1 H0 H1. exact (proj1 (mineTipset_chain_stored _ _ _ H0 H1)).
      - injection Hmid as <-. exact Hreg. }
    exact Imid.
Qed.

End StartDealRegisters.

(** * [retrieve] on every outcome *)

Section RetrieveOutcomes.
Context {E : Env}.



End RetrieveOutcomes.

(** * Properties of [AccessLists.getAccessListData] *)

Section AccessListProperties.
Import AccessLists.
Context {I : Imports}.

Lemma pushStorageItems_mapM storageKeys : ∀ storageItems,
  pushStorageItems storageKeys storageItems
  = (λ buffers, storageItems ++ buffers) <$> mapM toBuffer storageKeys.
Proof.
  induction storageKeys as [|key rest IH]; intros storageItems.
  - cbn. rewrite app_nil_r. reflexivity.
  - cbn [pushStorageItems mapM]. destruct (toBuffer key) as [buffer|]; [|reflexivity].
    cbn. rewrite IH. destruct (mapM toBuffer rest); cbn; [|reflexivity].
    rewrite <- app_assoc. reflexivity.
Qed.

(** The sum of the lengths that the loops add to [slots]. *)
Lemma totalFee_slots (counts : list nat) :
  totalFee counts
  = Z.of_nat (length counts) * ACCESS_LIST_ADDRESS_GAS
    + foldr (λ n slots, Z.of_nat n + slots) 0 counts * ACCESS_LIST_STORAGE_KEY_GAS.
Proof.
  induction counts as [|n counts IH]; cbn [totalFee foldr length].
  - lia.
  - fold (totalFee counts). rewrite IH. lia.
Qed.

Lemma pushBufferItems_mapM items : ∀ slots newAccessList,
  pushBufferItems items slots newAccessList
  = (λ buffers,
       (slots + foldr (λ n slots, Z.of_nat n + slots) 0
                  ((λ item, length (storageKeys item)) <$> items),
        newAccessList ++ buffers)) <$> mapM bufferItem items.
Proof.
  induction items as [|item rest IH]; intros slots newAccessList.
  - cbn. rewrite app_nil_r, Z.add_0_r. reflexivity.
  - cbn [pushBufferItems mapM fmap list_fmap foldr].
    rewrite pushStorageItems_mapM.
    pose proof (eq_refl (bufferItem item)) as Hitem.
    unfold bufferItem at 2 in Hitem.
    destruct (toBuffer (address item)) as [addressBuffer|];
      [|rewrite Hitem; reflexivity].
    cbn [mbind option_bind] in Hitem |- *.
    destruct (mapM toBuffer (storageKeys item)) as [storageItems|];
      rewrite Hitem; [|reflexivity].
    cbn [fmap option_fmap option_map mbind option_bind app]. rewrite IH.
    destruct (mapM bufferItem rest) as [buffers|]; [|reflexivity].
    cbn [fmap option_fmap option_map mbind option_bind mret option_ret].
    rewrite <- app_assoc. do 2 f_equal. lia.
Qed.

Lemma pushStorageKeys_fmap data1 : ∀ storageKeys,
  pushStorageKeys data1 storageKeys = storageKeys ++ (bufferToHex <$> data1).
Proof.
  induction data1 as [|buffer rest IH]; intros storageKeys;
    cbn [pushStorageKeys fmap list_fmap].
  - rewrite app_nil_r. reflexivity.
  - rewrite IH, <- app_assoc. reflexivity.
Qed.

Lemma pushJsonItems_fmap bufferAccessList : ∀ slots json,
  pushJsonItems bufferAccessList slots json
  = (slots + foldr (λ n slots, Z.of_nat n + slots) 0
               ((λ data, length data.2) <$> bufferAccessList),
     json ++ (jsonItem <$> bufferAccessList)).
Proof.
  induction bufferAccessList as [|data rest IH]; intros slots json;
    cbn [pushJsonItems fmap list_fmap foldr].
  - rewrite app_nil_r, Z.add_0_r. reflexivity.
  - rewrite IH, pushStorageKeys_fmap, <- app_assoc. cbn [app].
    f_equal. lia.
Qed.

(** The first branch in one piece. *)
Lemma getAccessListData_first items :
  isAccessList (inl items) = true →
  getAccessListData (Json items)
  = (λ buffers,
       mkData items buffers
         (totalFee ((λ item, length (storageKeys item)) <$> items)))
      <$> mapM bufferItem items.
Proof.
  intros Hguard. cbv beta iota zeta delta [getAccessListData]. rewrite Hguard.
  rewrite pushBufferItems_mapM.
  destruct (mapM bufferItem items) as [buffers|] eqn:Hmap; [|reflexivity].
  cbn [fmap option_fmap option_map mbind option_bind app].
  rewrite totalFee_slots, length_fmap.
  apply length_mapM in Hmap. rewrite Hmap. do 2 f_equal; lia.
Qed.

(** The second branch in one piece. *)
Lemma getAccessListData_second bufferAccessList :
  isAccessList (inr bufferAccessList) = false →
  getAccessListData (Buffers bufferAccessList)
  = Some (mkData (jsonItem <$> bufferAccessList) bufferAccessList
            (totalFee ((λ data, length data.2) <$> bufferAccessList))).
Proof.
  intros Hguard. cbv beta iota zeta delta [getAccessListData]. rewrite Hguard.
  rewrite pushJsonItems_fmap, totalFee_slots, length_fmap.
  cbn [app]. do 2 f_equal; lia.
Qed.

Lemma bufferItem_converts item data :
  bufferItem item = Some data ↔ converts item data.
Proof.
  unfold bufferItem, converts. destruct data as [a ks]. cbn [fst snd].
  destruct (toBuffer (address item)) as [a'|]; cbn [mbind option_bind].
  - destruct (mapM toBuffer (storageKeys item)) as [ks'|] eqn:Hks;
      cbn [mbind option_bind].
    + apply mapM_Some in Hks. split.
      * intros [= <- <-]. done.
      * intros ([= <-] & Hall). f_equal. f_equal.
        apply mapM_Some in Hall. apply mapM_Some in Hks. congruence.
    + split; [discriminate|]. intros (_ & Hall).
      apply mapM_Some in Hall. congruence.
  - split; [discriminate | intros [? _]; discriminate].
Qed.

Lemma bufferItem_key_counts items buffers :
  mapM bufferItem items = Some buffers →
  (λ data, length data.2) <$> buffers
  = (λ item, length (storageKeys item)) <$> items.
Proof.
  intros H. apply mapM_Some in H.
  induction H as [|item data items buffers H _ IH]; [reflexivity|].
  cbn [fmap list_fmap]. f_equal; [|exact IH].
  apply bufferItem_converts in H as (_ & H).
  symmetry. eapply Forall2_length. exact H.
Qed.

Lemma jsonItem_key_counts (bufferAccessList : list (Buffer * list Buffer)) :
  (λ item, length (storageKeys item)) <$> (jsonItem <$> bufferAccessList)
  = (λ data, length data.2) <$> bufferAccessList.
Proof.
  induction bufferAccessList as [|data rest IH]; [reflexivity|].
  cbn [fmap list_fmap jsonItem storageKeys]. f_equal; [|exact IH].
  apply length_fmap.
Qed.

(** What every call that returns gives, whatever branch it took. *)
Lemma getAccessListData_Some input d :
  getAccessListData input = Some d →
  (∃ items, AccessListJSON d = items ∧ mapM bufferItem items = Some (accessList d)
            ∧ dataFeeEIP2930 d
              = totalFee ((λ item, length (storageKeys item)) <$> items)) ∨
  (AccessListJSON d = jsonItem <$> accessList d ∧
   dataFeeEIP2930 d = totalFee ((λ data, length data.2) <$> accessList d)).
Proof.
  assert (Hempty : ∀ g, getAccessListData (Buffers []) = Some d →
            isAccessList (inr []) = g →
            AccessListJSON d = jsonItem <$> accessList d ∧
            dataFeeEIP2930 d = totalFee ((λ data, length data.2) <$> accessList d)).
  { intros g. cbv beta iota zeta delta [getAccessListData]. intros H _.
    destruct (isAccessList (inr [])); injection H as <-; done. }
  destruct input as [|items|bufferAccessList].
  - intros [= <-]. right. done.
  - destruct (isAccessList (inl items)) eqn:Hguard.
    + rewrite (getAccessListData_first items Hguard).
      destruct (mapM bufferItem items) as [buffers|] eqn:Hmap; [|discriminate].
      intros [= <-]. left. exists items. done.
    + cbv beta iota zeta delta [getAccessListData]. rewrite Hguard.
      destruct items; [|discriminate]. intros [= <-]. right. done.
  - destruct (isAccessList (inr bufferAccessList)) eqn:Hguard.
    + destruct bufferAccessList; [|cbv beta iota zeta delta [getAccessListData]; rewrite Hguard; discriminate].
      intros H. right. eapply Hempty; [exact H | reflexivity].
    + rewrite (getAccessListData_second _ Hguard). intros [= <-]. right. done.
Qed.

(** X18.  [getAccessListData] on a JSON access list (one that
    [isAccessList] accepts).  When it returns, [AccessListJSON] is the
    list that was passed and [accessList] holds, item by item and key by
    key, what [toBuffer] makes of the strings.  It throws exactly when
    [toBuffer] throws on an address or on a storage key of the list. *)
Theorem getAccessListData_json (items : list AccessListItem) :
  isAccessList (inl items) = true →
  (∀ d, getAccessListData (Json items) = Some d →
        AccessListJSON d = items ∧ Forall2 converts items (accessList d)) ∧
  (getAccessListData (Json items) = None ↔
   ∃ item, item ∈ items ∧
           (toBuffer (address item) = None ∨
            ∃ key, key ∈ storageKeys item ∧ toBuffer key = None)).
Proof.
  intros Hguard. rewrite (getAccessListData_first items Hguard). split.
  - intros d. destruct (mapM bufferItem items) as [buffers|] eqn:Hmap;
      [|discriminate].
    intros [= <-]. split; [reflexivity|]. cbn [accessList].
    apply mapM_Some in Hmap. eapply Forall2_impl; [exact Hmap|].
    intros item data. apply bufferItem_converts.
  - rewrite fmap_None, mapM_None, Exists_exists. unfold bufferItem.
    split.
    + intros (item & Hin & Hnone). exists item. split; [exact Hin|].
      destruct (toBuffer (address item)); [right | left; reflexivity].
      cbn [mbind option_bind] in Hnone.
      destruct (mapM toBuffer (storageKeys item)) eqn:Hks; [discriminate|].
      apply mapM_None, Exists_exists in Hks. exact Hks.
    + intros (item & Hin & Hbad). exists item. split; [exact Hin|].
      destruct Hbad as [-> | Hkey]; [reflexivity|].
      destruct (toBuffer (address item)); [|reflexivity].
      cbn [mbind option_bind].
      apply Exists_exists, mapM_None in Hkey. rewrite Hkey. reflexivity.
Qed.

(** X19.  [getAccessListData] on a list of buffers (one that
    [isAccessList] does not accept) never throws: [accessList] is the
    list that was passed, [AccessListJSON] is its image under
    [bufferToHex], and the fee is an address cost per item and a key cost
    per storage key.  On [undefined] and on an empty array both lists are
    empty and the fee is zero, whatever [isAccessList] answers. *)
Theorem getAccessListData_buffers :
  getAccessListData Undefined = Some (mkData [] [] 0) ∧
  (∀ accessList, accessList = Json [] ∨ accessList = Buffers [] →
                 getAccessListData accessList = Some (mkData [] [] 0)) ∧
  (∀ bufferAccessList,
     isAccessList (inr bufferAccessList) = false →
     getAccessListData (Buffers bufferAccessList)
     = Some (mkData (jsonItem <$> bufferAccessList) bufferAccessList
               (totalFee ((λ data, length data.2) <$> bufferAccessList)))).
Proof.
  split; [reflexivity|]. split; [|apply getAccessListData_second].
  intros ? [-> | ->]; cbv beta iota zeta delta [getAccessListData].
  - destruct (isAccessList (inl [])); reflexivity.
  - destruct (isAccessList (inr [])); reflexivity.
Qed.

(** X20.  Whatever the input, when [getAccessListData] returns, the
    two lists it returns have the same number of items, with the same
    number of storage keys item by item, and [dataFeeEIP2930] is the sum
    over the items of the address cost plus the key cost per storage key;
    with costs that are not negative the fee is not negative. *)
Theorem getAccessListData_fee input d :
  getAccessListData input = Some d →
  dataFeeEIP2930 d = totalFee ((λ data, length data.2) <$> accessList d) ∧
  (λ item, length (storageKeys item)) <$> AccessListJSON d
  = (λ data, length data.2) <$> accessList d ∧
  length (AccessListJSON d) = length (accessList d) ∧
  (0 ≤ ACCESS_LIST_ADDRESS_GAS → 0 ≤ ACCESS_LIST_STORAGE_KEY_GAS →
   0 ≤ dataFeeEIP2930 d).
Proof.
  intros Hrun.
  assert (Hcounts : (λ item, length (storageKeys item)) <$> AccessListJSON d
                    = (λ data, length data.2) <$> accessList d ∧
                    dataFeeEIP2930 d
                    = totalFee ((λ data, length data.2) <$> accessList d)).
  { destruct (getAccessListData_Some _ _ Hrun)
      as [(items & -> & Hmap & Hfee) | (Hjson & Hfee)].
    - rewrite (bufferItem_key_counts _ _ Hmap). done.
    - rewrite Hjson, jsonItem_key_counts. done. }
  destruct Hcounts as (Hcounts & Hfee).
  split; [exact Hfee|]. split; [exact Hcounts|]. split.
  - apply (f_equal length) in Hcounts. rewrite !length_fmap in Hcounts.
    exact Hcounts.
  - intros Ha Hk. rewrite Hfee.
    generalize ((λ data : Buffer * list Buffer, length data.2) <$> accessList d).
    intros counts. induction counts as [|n counts IH]; cbn [totalFee foldr].
    + lia.
    + fold (totalFee counts). nia.
Qed.

(** X21.  From buffers to JSON and back.  Where [toBuffer] undoes
    [bufferToHex], the JSON list that [getAccessListData] makes of a
    list of buffers, passed to [getAccessListData] again, gives the same
    result: the same buffers, the same JSON and the same fee. *)
Theorem getAccessListData_round_trip (bufferAccessList : list (Buffer * list Buffer)) :
  (∀ buffer, toBuffer (bufferToHex buffer) = Some buffer) →
  isAccessList (inr bufferAccessList) = false →
  isAccessList (inl (jsonItem <$> bufferAccessList)) = true →
  ∃ d, getAccessListData (Buffers bufferAccessList) = Some d ∧
       accessList d = bufferAccessList ∧
       getAccessListData (Json (AccessListJSON d)) = Some d.
Proof.
  intros Hhex Hbuffers Hjson.
  rewrite (getAccessListData_second _ Hbuffers). eexists.
  split; [reflexivity|]. split; [reflexivity|]. cbn [AccessListJSON].
  rewrite (getAccessListData_first _ Hjson).
  assert (Hmap : mapM bufferItem (jsonItem <$> bufferAccessList)
                 = Some bufferAccessList).
  { apply mapM_Some. apply Forall2_fmap_l, Forall_Forall2_diag, Forall_forall.
    intros [a ks] _. apply bufferItem_converts. split; [apply Hhex|].
    cbn [jsonItem storageKeys snd]. apply Forall2_fmap_l, Forall_Forall2_diag.
    apply Forall_forall. intros b _. apply Hhex. }
  rewrite Hmap. cbn [fmap option_fmap option_map].
  rewrite jsonItem_key_counts. reflexivity.
Qed.

End AccessListProperties.

(** * The properties at concrete engines *)

(** X1 at [Sim.onePending]: the call returns, the pool is empty and the
    mining lock is free. *)
Lemma mineTipset_settles_witness :
  ∃ b', mineTipset (E := Sim.env 0) 1 Sim.onePending = (b', Return tt) ∧
        messagePool b' = [] ∧ miningLock b' = 1%nat.
Proof.
  assert (Hout : (mineTipset (E := Sim.env 0) 1 Sim.onePending).2 = Return tt)
    by (vm_compute; reflexivity).
  destruct (mineTipset_settles (E := Sim.env 0) 1 Sim.onePending)
    as (b' & o & Hrun & _ & _ & Hm & _ & Hpool).
  - vm_compute. discriminate.
  - vm_compute. discriminate.
  - rewrite Hrun in Hout. cbn [snd] in Hout. subst o.
    exists b'. split; [exact Hrun|]. split; [exact Hpool | exact Hm].
Defined.

Lemma chainStored_genesis baseFee blockTime accounts pool :
  chainStored (Sim.genesis baseFee blockTime accounts pool).
Proof.
  split; [reflexivity|]. split; [reflexivity|].
  intros h t H.
  change (({[0 := Sim.genesisTipset]} : gmap Z Tipset.t) !! h = Some t) in H.
  apply lookup_singleton_Some in H as [<- <-]. split; [reflexivity | done].
Qed.

(** X2 for one tipset on top of genesis. *)
Lemma mineTipset_keeps_chain_stored_witness :
  chainStored (mineTipset (E := Sim.env 0) 1 Sim.onePending).1 ∧
  tipsets (mineTipset (E := Sim.env 0) 1 Sim.onePending).1 !! 0
  = Some Sim.genesisTipset.
Proof.
  assert (Hout : (mineTipset (E := Sim.env 0) 1 Sim.onePending).2 = Return tt)
    by (vm_compute; reflexivity).
  destruct (mineTipset_keeps_chain_stored (E := Sim.env 0) 1 Sim.onePending
              _ _ (run_outcome _ _ _ Hout)) as (_ & _ & Hret).
  destruct (Hret eq_refl (chainStored_genesis _ _ _ _)) as (Hchain & _ & Hold).
  split; [exact Hchain|]. apply Hold. reflexivity.
Defined.


(** X5 after [mineTipset(0)] on the empty pool of [Sim.twoAccounts]: the
    latest tipset has no block, and the next call throws. *)
Lemma mineTipset_without_parent_block_witness :
  Tipset.blocks (latest (mineTipset (E := Sim.env 0) 0 Sim.twoAccounts).1) = [] ∧
  (mineTipset (E := Sim.env 0) 1
     (mineTipset (E := Sim.env 0) 0 Sim.twoAccounts).1).2
  = Throw (TypeError "previousTipset.blocks[0] is undefined").
Proof.
  assert (Hb : Tipset.blocks
                 (latest (mineTipset (E := Sim.env 0) 0 Sim.twoAccounts).1) = [])
    by (vm_compute; reflexivity).
  split; [exact Hb|].
  destruct (mineTipset_without_parent_block (E := Sim.env 0) 0
              (mineTipset (E := Sim.env 0) 0 Sim.twoAccounts).1) as (Hrun & _).
  - vm_compute. discriminate.
  - vm_compute. discriminate.
  - exact Hb.
  - rewrite Hrun. reflexivity.
Defined.

Lemma inProcessSound_twoDeals : inProcessSound Sim.twoDeals.
Proof.
  assert (Hin : inProcessDeals Sim.twoDeals = [0; 1]%nat)
    by (vm_compute; reflexivity).
  assert (Hst : DealInfo.state <$> deals Sim.twoDeals
                = [Sim.SSealing; Sim.SValidating])
    by (vm_compute; reflexivity).
  split; rewrite Hin.
  - apply NoDup_cons. split; [|apply NoDup_singleton].
    intros H%list_elem_of_singleton. discriminate.
  - intros r Hr.
    assert (Hs : ∃ s, (DealInfo.state <$> deals Sim.twoDeals) !! r = Some s
                      ∧ s ≠ Sim.SActive).
    { rewrite Hst. apply elem_of_cons in Hr as [-> | Hr].
      - exists Sim.SSealing. split; [reflexivity | discriminate].
      - apply list_elem_of_singleton in Hr as ->.
        exists Sim.SValidating. split; [reflexivity | discriminate]. }
    destruct Hs as (s & Hs & Hna). rewrite list_lookup_fmap in Hs.
    destruct (deals Sim.twoDeals !! r) as [d|]; [|discriminate].
    exists d. split; [reflexivity|]. injection Hs as <-. exact Hna.
Qed.

(** X7 for one tipset on [Sim.twoDeals]: the deal that is left in
    process is not Active. *)
Lemma mineTipset_keeps_in_process_sound_witness :
  inProcessSound (mineTipset (E := Sim.env 0) 1 Sim.twoDeals).1 ∧
  inProcessDeals (mineTipset (E := Sim.env 0) 1 Sim.twoDeals).1 = [1%nat].
Proof.
  split; [|vm_compute; reflexivity].
  exact (proj1 (mineTipset_keeps_in_process_sound (E := Sim.env 0) 1
                  Sim.twoDeals _ _ inProcessSound_twoDeals
                  (surjective_pairing _))).
Defined.

Lemma dealIdsInOrder_twoDeals : dealIdsInOrder Sim.twoDeals.
Proof.
  assert (Hids : DealInfo.dealId <$> deals Sim.twoDeals = [1; 2])
    by (vm_compute; reflexivity).
  intros i d Hd.
  assert (H : (DealInfo.dealId <$> deals Sim.twoDeals) !! i
              = Some (DealInfo.dealId d))
    by (rewrite list_lookup_fmap, Hd; reflexivity).
  rewrite Hids in H.
  destruct i as [|[|i]]; cbn in H; [| |discriminate];
    injection H as H; (etransitivity; [symmetry; exact H | reflexivity]).
Qed.

(** X9 for the two deals of [Sim.twoDeals] and one more tipset. *)
Lemma mineTipset_keeps_deal_ids_witness :
  dealIdsInOrder (mineTipset (E := Sim.env 0) 1 Sim.twoDeals).1.
Proof.
  exact (proj1 (mineTipset_keeps_deal_ids (E := Sim.env 0) 1 Sim.twoDeals
                  _ _ dealIdsInOrder_twoDeals (surjective_pairing _))).
Defined.

(** X8 across an instamined deal. *)
Lemma startDeal_keeps_invariants_witness :
  dealIdsInOrder
    (startDeal (E := Sim.env 0) 5 (Sim.proposal "t3a") Sim.instamine).1 ∧
  inProcessSound
    (startDeal (E := Sim.env 0) 5 (Sim.proposal "t3a") Sim.instamine).1 ∧
  chainStored (startDeal (E := Sim.env 0) 5 (Sim.proposal "t3a") Sim.instamine).1.
Proof.
  assert (Hout : (startDeal (E := Sim.env 0) 5 (Sim.proposal "t3a")
                    Sim.instamine).2
                 = Return (RootCID.mk (CID.mk "deal:signed:key:t3a")))
    by (vm_compute; reflexivity).
  destruct (startDeal_keeps_invariants (E := Sim.env 0) 5 (Sim.proposal "t3a")
              Sim.instamine _ _ (run_outcome _ _ _ Hout)) as (H1 & H2 & H3).
  split; [|split].
  - apply H1. intros i d Hd. destruct i; discriminate.
  - apply H2; [discriminate|]. split; [apply NoDup_nil_2|].
    intros r Hr. apply elem_of_nil in Hr. destruct Hr.
  - apply (H3 _ eq_refl). apply chainStored_genesis.
Defined.

(** X10 for a proposal without a wallet. *)
Lemma startDeal_rejections_witness :
  startDeal (E := Sim.env 0) 5
    (StartDealParams.mk
       (StorageMarketDataRef.mk (RootCID.mk (CID.mk "QmData")) None 0)
       None "t01000" 2 10)
    Sim.twoAccounts
  = (Sim.twoAccounts, Throw MissingWallet).
Proof.
  apply (proj1 (startDeal_rejections (E := Sim.env 0) 5 _ Sim.twoAccounts)).
  reflexivity.
Defined.

(** X16 for an instamined deal. *)
Lemma startDeal_registers_witness :
  ∃ b' d,
    startDeal (E := Sim.env 0) 5 (Sim.proposal "t3a") Sim.instamine
    = (b', Return (RootCID.mk (CID.mk "deal:signed:key:t3a"))) ∧
    deals b' !! 0%nat = Some d ∧
    DealInfo.state d = Sim.SActive ∧ DealInfo.dealId d = 1 ∧
    dealsByCid b' !! "deal:signed:key:t3a" = Some 0%nat.
Proof.
  assert (Hrun : (startDeal (E := Sim.env 0) 5 (Sim.proposal "t3a")
                    Sim.instamine).2
                 = Return (RootCID.mk (CID.mk "deal:signed:key:t3a")))
    by (vm_compute; reflexivity).
  apply run_outcome in Hrun.
  destruct (startDeal_registers (E := Sim.env 0) 5 (Sim.proposal "t3a")
              Sim.instamine _ _ Hrun)
    as (_ & _ & Hcids & d & Hd & _ & Hid & _ & _ & _ & Hstate).
  eexists _, d. split; [exact Hrun|]. split; [exact Hd|].
  split; [exact (proj1 Hstate)|]. split; [exact Hid|].
  rewrite Hcids. apply lookup_insert_eq.
Defined.

(** X11 with the lock free at [Sim.twoAccounts]. *)
Lemma pushSigned_outcomes_witness :
  ∃ b',
    pushSigned (E := Sim.env 0) (Sim.signed (Sim.transfer "t3a" "t3b" 1 0)) true
      Sim.twoAccounts
    = (b', Return (RootCID.mk (CID.mk "msg:t3a:0"))) ∧
    messagePool b' = [Sim.signed (Sim.transfer "t3a" "t3b" 1 0)] ∧
    scheduledMines b' = 0%nat.
Proof.
  destruct (pushSigned_outcomes (E := Sim.env 0)
              (Sim.signed (Sim.transfer "t3a" "t3b" 1 0)) true Sim.twoAccounts)
    as (_ & H).
  destruct (H eq_refl) as (_ & Hrun).
  eexists. split; [rewrite Hrun; [reflexivity | right; discriminate]|].
  split; reflexivity.
Defined.

(** X13 at [Sim.twoAccounts]: no tipset is mined afterwards and no
    message is pushed. *)
Lemma stop_blocks_engine_witness :
  ∃ b',
    stop (E := Sim.env 0) (λ _, false) Sim.twoAccounts = (b', Return tt) ∧
    mineTipset 1 b' = (b', Pending) ∧
    push (Sim.transfer "t3a" "t3b" 1 0) Sim.noSpec b' = (b', Pending).
Proof.
  destruct (stop_blocks_engine (E := Sim.env 0) (λ _, false) Sim.twoAccounts
              eq_refl eq_refl)
    as (b' & Hrun & _ & Hmine & _ & Hpush & _).
  exists b'. split; [exact Hrun|]. split; [apply Hmine|].
  apply Hpush. vm_compute. repeat split.
Defined.

(** X15 for a download at [Sim.twoAccounts]. *)
Lemma downloadFile_files_witness :
  files (downloadFile (E := Sim.env 0) "QmData" (FileRef.mk "/downloads/data")
           Sim.twoAccounts).1 !! "/downloads/data"
  = Some ["chunk1"; "chunk2"] ∧
  files (downloadFile (E := Sim.env 0) "QmData" (FileRef.mk "/downloads/data")
           Sim.twoAccounts).1 !! "/downloads/data.partial"
  = None.
Proof.
  assert (Hout : (downloadFile (E := Sim.env 0) "QmData"
                    (FileRef.mk "/downloads/data") Sim.twoAccounts).2
                 = Return tt) by (vm_compute; reflexivity).
  pose proof (downloadFile_files (E := Sim.env 0) "QmData"
                (FileRef.mk "/downloads/data") Sim.twoAccounts) as H.
  cbv zeta in H. destruct H as (_ & _ & H). rewrite Hout in H.
  destruct H as (_ & Hpartial & chunks & Hread & Hfile).
  split; [|exact Hpartial]. etransitivity; [exact Hfile|]. f_equal.
  injection Hread as <-. reflexivity.
Defined.


(** X18 for a JSON access list whose second address is not a hex
    string. *)
Lemma getAccessListData_json_witness :
  AccessLists.getAccessListData (I := AccessLists.Example.imports)
    (AccessLists.Json AccessLists.Example.notHex) = None.
Proof.
  apply (proj2 (getAccessListData_json (I := AccessLists.Example.imports)
                  AccessLists.Example.notHex eq_refl)).
  exists (AccessLists.mkItem "bb" []). split.
  - unfold AccessLists.Example.notHex. rewrite !elem_of_cons. right. left.
    reflexivity.
  - left. reflexivity.
Defined.

(** X19 for two pairs of buffers: two addresses and two storage keys. *)
Lemma getAccessListData_buffers_witness :
  AccessLists.getAccessListData (I := AccessLists.Example.imports)
    (AccessLists.Buffers AccessLists.Example.twoItems)
  = Some (AccessLists.mkData (I := AccessLists.Example.imports)
            AccessLists.Example.twoJsonItems AccessLists.Example.twoItems 8600).
Proof.
  exact (proj2 (proj2 (getAccessListData_buffers
                         (I := AccessLists.Example.imports)))
           AccessLists.Example.twoItems eq_refl).
Defined.

(** X20 for the same list given as JSON. *)
Lemma getAccessListData_fee_witness :
  AccessLists.dataFeeEIP2930
    <$> AccessLists.getAccessListData (I := AccessLists.Example.imports)
          (AccessLists.Json AccessLists.Example.twoJsonItems)
  = Some (2 * 2400 + 2 * 1900).
Proof.
  assert (Hrun : AccessLists.getAccessListData (I := AccessLists.Example.imports)
                   (AccessLists.Json AccessLists.Example.twoJsonItems)
                 = Some (AccessLists.mkData (I := AccessLists.Example.imports)
                           AccessLists.Example.twoJsonItems
                           AccessLists.Example.twoItems 8600))
    by (vm_compute; reflexivity).
  destruct (getAccessListData_fee (I := AccessLists.Example.imports) _ _ Hrun)
    as (Hfee & _).
  rewrite Hrun. cbn [fmap option_fmap option_map]. rewrite Hfee. reflexivity.
Defined.

(** X21 for the two pairs of buffers. *)
Lemma getAccessListData_round_trip_witness :
  ∃ d,
    AccessLists.getAccessListData (I := AccessLists.Example.imports)
      (AccessLists.Buffers AccessLists.Example.twoItems) = Some d ∧
    AccessLists.AccessListJSON d = AccessLists.Example.twoJsonItems ∧
    AccessLists.getAccessListData (I := AccessLists.Example.imports)
      (AccessLists.Json AccessLists.Example.twoJsonItems) = Some d.
Proof.
  destruct (getAccessListData_round_trip (I := AccessLists.Example.imports)
              AccessLists.Example.twoItems)
    as (d & Hrun & _ & Hback).
  - intros buffer. reflexivity.
  - reflexivity.
  - reflexivity.
  - assert (Hjson : AccessLists.AccessListJSON d
                    = AccessLists.Example.twoJsonItems).
    { assert (H : AccessLists.AccessListJSON
                    <$> AccessLists.getAccessListData
                          (I := AccessLists.Example.imports)
                          (AccessLists.Buffers AccessLists.Example.twoItems)
                  = Some AccessLists.Example.twoJsonItems)
        by (vm_compute; reflexivity).
      rewrite Hrun in H. injection H as H. exact H. }
    exists d. split; [exact Hrun|]. split; [exact Hjson|].
    rewrite <- Hjson. exact Hback.
Defined.
